(** * A shallow embedding of the toy JSON parser (lexer + recursive-descent
      parser of [parser.ts]) and the properties of its behaviour.

    Conventions of the embedding:
    - a character of the input (one element of [[...blob]]) is an [ascii];
      every character the lexer compares against is an ASCII character;
    - a JavaScript array is a [list]; an out-of-range read [a[i]] is
      [nth_error a i = None] (JavaScript's [undefined]);
    - [throw] and the run-time [TypeError] raised by a property read on
      [undefined] are the [Throw] outcome; a [while (true)] loop that is
      cut off by the iteration budget is the [OutOfFuel] outcome;
    - a string built from characters of the input is no longer than the
      input, which the engine holds as a string; the text [undefined]
      appended on a read past the end can make a string longer than the
      engine allows, and the engine then throws a [RangeError];
    - the object literal built by [parseObject] is an ordered property list
      together with its prototype slot. *)

From Stdlib Require Import List String Ascii Bool Arith NArith Lia.
Import ListNotations.

Set Implicit Arguments.
#[local] Set Warnings "-register-all".

(* ------------------------------------------------------------------ *)
(** ** Outcomes: normal completion, a thrown error, or an exhausted budget *)

Inductive Error : Type :=
| LexerInvalidCharacter (c : ascii)   (* [lexer] Invalid character, ..., found. *)
| LexerUnknownBoolean                 (* [lexer.boolean] Unknown boolean value. *)
| ParserObjectExpectedNameSeparator   (* [parser.object] Invalid character ... Expected ":" *)
| ParserObjectTrailingComma           (* [parser.object] No trailing commas allowed. *)
| ParserObjectMissingEnd              (* [parser.object] Missing expected "}" *)
| ParserArrayTrailingComma            (* [parser.array] No trailing commas allowed. *)
| ParserArrayMissingEnd               (* [parser.array] Missing expected "]" *)
| TypeError                           (* property read on undefined, raised by the run time *)
| RangeError.                         (* Invalid string length, raised by the run time *)

(** The two error kinds of the design are told apart by the prefix of the
    message ([lexer...] or [parser...]); a [TypeError] of the run time is
    neither. *)
Inductive ErrorKind : Type := LexError | ParseError | RuntimeError.

Definition error_kind (e : Error) : ErrorKind :=
  match e with
  | LexerInvalidCharacter _ | LexerUnknownBoolean => LexError
  | ParserObjectExpectedNameSeparator | ParserObjectTrailingComma
  | ParserObjectMissingEnd | ParserArrayTrailingComma
  | ParserArrayMissingEnd => ParseError
  | TypeError | RangeError => RuntimeError
  end.

Inductive Outcome (A : Type) : Type :=
| Ok (a : A)
| Throw (e : Error)
| OutOfFuel.

Arguments Throw {A} e.
Arguments OutOfFuel {A}.

Definition bind {A B : Type} (m : Outcome A) (k : A -> Outcome B) : Outcome B :=
  match m with
  | Ok a => k a
  | Throw e => Throw e
  | OutOfFuel => OutOfFuel
  end.

Notation "x <- m ;; k" := (bind m (fun x => k))
  (at level 61, m at next level, right associativity).
Notation "' pat <- m ;; k" := (bind m (fun x => let pat := x in k))
  (at level 61, pat pattern, m at next level, right associativity).

(** An outcome is final when the computation completed: it returned or threw. *)
Definition final {A : Type} (r : Outcome A) : Prop := r <> OutOfFuel.

(* ------------------------------------------------------------------ *)
(** ** Constants of the module *)

Module SYNTAX_TOKENS.
Definition BEGIN_ARRAY : ascii := ascii_of_nat 91.
Definition BEGIN_OBJECT : ascii := ascii_of_nat 123.
Definition END_ARRAY : ascii := ascii_of_nat 93.
Definition END_OBJECT : ascii := ascii_of_nat 125.
Definition NAME_SEPARATOR : ascii := ascii_of_nat 58.
Definition VALUE_SEPARATOR : ascii := ascii_of_nat 44.
(** [Object.values(SYNTAX_TOKENS)] *)
Definition values : list ascii :=
  [BEGIN_ARRAY; BEGIN_OBJECT; END_ARRAY; END_OBJECT; NAME_SEPARATOR; VALUE_SEPARATOR].
End SYNTAX_TOKENS.

Definition QUOTATION_MARK : ascii := ascii_of_nat 34.

(** The escape character, written ["\\"] in the source. *)
Definition REVERSE_SOLIDUS : ascii := ascii_of_nat 92.

Module WHITESPACE_TOKENS.
Definition SPACE : ascii := ascii_of_nat 32.
Definition TAB : ascii := ascii_of_nat 9.
Definition NEWLINE : ascii := ascii_of_nat 10.
Definition values : list ascii := [SPACE; TAB; NEWLINE].
End WHITESPACE_TOKENS.

Inductive TokenType : Type := BOOLEAN | STRING | NUMBER | SYNTAX.

Definition TokenType_eqb (a b : TokenType) : bool :=
  match a, b with
  | BOOLEAN, BOOLEAN | STRING, STRING | NUMBER, NUMBER | SYNTAX, SYNTAX => true
  | _, _ => false
  end.

(** [TokenValue = string | boolean | number]; the lexer never builds a
    number, so only the two inhabited alternatives are kept. *)
Inductive TokenValue : Type :=
| TVString (s : string)
| TVBoolean (b : bool).

Record Token : Type := mkToken { type : TokenType; value : TokenValue }.

(** A one-character string. *)
Definition str1 (c : ascii) : string := String c EmptyString.

(** [v === ch] for a token value and one of the one-character constants. *)
Definition value_is (v : TokenValue) (ch : ascii) : bool :=
  match v with
  | TVString s => String.eqb s (str1 ch)
  | TVBoolean _ => false
  end.

(** [value.toString()] *)
Definition toString (v : TokenValue) : string :=
  match v with
  | TVString s => s
  | TVBoolean true => "true"
  | TVBoolean false => "false"
  end.

(** [list.includes(x)] where [x] may be [undefined]. *)
Definition includes (l : list ascii) (x : option ascii) : bool :=
  match x with
  | Some c => existsb (Ascii.eqb c) l
  | None => false
  end.

(** [x === ch] where [x] may be [undefined]. *)
Definition char_is (x : option ascii) (ch : ascii) : bool :=
  match x with
  | Some c => Ascii.eqb c ch
  | None => false
  end.

(** [str += x]: string concatenation converts [undefined] to its name. *)
Definition char_str (x : option ascii) : string :=
  match x with
  | Some c => str1 c
  | None => "undefined"
  end.

(** The longest string the engine builds; in V8 on a 64-bit machine
    2^29 - 24 characters. No statement depends on its value. *)
Definition MAX_STRING_LENGTH : N := 536870888.

Definition too_long (s : string) : bool :=
  (MAX_STRING_LENGTH <? N.of_nat (String.length s))%N.

(** [str += x]. A character of the input is appended as it is: the loops
    append the characters they read before any read past the end, so that
    the string is then no longer than the input. On a read past the end
    the name of [undefined] is appended, and the engine refuses the string,
    with a [RangeError], once it is longer than [MAX_STRING_LENGTH]. *)
Definition str_append (str : string) (x : option ascii) : Outcome string :=
  let s := (str ++ char_str x)%string in
  match x with
  | Some _ => Ok s
  | None => if too_long s then Throw RangeError else Ok s
  end.

(* ------------------------------------------------------------------ *)
(** ** The lexer *)

(** The loop of [lexString]; the state is the three locals [c], [length]
    and [str]. [c.shift()] and [c.splice(0, 2)] on a too short array
    remove what is there. Once [c] is empty no iteration finds the
    quotation mark, and every one of them appends to [str]. *)
Fixpoint lexString_loop (fuel : nat) (c : list ascii) (length : nat) (str : string)
  : Outcome (nat * Token) :=
  match fuel with
  | O => OutOfFuel
  | S fuel' =>
    let isQuote := char_is (nth_error c 0) QUOTATION_MARK in
    let isEscapeChar := char_is (nth_error c 0) REVERSE_SOLIDUS in
    if negb isQuote && negb isEscapeChar then
      str <- str_append str (nth_error c 0) ;;
      lexString_loop fuel' (skipn 1 c) (length + 1) str
    else if negb isEscapeChar then
      Ok (length, mkToken STRING (TVString str))
    else
      str <- str_append str (nth_error c 1) ;;
      lexString_loop fuel' (skipn 2 c) (length + 2) str
  end.

Definition lexString (fuel : nat) (chars : list ascii) : Outcome (nat * Token) :=
  lexString_loop fuel chars 0 "".

Definition lexBoolean (chars : list ascii) : Outcome Token :=
  if String.eqb (string_of_list_ascii (firstn 4 chars)) "true"
     && (char_is (nth_error chars 4) SYNTAX_TOKENS.VALUE_SEPARATOR
         || char_is (nth_error chars 4) SYNTAX_TOKENS.END_OBJECT
         || char_is (nth_error chars 4) SYNTAX_TOKENS.END_ARRAY
         || includes WHITESPACE_TOKENS.values (nth_error chars 5))
  then Ok (mkToken BOOLEAN (TVBoolean true))
  else if String.eqb (string_of_list_ascii (firstn 5 chars)) "false"
     && (char_is (nth_error chars 5) SYNTAX_TOKENS.VALUE_SEPARATOR
         || char_is (nth_error chars 5) SYNTAX_TOKENS.END_OBJECT
         || char_is (nth_error chars 5) SYNTAX_TOKENS.END_ARRAY
         || includes WHITESPACE_TOKENS.values (nth_error chars 5))
  then Ok (mkToken BOOLEAN (TVBoolean false))
  else Throw LexerUnknownBoolean.

(** The loop of [lex]; the state is [tokens] and [chars]. *)
Fixpoint lex_loop (fuel : nat) (tokens : list Token) (chars : list ascii)
  : Outcome (list Token) :=
  match fuel with
  | O => OutOfFuel
  | S fuel' =>
    match chars with
    | [] => Ok tokens
    | ch :: rest =>
      if includes WHITESPACE_TOKENS.values (Some ch) then
        lex_loop fuel' tokens rest
      else if includes SYNTAX_TOKENS.values (Some ch) then
        lex_loop fuel' (tokens ++ [mkToken SYNTAX (TVString (str1 ch))]) rest
      else if Ascii.eqb ch QUOTATION_MARK then
        '(length, stringToken) <- lexString fuel' rest ;;
        lex_loop fuel' (tokens ++ [stringToken]) (skipn (length + 1) rest)
      else if Ascii.eqb ch "t" || Ascii.eqb ch "f" then
        booleanToken <- lexBoolean chars ;;
        lex_loop fuel' (tokens ++ [booleanToken])
                 (skipn (String.length (toString (value booleanToken))) chars)
      else Throw (LexerInvalidCharacter ch)
    end
  end.

Definition lex (fuel : nat) (blob : string) : Outcome (list Token) :=
  lex_loop fuel [] (list_ascii_of_string blob).

(* ------------------------------------------------------------------ *)
(** ** Values built by the parser *)

(** [OutputObject], a plain JavaScript object: its prototype slot ([None]
    stands for the default [Object.prototype]) and its own properties in
    creation order. *)
Record OutputObject (V : Type) : Type :=
  mkObject { proto : option V; props : list (string * V) }.

(** [OutputObject | OutputArray | TokenValue] *)
Inductive Value : Type :=
| VString (s : string)
| VBoolean (b : bool)
| VArray (elems : list Value)
| VObject (o : OutputObject Value).

Definition of_TokenValue (v : TokenValue) : Value :=
  match v with
  | TVString s => VString s
  | TVBoolean b => VBoolean b
  end.

(** The object literal [{}] *)
Definition empty_object : OutputObject Value := mkObject None [].

(** [typeof v === "object"]: arrays and objects. *)
Definition is_object (v : Value) : bool :=
  match v with
  | VArray _ | VObject _ => true
  | _ => false
  end.

(** [Array.isArray(v)] *)
Definition isArray (v : Value) : bool :=
  match v with
  | VArray _ => true
  | _ => false
  end.

(** [Object.values(SYNTAX_TOKENS).includes(v)]: only a one-character string
    can be equal to one of the constants. *)
Definition is_syntax_value (v : Value) : bool :=
  match v with
  | VString s => existsb (fun ch => String.eqb s (str1 ch)) SYNTAX_TOKENS.values
  | _ => false
  end.

(** Defining or updating an own data property: an existing key keeps its
    place, a new key is created after the others. *)
Fixpoint props_set (V : Type) (k : string) (v : V) (ps : list (string * V))
  : list (string * V) :=
  match ps with
  | [] => [(k, v)]
  | (k', v') :: ps' =>
    if String.eqb k' k then (k', v) :: ps' else (k', v') :: props_set k v ps'
  end.

Fixpoint props_get (V : Type) (k : string) (ps : list (string * V)) : option V :=
  match ps with
  | [] => None
  | (k', v') :: ps' => if String.eqb k' k then Some v' else props_get k ps'
  end.

(** [output[k] = v] on an object made by an object literal. The only
    accessor it inherits is [__proto__], whose setter replaces the prototype
    when [v] is an object and does nothing otherwise; every other key
    defines or updates an own property. *)
Definition obj_assign (k : string) (v : Value) (o : OutputObject Value) : OutputObject Value :=
  if String.eqb k "__proto__" then
    if is_object v then mkObject (Some v) (props o) else o
  else mkObject (proto o) (props_set k v (props o)).

(** *** Enumeration order of the own keys

    Keys that are array indices (canonical decimal numerals below 2^32 - 1)
    come first, in ascending numeric order; the others follow in creation
    order. *)

Definition is_digit (c : ascii) : bool :=
  (48 <=? nat_of_ascii c) && (nat_of_ascii c <=? 57).

Fixpoint digits_value (acc : N) (s : string) : N :=
  match s with
  | EmptyString => acc
  | String c s' => digits_value (acc * 10 + N.of_nat (nat_of_ascii c - 48)) s'
  end.

Fixpoint all_digits (s : string) : bool :=
  match s with
  | EmptyString => true
  | String c s' => is_digit c && all_digits s'
  end.

Definition array_index (s : string) : option N :=
  match s with
  | EmptyString => None
  | String c s' =>
    if all_digits s && (negb (Ascii.eqb c "0") || String.eqb s' "")
       && (String.length s <=? 10) && (digits_value 0 s <? 4294967295)%N
    then Some (digits_value 0 s) else None
  end.

Fixpoint insert_index (n : N) (k : string) (l : list (N * string)) : list (N * string) :=
  match l with
  | [] => [(n, k)]
  | (m, k') :: l' => if (n <? m)%N then (n, k) :: l else (m, k') :: insert_index n k l'
  end.

Fixpoint index_keys (ks : list string) : list (N * string) :=
  match ks with
  | [] => []
  | k :: ks' =>
    match array_index k with
    | Some n => insert_index n k (index_keys ks')
    | None => index_keys ks'
    end
  end.

Definition is_index_key (k : string) : bool :=
  match array_index k with Some _ => true | None => false end.

(** [Object.keys(o)] *)
Definition own_keys (V : Type) (o : OutputObject V) : list string :=
  let ks := map fst (props o) in
  map snd (index_keys ks) ++ filter (fun k => negb (is_index_key k)) ks.

(** [o[k]] for an own property. *)
Definition own_get (V : Type) (o : OutputObject V) (k : string) : option V :=
  props_get k (props o).

(* ------------------------------------------------------------------ *)
(** ** The parser *)

(** [t[i].value] and [t[i].type]: reading a property of [undefined] raises
    a [TypeError]. *)
Definition tok_value (t : list Token) (i : nat) : Outcome TokenValue :=
  match nth_error t i with
  | Some tok => Ok (value tok)
  | None => Throw TypeError
  end.

Definition tok_type (t : list Token) (i : nat) : Outcome TokenType :=
  match nth_error t i with
  | Some tok => Ok (type tok)
  | None => Throw TypeError
  end.

(** [parseTokens] with the loops of [parseObject] and [parseArray]; the
    loop state is [output] and [t]. Every call and every loop iteration
    takes one unit of the budget. *)
Fixpoint parseTokens (fuel : nat) (tokens : list Token) {struct fuel}
  : Outcome (list Token * Value) :=
  match fuel with
  | O => OutOfFuel
  | S fuel' =>
    v0 <- tok_value tokens 0 ;;
    if value_is v0 SYNTAX_TOKENS.BEGIN_OBJECT then
      '(t, output) <- parseObject_loop fuel' empty_object (skipn 1 tokens) ;;
      Ok (t, VObject output)
    else if value_is v0 SYNTAX_TOKENS.BEGIN_ARRAY then
      '(t, output) <- parseArray_loop fuel' [] (skipn 1 tokens) ;;
      Ok (t, VArray output)
    else
      Ok (skipn 1 tokens, of_TokenValue v0)
  end

with parseObject_loop (fuel : nat) (output : OutputObject Value) (t : list Token)
  {struct fuel} : Outcome (list Token * OutputObject Value) :=
  match fuel with
  | O => OutOfFuel
  | S fuel' =>
    ty <- tok_type t 0 ;;
    if negb (TokenType_eqb ty STRING) then Throw ParserObjectMissingEnd
    else
      key <- tok_value t 0 ;;
      let t := skipn 1 t in
      sep <- tok_value t 0 ;;
      if negb (value_is sep SYNTAX_TOKENS.NAME_SEPARATOR)
      then Throw ParserObjectExpectedNameSeparator
      else
        let t := skipn 1 t in
        '(outputTokens, objectValue) <- parseTokens fuel' t ;;
        let output := obj_assign (toString key) objectValue output in
        let t := outputTokens in
        v <- tok_value t 0 ;;
        t <- (if value_is v SYNTAX_TOKENS.VALUE_SEPARATOR then
                v1 <- tok_value t 1 ;;
                if value_is v1 SYNTAX_TOKENS.END_OBJECT
                then Throw ParserObjectTrailingComma
                else Ok (skipn 1 t)
              else Ok t) ;;
        v <- tok_value t 0 ;;
        if value_is v SYNTAX_TOKENS.END_OBJECT then Ok (skipn 1 t, output)
        else parseObject_loop fuel' output t
  end

with parseArray_loop (fuel : nat) (output : list Value) (t : list Token)
  {struct fuel} : Outcome (list Token * list Value) :=
  match fuel with
  | O => OutOfFuel
  | S fuel' =>
    '(outputTokens, value) <- parseTokens fuel' t ;;
    if negb (isArray value) && is_syntax_value value
    then Throw ParserArrayMissingEnd
    else
      let output := output ++ [value] in
      let t := outputTokens in
      if Nat.eqb (List.length t) 0 then Throw ParserArrayMissingEnd
      else
        v <- tok_value t 0 ;;
        t <- (if value_is v SYNTAX_TOKENS.VALUE_SEPARATOR then
                v1 <- tok_value t 1 ;;
                if value_is v1 SYNTAX_TOKENS.END_ARRAY
                then Throw ParserArrayTrailingComma
                else Ok (skipn 1 t)
              else Ok t) ;;
        v <- tok_value t 0 ;;
        if value_is v SYNTAX_TOKENS.END_ARRAY then Ok (skipn 1 t, output)
        else parseArray_loop fuel' output t
  end.

Definition parseObject (fuel : nat) (tokens : list Token)
  : Outcome (list Token * OutputObject Value) :=
  parseObject_loop fuel empty_object tokens.

Definition parseArray (fuel : nat) (tokens : list Token)
  : Outcome (list Token * list Value) :=
  parseArray_loop fuel [] tokens.

(** [parse]: lex, parse, keep the second component. *)
Definition parse (fuel : nat) (input : string) : Outcome Value :=
  tokens <- lex fuel input ;;
  r <- parseTokens fuel tokens ;;
  Ok (snd r).

(** What a call of [parse] does, whatever the budget. *)
Definition returns (input : string) (v : Value) : Prop :=
  exists fuel, parse fuel input = Ok v.

Definition throws (input : string) (e : Error) : Prop :=
  exists fuel, parse fuel input = Throw e.

Definition diverges (input : string) : Prop :=
  forall fuel, parse fuel input = OutOfFuel.

(** [r'] is at least as defined as [r]. *)
Definition approx {A : Type} (r r' : Outcome A) : Prop :=
  r = OutOfFuel \/ r = r'.

(* ------------------------------------------------------------------ *)
(** ** The version of the module in [src/parser.ts], the draft

    A token carries its source text beside its value. A string literal
    runs to the next quotation mark, without escapes; a boolean must be
    followed by a value-separator; the loops of the parser run while tokens
    are left, and after a value they compare the [text] of the next token.
    [blob.split("")] is the list of the characters, as [[...blob]] is. *)

Module Draft.

Module JSON_syntax.
Definition LEFT_SQUARE_BRACKET : ascii := ascii_of_nat 91.
Definition LEFT_CURLY_BRACKET : ascii := ascii_of_nat 123.
Definition RIGHT_SQUARE_BRACKET : ascii := ascii_of_nat 93.
Definition RIGHT_CURLY_BRACKET : ascii := ascii_of_nat 125.
Definition NAME_SEPARATOR : ascii := ascii_of_nat 58.
Definition VALUE_SEPARATOR : ascii := ascii_of_nat 44.
(** [Object.values(JSON_syntax)] *)
Definition values : list ascii :=
  [LEFT_SQUARE_BRACKET; LEFT_CURLY_BRACKET; RIGHT_SQUARE_BRACKET; RIGHT_CURLY_BRACKET;
   NAME_SEPARATOR; VALUE_SEPARATOR].
End JSON_syntax.

Module JSON_whitespace.
Definition SPACE : ascii := ascii_of_nat 32.
Definition TAB : ascii := ascii_of_nat 9.
Definition NEWLINE : ascii := ascii_of_nat 10.
Definition values : list ascii := [SPACE; TAB; NEWLINE].
End JSON_whitespace.

Record Token : Type := mkToken { type : TokenType; text : string; value : TokenValue }.

(** [s === ch] for a text and one of the one-character constants. *)
Definition text_is (s : string) (ch : ascii) : bool := String.eqb s (str1 ch).

(** The loop of [lexString]; the state is [str], whose length is the
    position read in [chars]. *)
Fixpoint lexString_loop (fuel : nat) (chars : list ascii) (str : string) : Outcome Token :=
  match fuel with
  | O => OutOfFuel
  | S fuel' =>
    if negb (char_is (nth_error chars (String.length str)) QUOTATION_MARK) then
      str <- str_append str (nth_error chars (String.length str)) ;;
      lexString_loop fuel' chars str
    else Ok (mkToken STRING str (TVString str))
  end.

Definition lexString (fuel : nat) (chars : list ascii) : Outcome Token :=
  lexString_loop fuel chars "".

Definition lexBoolean (chars : list ascii) : Outcome Token :=
  if String.eqb (string_of_list_ascii (firstn 4 chars)) "true"
     && char_is (nth_error chars 4) JSON_syntax.VALUE_SEPARATOR
  then Ok (mkToken BOOLEAN "true" (TVBoolean true))
  else if String.eqb (string_of_list_ascii (firstn 5 chars)) "false"
     && char_is (nth_error chars 5) JSON_syntax.VALUE_SEPARATOR
  then Ok (mkToken BOOLEAN "false" (TVBoolean false))
  else Throw LexerUnknownBoolean.

Fixpoint lex_loop (fuel : nat) (tokens : list Token) (chars : list ascii)
  : Outcome (list Token) :=
  match fuel with
  | O => OutOfFuel
  | S fuel' =>
    match chars with
    | [] => Ok tokens
    | ch :: rest =>
      if includes JSON_whitespace.values (Some ch) then
        lex_loop fuel' tokens rest
      else if includes JSON_syntax.values (Some ch) then
        lex_loop fuel' (tokens ++ [mkToken SYNTAX (str1 ch) (TVString (str1 ch))]) rest
      else if Ascii.eqb ch QUOTATION_MARK then
        stringToken <- lexString fuel' rest ;;
        lex_loop fuel' (tokens ++ [stringToken])
                 (skipn (String.length (text stringToken) + 1) rest)
      else if Ascii.eqb ch "t" || Ascii.eqb ch "f" then
        booleanToken <- lexBoolean chars ;;
        lex_loop fuel' (tokens ++ [booleanToken])
                 (skipn (String.length (text booleanToken)) chars)
      else Throw (LexerInvalidCharacter ch)
    end
  end.

Definition lex (fuel : nat) (blob : string) : Outcome (list Token) :=
  lex_loop fuel [] (list_ascii_of_string blob).

Definition tok_value (t : list Token) (i : nat) : Outcome TokenValue :=
  match nth_error t i with
  | Some tok => Ok (value tok)
  | None => Throw TypeError
  end.

Definition tok_text (t : list Token) (i : nat) : Outcome string :=
  match nth_error t i with
  | Some tok => Ok (text tok)
  | None => Throw TypeError
  end.

(** [parseTokens] with the loops of [parseObject] and [parseArray]. The
    loop of [parseObject] runs while more than one token is left; the test
    after it compares with the closing square bracket. *)
Fixpoint parseTokens (fuel : nat) (tokens : list Token) {struct fuel}
  : Outcome (list Token * Value) :=
  match fuel with
  | O => OutOfFuel
  | S fuel' =>
    v0 <- tok_value tokens 0 ;;
    if value_is v0 JSON_syntax.LEFT_CURLY_BRACKET then
      '(t, output) <- parseObject_loop fuel' empty_object (skipn 1 tokens) ;;
      Ok (t, VObject output)
    else if value_is v0 JSON_syntax.LEFT_SQUARE_BRACKET then
      '(t, output) <- parseArray_loop fuel' [] (skipn 1 tokens) ;;
      Ok (t, VArray output)
    else
      Ok (skipn 1 tokens, of_TokenValue v0)
  end

with parseObject_loop (fuel : nat) (output : OutputObject Value) (t : list Token)
  {struct fuel} : Outcome (list Token * OutputObject Value) :=
  match fuel with
  | O => OutOfFuel
  | S fuel' =>
    if Nat.ltb 1 (List.length t) then
      match t with
      | [] => Throw TypeError
      | objectKey :: t =>
        sep <- tok_value t 0 ;;
        if negb (value_is sep JSON_syntax.NAME_SEPARATOR)
        then Throw ParserObjectExpectedNameSeparator
        else
          let t := skipn 1 t in
          '(outputTokens, objectValue) <- parseTokens fuel' t ;;
          let output := obj_assign (text objectKey) objectValue output in
          let t := outputTokens in
          x <- tok_text t 0 ;;
          let t := if text_is x JSON_syntax.VALUE_SEPARATOR then skipn 1 t else t in
          x <- tok_text t 0 ;;
          if text_is x JSON_syntax.RIGHT_CURLY_BRACKET then Ok (skipn 1 t, output)
          else parseObject_loop fuel' output t
      end
    else
      x <- tok_text t 0 ;;
      if negb (text_is x JSON_syntax.RIGHT_SQUARE_BRACKET)
      then Throw ParserObjectMissingEnd
      else Ok (t, output)
  end

with parseArray_loop (fuel : nat) (output : list Value) (t : list Token)
  {struct fuel} : Outcome (list Token * list Value) :=
  match fuel with
  | O => OutOfFuel
  | S fuel' =>
    if Nat.ltb 0 (List.length t) then
      '(outputTokens, value) <- parseTokens fuel' t ;;
      let output := output ++ [value] in
      let t := outputTokens in
      x <- tok_text t 0 ;;
      let t := if text_is x JSON_syntax.VALUE_SEPARATOR then skipn 1 t else t in
      x <- tok_text t 0 ;;
      if text_is x JSON_syntax.RIGHT_SQUARE_BRACKET then Ok (skipn 1 t, output)
      else parseArray_loop fuel' output t
    else
      x <- tok_text t 0 ;;
      if negb (text_is x JSON_syntax.RIGHT_SQUARE_BRACKET)
      then Throw ParserArrayMissingEnd
      else Ok (t, output)
  end.

Definition parseObject (fuel : nat) (tokens : list Token)
  : Outcome (list Token * OutputObject Value) :=
  parseObject_loop fuel empty_object tokens.

Definition parseArray (fuel : nat) (tokens : list Token)
  : Outcome (list Token * list Value) :=
  parseArray_loop fuel [] tokens.

Definition parse (fuel : nat) (input : string) : Outcome Value :=
  tokens <- lex fuel input ;;
  r <- parseTokens fuel tokens ;;
  Ok (snd r).

End Draft.

(* ------------------------------------------------------------------ *)
(** ** The version of the module in [part_001], the revision

    It stands between the draft and the module. The constants have the
    names of the module, under [JSON_syntax] and [JSON_whitespace];
    [lexString] is the one of the module, with the [text] field of the
    draft's token; [lexBoolean], [parseTokens], [parseObject] and
    [parseArray] are those of the draft. *)

Module Revision.

Module JSON_syntax := SYNTAX_TOKENS.
Module JSON_whitespace := WHITESPACE_TOKENS.

Fixpoint lexString_loop (fuel : nat) (c : list ascii) (length : nat) (str : string)
  : Outcome (nat * Draft.Token) :=
  match fuel with
  | O => OutOfFuel
  | S fuel' =>
    let isQuote := char_is (nth_error c 0) QUOTATION_MARK in
    let isEscapeChar := char_is (nth_error c 0) REVERSE_SOLIDUS in
    if negb isQuote && negb isEscapeChar then
      str <- str_append str (nth_error c 0) ;;
      lexString_loop fuel' (skipn 1 c) (length + 1) str
    else if negb isEscapeChar then
      Ok (length, Draft.mkToken STRING str (TVString str))
    else
      str <- str_append str (nth_error c 1) ;;
      lexString_loop fuel' (skipn 2 c) (length + 2) str
  end.

Definition lexString (fuel : nat) (chars : list ascii) : Outcome (nat * Draft.Token) :=
  lexString_loop fuel chars 0 "".

Definition lexBoolean : list ascii -> Outcome Draft.Token := Draft.lexBoolean.

Fixpoint lex_loop (fuel : nat) (tokens : list Draft.Token) (chars : list ascii)
  : Outcome (list Draft.Token) :=
  match fuel with
  | O => OutOfFuel
  | S fuel' =>
    match chars with
    | [] => Ok tokens
    | ch :: rest =>
      if includes JSON_whitespace.values (Some ch) then
        lex_loop fuel' tokens rest
      else if includes JSON_syntax.values (Some ch) then
        lex_loop fuel'
          (tokens ++ [Draft.mkToken SYNTAX (str1 ch) (TVString (str1 ch))]) rest
      else if Ascii.eqb ch QUOTATION_MARK then
        '(length, stringToken) <- lexString fuel' rest ;;
        lex_loop fuel' (tokens ++ [stringToken]) (skipn (length + 1) rest)
      else if Ascii.eqb ch "t" || Ascii.eqb ch "f" then
        booleanToken <- lexBoolean chars ;;
        lex_loop fuel' (tokens ++ [booleanToken])
                 (skipn (String.length (Draft.text booleanToken)) chars)
      else Throw (LexerInvalidCharacter ch)
    end
  end.

Definition lex (fuel : nat) (blob : string) : Outcome (list Draft.Token) :=
  lex_loop fuel [] (list_ascii_of_string blob).

Definition parseTokens : nat -> list Draft.Token -> Outcome (list Draft.Token * Value) :=
  Draft.parseTokens.

Definition parse (fuel : nat) (input : string) : Outcome Value :=
  tokens <- lex fuel input ;;
  r <- parseTokens fuel tokens ;;
  Ok (snd r).

End Revision.

(* ------------------------------------------------------------------ *)
(** ** Vocabulary of the statements *)

(** Double quotes are written with [dq], the one-character string made of
    [QUOTATION_MARK]. *)
Definition dq : string := str1 QUOTATION_MARK.
Definition bs : string := str1 REVERSE_SOLIDUS.
Definition quoted (s : string) : string := (dq ++ s ++ dq)%string.

(** The tokens the lexer builds. *)
Definition tSyntax (ch : ascii) : Token := mkToken SYNTAX (TVString (str1 ch)).
Definition tString (s : string) : Token := mkToken STRING (TVString s).
Definition tBoolean (b : bool) : Token := mkToken BOOLEAN (TVBoolean b).

Definition is_whitespace (c : ascii) : bool := includes WHITESPACE_TOKENS.values (Some c).
Definition is_syntax (c : ascii) : bool := includes SYNTAX_TOKENS.values (Some c).

(** The characters on which an iteration of [lex] does not throw: white
    space, the six structural characters, the quotation mark, [t] and [f]. *)
Definition starts_token (c : ascii) : bool :=
  is_whitespace c || is_syntax c || Ascii.eqb c QUOTATION_MARK
  || Ascii.eqb c "t" || Ascii.eqb c "f".

(** The delimiters the design asks for after a boolean literal. *)
Definition is_boolean_delimiter (x : option ascii) : bool :=
  char_is x SYNTAX_TOKENS.VALUE_SEPARATOR || char_is x SYNTAX_TOKENS.END_OBJECT
  || char_is x SYNTAX_TOKENS.END_ARRAY || includes WHITESPACE_TOKENS.values x.

(** The value an iteration of [parseArray] keeps: an array, or anything
    but one of the six one-character strings. *)
Definition kept (v : Value) : bool := negb (negb (isArray v) && is_syntax_value v).

(** *** String literals *)

(** The body of a string literal as the design describes it: plain
    characters and backslash escapes, up to the closing quotation mark. *)
Inductive StrItem : Type :=
| Plain (c : ascii)
| Escape (c : ascii).

Definition item_ok (i : StrItem) : bool :=
  match i with
  | Plain c => negb (Ascii.eqb c QUOTATION_MARK) && negb (Ascii.eqb c REVERSE_SOLIDUS)
  | Escape _ => true
  end.

Definition item_chars (i : StrItem) : list ascii :=
  match i with
  | Plain c => [c]
  | Escape c => [REVERSE_SOLIDUS; c]
  end.

(** Dropping the backslash and keeping the next character as it is. *)
Definition item_decoded (i : StrItem) : ascii :=
  match i with
  | Plain c => c
  | Escape c => c
  end.

Definition literal_chars (items : list StrItem) : list ascii := flat_map item_chars items.

Definition literal_decoded (items : list StrItem) : string :=
  string_of_list_ascii (map item_decoded items).

(** [closes c]: the characters [c] that follow an opening quotation mark
    contain an unescaped closing quotation mark. *)
Fixpoint closes (c : list ascii) : bool :=
  match c with
  | [] => false
  | x :: c' =>
    if Ascii.eqb x QUOTATION_MARK then true
    else if Ascii.eqb x REVERSE_SOLIDUS then
      match c' with
      | [] => false
      | _ :: c'' => closes c''
      end
    else closes c'
  end.

(** Scanning a text for its quotation marks: outside a literal, inside one,
    or just after a backslash inside one. *)
Inductive ScanState : Type := Outside | Inside | Escaped.

Definition scan_step (st : ScanState) (ch : ascii) : ScanState :=
  match st with
  | Outside => if Ascii.eqb ch QUOTATION_MARK then Inside else Outside
  | Inside =>
    if Ascii.eqb ch QUOTATION_MARK then Outside
    else if Ascii.eqb ch REVERSE_SOLIDUS then Escaped else Inside
  | Escaped => Inside
  end.

Definition scan (st : ScanState) (chars : list ascii) : ScanState :=
  fold_left scan_step chars st.

(** Every opening quotation mark of the text is followed by a matching
    unescaped closing quotation mark. *)
Definition strings_closed (input : string) : bool :=
  match scan Outside (list_ascii_of_string input) with
  | Outside => true
  | _ => false
  end.

(** *** Value trees and the reference encoder *)

(** A value tree as the design describes it: an object is a list of
    members, whose keys may repeat. *)
Inductive Json : Type :=
| JString (s : string)
| JBoolean (b : bool)
| JArray (elems : list Json)
| JObject (members : list (string * Json)).

(** The object that successive assignments of the members build. *)
Definition build_object (members : list (string * Value)) : OutputObject Value :=
  fold_left (fun o m => obj_assign (fst m) (snd m) o) members empty_object.

(** The value a tree stands for; a repeated key keeps the value assigned
    last. *)
Fixpoint json_value (j : Json) : Value :=
  match j with
  | JString s => VString s
  | JBoolean b => VBoolean b
  | JArray elems => VArray (map json_value elems)
  | JObject members =>
    VObject (build_object (map (fun m => let '(k, v) := m in (k, json_value v)) members))
  end.

(** The reference encoder: the compact text of [JSON.stringify]. A
    quotation mark and a backslash are escaped with a backslash, a control
    character with its short escape or its four hexadecimal digits. *)
Definition hex_digit (n : nat) : ascii :=
  nth n (list_ascii_of_string "0123456789abcdef") "0"%char.

Definition escape_char (c : ascii) : list ascii :=
  let n := nat_of_ascii c in
  if Ascii.eqb c QUOTATION_MARK then [REVERSE_SOLIDUS; QUOTATION_MARK]
  else if Ascii.eqb c REVERSE_SOLIDUS then [REVERSE_SOLIDUS; REVERSE_SOLIDUS]
  else if Nat.eqb n 8 then [REVERSE_SOLIDUS; "b"%char]
  else if Nat.eqb n 9 then [REVERSE_SOLIDUS; "t"%char]
  else if Nat.eqb n 10 then [REVERSE_SOLIDUS; "n"%char]
  else if Nat.eqb n 12 then [REVERSE_SOLIDUS; "f"%char]
  else if Nat.eqb n 13 then [REVERSE_SOLIDUS; "r"%char]
  else if Nat.ltb n 32 then
    [REVERSE_SOLIDUS; "u"%char; "0"%char; "0"%char; hex_digit (n / 16); hex_digit (n mod 16)]
  else [c].

Definition encode_string (s : string) : list ascii :=
  QUOTATION_MARK :: flat_map escape_char (list_ascii_of_string s) ++ [QUOTATION_MARK].

(** The parts written one after the other with a comma between them. *)
Definition comma_separated (parts : list (list ascii)) : list ascii :=
  match parts with
  | [] => []
  | p :: ps => p ++ flat_map (fun p' => SYNTAX_TOKENS.VALUE_SEPARATOR :: p') ps
  end.

Fixpoint encode (j : Json) : list ascii :=
  match j with
  | JString s => encode_string s
  | JBoolean b => list_ascii_of_string (if b then "true" else "false")
  | JArray elems =>
    SYNTAX_TOKENS.BEGIN_ARRAY :: comma_separated (map encode elems)
      ++ [SYNTAX_TOKENS.END_ARRAY]
  | JObject members =>
    SYNTAX_TOKENS.BEGIN_OBJECT
      :: comma_separated
           (map (fun m => let '(k, v) := m in
                          encode_string k ++ SYNTAX_TOKENS.NAME_SEPARATOR :: encode v)
                members)
      ++ [SYNTAX_TOKENS.END_OBJECT]
  end.

Definition stringify (j : Json) : string := string_of_list_ascii (encode j).

(** The trees whose encoding the lexer reads back: no string, key or
    value, holds a control character. *)
Definition printable (s : string) : bool :=
  forallb (fun c => Nat.leb 32 (nat_of_ascii c)) (list_ascii_of_string s).

Fixpoint lexable (j : Json) : bool :=
  match j with
  | JString s => printable s
  | JBoolean _ => true
  | JArray elems => forallb lexable elems
  | JObject members =>
    forallb (fun m => let '(k, v) := m in printable k && lexable v) members
  end.

Definition is_boolean (j : Json) : bool :=
  match j with
  | JBoolean _ => true
  | _ => false
  end.

(** The literal of a string without control characters. *)
Definition string_items (s : string) : list StrItem :=
  map (fun c => if Ascii.eqb c QUOTATION_MARK || Ascii.eqb c REVERSE_SOLIDUS
                then Escape c else Plain c)
      (list_ascii_of_string s).

(** *** Renderings of a tree as tokens *)

(** A rendering of a tree as tokens: every element and member carries a
    mark telling whether a value-separator is written before it. *)
Inductive Doc : Type :=
| DString (s : string)
| DBoolean (b : bool)
| DArray (elems : list (bool * Doc))
| DObject (members : list (bool * (string * Doc))).

Definition sep_tokens (c : bool) : list Token :=
  if c then [tSyntax SYNTAX_TOKENS.VALUE_SEPARATOR] else [].

Fixpoint tokens_of (d : Doc) : list Token :=
  match d with
  | DString s => [tString s]
  | DBoolean b => [tBoolean b]
  | DArray elems =>
    tSyntax SYNTAX_TOKENS.BEGIN_ARRAY
      :: flat_map (fun p => let '(c, e) := p in sep_tokens c ++ tokens_of e) elems
      ++ [tSyntax SYNTAX_TOKENS.END_ARRAY]
  | DObject members =>
    tSyntax SYNTAX_TOKENS.BEGIN_OBJECT
      :: flat_map (fun p => let '(c, (k, v)) := p in
                            sep_tokens c ++ tString k
                              :: tSyntax SYNTAX_TOKENS.NAME_SEPARATOR :: tokens_of v)
                  members
      ++ [tSyntax SYNTAX_TOKENS.END_OBJECT]
  end.

(** The tokens of one element and of one member. *)
Definition elem_tokens (p : bool * Doc) : list Token :=
  let '(c, e) := p in sep_tokens c ++ tokens_of e.

Definition member_tokens (p : bool * (string * Doc)) : list Token :=
  let '(c, (k, v)) := p in
  sep_tokens c ++ tString k :: tSyntax SYNTAX_TOKENS.NAME_SEPARATOR :: tokens_of v.

(** The tree a rendering is a rendering of. *)
Fixpoint shape (d : Doc) : Json :=
  match d with
  | DString s => JString s
  | DBoolean b => JBoolean b
  | DArray elems => JArray (map (fun p => let '(_, e) := p in shape e) elems)
  | DObject members =>
    JObject (map (fun p => let '(_, (k, v)) := p in (k, shape v)) members)
  end.

(** The rendering with a value-separator between any two elements and any
    two members. *)
Definition mark_separators {A : Type} (l : list A) : list (bool * A) :=
  match l with
  | [] => []
  | x :: l' => (false, x) :: map (pair true) l'
  end.

Fixpoint separated (j : Json) : Doc :=
  match j with
  | JString s => DString s
  | JBoolean b => DBoolean b
  | JArray elems => DArray (mark_separators (map separated elems))
  | JObject members =>
    DObject (mark_separators (map (fun m => let '(k, v) := m in (k, separated v)) members))
  end.

(** The renderings on which the parser rebuilds the tree. The list of a
    container is not empty and its first entry carries no separator; a
    string is neither of the two opening brackets, and as an array element
    none of the six structural characters; a key after the first is not the
    closing brace, and not the comma when no separator is written before
    it. *)
Definition first_unseparated {A : Type} (l : list (bool * A)) : bool :=
  match l with
  | (false, _) :: _ => true
  | _ => false
  end.

Definition string_value_ok (s : string) : bool :=
  negb (String.eqb s (str1 SYNTAX_TOKENS.BEGIN_OBJECT))
  && negb (String.eqb s (str1 SYNTAX_TOKENS.BEGIN_ARRAY)).

Definition element_ok (d : Doc) : bool :=
  match d with
  | DString s => negb (is_syntax_value (VString s))
  | _ => true
  end.

Definition later_key_ok (c : bool) (k : string) : bool :=
  negb (String.eqb k (str1 SYNTAX_TOKENS.END_OBJECT))
  && (c || negb (String.eqb k (str1 SYNTAX_TOKENS.VALUE_SEPARATOR))).

Fixpoint parser_wf (d : Doc) : bool :=
  match d with
  | DString s => string_value_ok s
  | DBoolean _ => true
  | DArray elems =>
    first_unseparated elems
    && forallb (fun p => let '(_, e) := p in parser_wf e && element_ok e) elems
  | DObject members =>
    first_unseparated members
    && forallb (fun p => let '(_, (_, v)) := p in parser_wf v) members
    && forallb (fun p => let '(c, (k, _)) := p in later_key_ok c k) (tl members)
  end.

(** The trees that survive encoding and parsing: not a bare boolean,
    readable by the lexer, and rebuilt by the parser from the rendering with
    all separators. *)
Definition roundtrips (j : Json) : bool :=
  negb (is_boolean j) && lexable j && parser_wf (separated j).

(** *** Repeated keys *)

Definition not_proto (k : string) : bool := negb (String.eqb k "__proto__").

(** Orders of the keys of a member list. *)
Definition keys_by_first_occurrence (ks : list string) : list string :=
  fold_left (fun acc k => if existsb (String.eqb k) acc then acc else acc ++ [k]) ks [].

Fixpoint keys_by_last_occurrence (ks : list string) : list string :=
  match ks with
  | [] => []
  | k :: ks' =>
    if existsb (String.eqb k) ks' then keys_by_last_occurrence ks'
    else k :: keys_by_last_occurrence ks'
  end.

(** The value of the last member with key [k]. *)
Definition last_value (k : string) (members : list (string * Json)) : option Json :=
  props_get k (rev members).

(** [assigned members o]: the object [o] holds the members as successive
    assignments leave them: a key other than [__proto__] has the value of
    its last occurrence, the properties stand in the order in which their
    keys occur first, and this is the order in which the keys are
    enumerated when none of them is an array index. *)
Definition assigned (members : list (string * Json)) (o : OutputObject Value) : Prop :=
  (forall k, not_proto k = true ->
             own_get o k = option_map json_value (last_value k members)) /\
  map fst (props o) = keys_by_first_occurrence (filter not_proto (map fst members)) /\
  (forallb (fun k => negb (is_index_key k)) (map fst members) = true ->
   own_keys o = keys_by_first_occurrence (filter not_proto (map fst members))).

(** *** Equality of a tree and a parsed value *)

Inductive opt_rel {A B : Type} (R : A -> B -> Prop) : option A -> option B -> Prop :=
| opt_rel_None : opt_rel R None None
| opt_rel_Some (a : A) (b : B) : R a b -> opt_rel R (Some a) (Some b).

(** Equality as the design words it: the elements of an array agree in
    their order; an object agrees with a member list when, for every key,
    it holds what the last member with that key holds, whatever the order of
    the keys. *)
Inductive tree_equal : Json -> Value -> Prop :=
| tree_equal_string (s : string) : tree_equal (JString s) (VString s)
| tree_equal_boolean (b : bool) : tree_equal (JBoolean b) (VBoolean b)
| tree_equal_array (elems : list Json) (vs : list Value) :
    Forall2 tree_equal elems vs -> tree_equal (JArray elems) (VArray vs)
| tree_equal_object (members : list (string * Json)) (o : OutputObject Value) :
    (forall k, opt_rel tree_equal (last_value k members) (own_get o k)) ->
    tree_equal (JObject members) (VObject o).

Fixpoint no_proto_keys (j : Json) : bool :=
  match j with
  | JString _ | JBoolean _ => true
  | JArray elems => forallb no_proto_keys elems
  | JObject members =>
    forallb (fun m => let '(k, v) := m in not_proto k && no_proto_keys v) members
  end.

(** *** Statements carried through the inductions *)

(** One of the three structural characters that may follow a value. *)
Definition delimited (rest : list ascii) : bool :=
  char_is (nth_error rest 0) SYNTAX_TOKENS.VALUE_SEPARATOR
  || char_is (nth_error rest 0) SYNTAX_TOKENS.END_OBJECT
  || char_is (nth_error rest 0) SYNTAX_TOKENS.END_ARRAY.

(** [lexes_to cs toks b]: wherever the characters [cs] stand in the input,
    followed by a delimiter when [b] is set, [lex] turns them into the
    tokens [toks] and goes on with what follows. *)
Definition lexes_to (cs : list ascii) (toks : list Token) (b : bool) : Prop :=
  forall tokens rest r,
    (b = true -> delimited rest = true) ->
    (exists fuel, lex_loop fuel (tokens ++ toks) rest = r) ->
    final r ->
    exists fuel, lex_loop fuel tokens (cs ++ rest) = r.

(** Token lists written one after the other with a value-separator token
    between them. *)
Definition comma_separated_tokens (parts : list (list Token)) : list Token :=
  match parts with
  | [] => []
  | p :: ps => p ++ flat_map (fun p' => tSyntax SYNTAX_TOKENS.VALUE_SEPARATOR :: p') ps
  end.

(** [rebuilt d]: on the rendering [d], when it is well formed and whatever
    tokens follow it, [parseTokens] returns the value of its tree. *)
Definition rebuilt (d : Doc) : Prop :=
  parser_wf d = true ->
  forall rest, exists fuel,
    parseTokens fuel (tokens_of d ++ rest) = Ok (rest, json_value (shape d)).

(** *** Sample inputs, trees and renderings *)

Definition input_member : string := ("{" ++ quoted "a" ++ ":" ++ quoted "b" ++ "}")%string.
Definition input_trailing_comma : string :=
  ("{" ++ quoted "a" ++ ":" ++ quoted "b" ++ ",}")%string.
Definition input_array_trailing_comma : string := ("[" ++ quoted "a" ++ ",]")%string.
Definition input_unclosed_object : string := ("{" ++ quoted "a" ++ ":" ++ quoted "b")%string.
Definition input_unclosed_array : string := ("[" ++ quoted "a")%string.
Definition input_null_member : string := ("{" ++ quoted "a" ++ ":null}")%string.
Definition input_escaped_quote : string := ("[" ++ quoted ("x" ++ bs ++ dq ++ "y") ++ "]")%string.

Definition input_unclosed_string : string := ("[" ++ dq ++ "x")%string.
Definition input_lone_backslash : string := (dq ++ "a" ++ bs)%string.
Definition input_newline_escape : string := ("[" ++ quoted (bs ++ "n") ++ "]")%string.
Definition input_unicode_escape : string := ("[" ++ quoted (bs ++ "u0041") ++ "]")%string.

Definition tree_escaped_newline : Json := JArray [JString (str1 WHITESPACE_TOKENS.NEWLINE)].
Definition tree_repeated_key : Json :=
  JObject [("a", JString "x"); ("b", JString "y"); ("a", JString "z")]%string.
Definition tree_proto_key : Json :=
  JObject [("__proto__", JString "x"); ("a", JString "y")]%string.
Definition tree_nested : Json :=
  JObject [("a", JArray [JBoolean true; JString "x"]); ("b", JString "y");
           ("a", JObject [("c", JBoolean false)])]%string.

Definition input_array_spaces : string := ("[" ++ quoted "a" ++ " " ++ quoted "b" ++ "]")%string.
Definition input_array_commas : string := ("[" ++ quoted "a" ++ "," ++ quoted "b" ++ "]")%string.
Definition input_object_spaces : string :=
  ("{" ++ quoted "a" ++ ":" ++ quoted "x" ++ " " ++ quoted "b" ++ ":" ++ quoted "y" ++ "}")%string.
Definition input_object_commas : string :=
  ("{" ++ quoted "a" ++ ":" ++ quoted "x" ++ "," ++ quoted "b" ++ ":" ++ quoted "y" ++ "}")%string.
Definition input_comma_key_spaces : string :=
  ("{" ++ quoted "a" ++ ":" ++ quoted "b" ++ " " ++ quoted "," ++ ":" ++ quoted "c" ++ "}")%string.
Definition input_comma_key_commas : string :=
  ("{" ++ quoted "a" ++ ":" ++ quoted "b" ++ "," ++ quoted "," ++ ":" ++ quoted "c" ++ "}")%string.

(** The three members a, b, a written without separators. *)
Definition doc_repeated_key : Doc :=
  DObject [(false, ("a", DString "x")); (false, ("b", DString "y"));
           (false, ("a", DString "z"))]%string.
Definition input_repeated_key_spaces : string :=
  ("{" ++ quoted "a" ++ ":" ++ quoted "x" ++ " " ++ quoted "b" ++ ":" ++ quoted "y"
       ++ " " ++ quoted "a" ++ ":" ++ quoted "z" ++ "}")%string.

(** A text with some separators written and some left out, the same text
    with all of them, and the rendering of the first. *)
Definition input_mixed : string :=
  ("[" ++ quoted "a" ++ " {" ++ quoted "k" ++ ":true  " ++ quoted "l" ++ ":" ++ quoted "}"
       ++ "},false ]")%string.
Definition input_mixed_commas : string :=
  ("[" ++ quoted "a" ++ ",{" ++ quoted "k" ++ ":true," ++ quoted "l" ++ ":" ++ quoted "}"
       ++ "},false]")%string.

Definition doc_mixed : Doc :=
  DArray [(false, DString "a");
          (false, DObject [(false, ("k", DBoolean true)); (false, ("l", DString "}"))]);
          (true, DBoolean false)]%string.

(** *** What the lexer and the parser can build *)

(** The tokens [lex] pushes: a structural character tagged [SYNTAX], a
    string tagged [STRING], a boolean tagged [BOOLEAN]. *)
Definition lexer_token (tok : Token) : bool :=
  match type tok, value tok with
  | SYNTAX, TVString s => existsb (fun ch => String.eqb s (str1 ch)) SYNTAX_TOKENS.values
  | STRING, TVString _ => true
  | BOOLEAN, TVBoolean _ => true
  | _, _ => false
  end.

(** A text made of white space and structural characters only. *)
Definition structural_text (chars : list ascii) : bool :=
  forallb (fun c => is_whitespace c || is_syntax c) chars.

(** Every element of every array of the value, at any depth, is one that
    an iteration of [parseArray] keeps. *)
Fixpoint elements_kept (v : Value) : bool :=
  match v with
  | VString _ | VBoolean _ => true
  | VArray elems => forallb (fun e => kept e && elements_kept e) elems
  | VObject (mkObject p ps) =>
    match p with
    | Some p' => elements_kept p'
    | None => true
    end
    && forallb (fun m => elements_kept (snd m)) ps
  end.

(** [rest] is what is left of [tokens] after some of them, at least one,
    were taken from the front. *)
Definition consumed_to (tokens rest : list Token) : Prop :=
  exists taken, taken <> [] /\ tokens = taken ++ rest.

(** Two tokens the parser cannot tell apart: they have the same value,
    and both or neither of them is tagged [STRING]. *)
Definition same_reading (a b : Token) : Prop :=
  value a = value b /\
  TokenType_eqb (type a) STRING = TokenType_eqb (type b) STRING.

(** Two token lists the parser cannot tell apart when it reads a value
    from them: the first tokens have the same value, whatever their tags,
    and the tokens after them are pairwise as above. *)
Definition same_reading_value_at_head (t1 t2 : list Token) : Prop :=
  match t1, t2 with
  | [], [] => True
  | a :: l, b :: l' => value a = value b /\ Forall2 same_reading l l'
  | _, _ => False
  end.

(** Two outcomes that agree up to such tokens. *)
Definition same_outcome {A : Type} (r1 r2 : Outcome (list Token * A)) : Prop :=
  match r1, r2 with
  | Ok (t1, a1), Ok (t2, a2) => Forall2 same_reading t1 t2 /\ a1 = a2
  | Throw e1, Throw e2 => e1 = e2
  | OutOfFuel, OutOfFuel => True
  | _, _ => False
  end.

(** *** Positions in a container *)

(** The members are well formed and a member with key [k], written after a
    value-separator when [c] is set, may follow them. *)
Definition member_may_follow (members : list (bool * (string * Doc))) (c : bool)
           (k : string) : bool :=
  parser_wf (DObject (members ++ [(c, (k, DBoolean true))])).

(** The tokens of an object and of an array up to a given point, without
    the closing bracket. *)
Definition open_object (members : list (bool * (string * Doc))) : list Token :=
  tSyntax SYNTAX_TOKENS.BEGIN_OBJECT :: flat_map member_tokens members.

Definition open_array (elems : list (bool * Doc)) : list Token :=
  tSyntax SYNTAX_TOKENS.BEGIN_ARRAY :: flat_map elem_tokens elems.

(** *** The three versions compared *)

(** The token of the module a token of the draft stands for. *)
Definition without_text (tok : Draft.Token) : Token :=
  mkToken (Draft.type tok) (Draft.value tok).

(** The token of the draft whose text is the text of its value. *)
Definition with_text (tok : Token) : Draft.Token :=
  Draft.mkToken (type tok) (toString (value tok)) (value tok).

Definition no_backslash (chars : list ascii) : bool :=
  forallb (fun c => negb (Ascii.eqb c REVERSE_SOLIDUS)) chars.

Definition no_quote (chars : list ascii) : bool :=
  forallb (fun c => negb (Ascii.eqb c QUOTATION_MARK)) chars.

(** A token of the draft whose text is the text of its value, as the
    tokens of its lexer are. *)
Definition text_of_value (tok : Draft.Token) : Prop :=
  Draft.text tok = toString (Draft.value tok).

(* ================================================================== *)
(** * Properties *)

(* ------------------------------------------------------------------ *)
(** ** A larger budget never changes a completed run *)

Section Approximation.
Context {A B : Type}.

Lemma approx_refl (r : Outcome A) : approx r r.
Proof. now right. Qed.

Lemma approx_bot (r : Outcome A) : approx OutOfFuel r.
Proof. now left. Qed.

Lemma approx_bind (m m' : Outcome A) (k k' : A -> Outcome B) :
  approx m m' -> (forall a, approx (k a) (k' a)) -> approx (bind m k) (bind m' k').
Proof.
  intros [-> | ->] Hk; [now left|].
  destruct m'; simpl; [apply Hk | now right | now right].
Qed.

Lemma approx_final (r r' : Outcome A) : approx r r' -> final r -> r' = r.
Proof. intros [-> | ->] Hf; [now elim Hf | reflexivity]. Qed.
End Approximation.

Ltac approx_step IH :=
  first
    [ apply approx_refl
    | apply approx_bot
    | apply IH; lia
    | apply approx_bind; [| intros ?]
    | match goal with
      | |- approx (if ?b then _ else _) (if ?b then _ else _) => destruct b
      | |- approx (let '(_, _) := ?p in _) _ => destruct p
      end ].

Lemma lexString_loop_approx (fuel fuel' : nat) (c : list ascii) (n : nat) (str : string) :
  fuel <= fuel' ->
  approx (lexString_loop fuel c n str) (lexString_loop fuel' c n str).
Proof.
  revert fuel' c n str.
  induction fuel as [|fuel IH]; intros fuel' c n str Hle; [apply approx_bot|].
  destruct fuel' as [|fuel']; [lia|]. simpl.
  repeat approx_step IH.
Qed.

Lemma lex_loop_approx (fuel fuel' : nat) (tokens : list Token) (chars : list ascii) :
  fuel <= fuel' ->
  approx (lex_loop fuel tokens chars) (lex_loop fuel' tokens chars).
Proof.
  revert fuel' tokens chars.
  induction fuel as [|fuel IH]; intros fuel' tokens chars Hle; [apply approx_bot|].
  destruct fuel' as [|fuel']; [lia|]. simpl.
  destruct chars as [|ch rest]; [apply approx_refl|].
  repeat first [ apply lexString_loop_approx; lia | approx_step IH ].
Qed.

Lemma parser_approx (fuel : nat) :
  (forall fuel' tokens, fuel <= fuel' ->
     approx (parseTokens fuel tokens) (parseTokens fuel' tokens)) /\
  (forall fuel' output t, fuel <= fuel' ->
     approx (parseObject_loop fuel output t) (parseObject_loop fuel' output t)) /\
  (forall fuel' output t, fuel <= fuel' ->
     approx (parseArray_loop fuel output t) (parseArray_loop fuel' output t)).
Proof.
  induction fuel as [|fuel (IHt & IHo & IHa)];
    [repeat split; intros; apply approx_bot|].
  repeat split; intros fuel'; (destruct fuel' as [|fuel']; intros; [lia|]); simpl.
  - repeat first [ approx_step IHo | approx_step IHa ].
  - repeat first [ approx_step IHo | approx_step IHt ].
  - repeat first [ approx_step IHa | approx_step IHt ].
Qed.

Lemma parseTokens_approx (fuel fuel' : nat) (tokens : list Token) :
  fuel <= fuel' -> approx (parseTokens fuel tokens) (parseTokens fuel' tokens).
Proof. apply parser_approx. Qed.

Lemma parse_approx (fuel fuel' : nat) (input : string) :
  fuel <= fuel' -> approx (parse fuel input) (parse fuel' input).
Proof.
  intros Hle. unfold parse, lex.
  apply approx_bind; [now apply lex_loop_approx|]. intros tokens.
  apply approx_bind; [now apply parseTokens_approx|]. intros r. apply approx_refl.
Qed.

(** A completed run is the same under every larger budget. *)
Lemma parse_mono (fuel fuel' : nat) (input : string) (r : Outcome Value) :
  parse fuel input = r -> final r -> fuel <= fuel' -> parse fuel' input = r.
Proof.
  intros <- Hf Hle. now apply approx_final; [apply parse_approx|].
Qed.

(** Two completed runs on one input agree. *)
Lemma parse_deterministic (f1 f2 : nat) (input : string) :
  final (parse f1 input) -> final (parse f2 input) -> parse f1 input = parse f2 input.
Proof.
  intros H1 H2. destruct (Nat.le_ge_cases f1 f2) as [Hle | Hle].
  - symmetry. now apply (parse_mono (fuel := f1)).
  - now apply (parse_mono (fuel := f2)).
Qed.

Lemma throws_not_returns (input : string) (e : Error) :
  throws input e -> forall v, ~ returns input v.
Proof.
  intros [f1 H1] v [f2 H2].
  assert (H : parse f1 input = parse f2 input)
    by (apply parse_deterministic; [rewrite H1 | rewrite H2]; discriminate).
  congruence.
Qed.

Lemma throws_unique (input : string) (e e' : Error) :
  throws input e -> throws input e' -> e = e'.
Proof.
  intros [f1 H1] [f2 H2].
  assert (H : parse f1 input = parse f2 input)
    by (apply parse_deterministic; [rewrite H1 | rewrite H2]; discriminate).
  congruence.
Qed.

(* ------------------------------------------------------------------ *)
(** ** Empty containers *)

(** Wherever an object or an array is empty, the call that parses it
    throws. *)
Lemma parseObject_empty (fuel : nat) (rest : list Token) :
  parseObject (S fuel) (tSyntax SYNTAX_TOKENS.END_OBJECT :: rest)
  = Throw ParserObjectMissingEnd.
Proof. reflexivity. Qed.

Lemma parseArray_empty (fuel : nat) (rest : list Token) :
  parseArray (S (S fuel)) (tSyntax SYNTAX_TOKENS.END_ARRAY :: rest)
  = Throw ParserArrayMissingEnd.
Proof. reflexivity. Qed.

(** C1. On the text of an empty object the loop of [parseObject] leaves at
    once, because the first token is not a string, and falls on the throw
    after the loop; on the text of an empty array [parseArray] takes the
    closing bracket for a value, leaves its loop and throws as well. Neither
    call returns a value. *)
Theorem empty_containers_rejected :
  throws "{}" ParserObjectMissingEnd /\
  throws "[]" ParserArrayMissingEnd /\
  (forall fuel v, parse fuel "{}" <> Ok v) /\
  (forall fuel v, parse fuel "[]" <> Ok v).
Proof.
  assert (H1 : throws "{}" ParserObjectMissingEnd) by (exists 5; reflexivity).
  assert (H2 : throws "[]" ParserArrayMissingEnd) by (exists 5; reflexivity).
  repeat split; trivial; intros fuel v H.
  - apply (throws_not_returns H1 (v := v)). now exists fuel.
  - apply (throws_not_returns H2 (v := v)). now exists fuel.
Qed.

(* ------------------------------------------------------------------ *)
(** ** Boolean literals *)

Lemma lexBoolean_true_spec (rest : list ascii) :
  lexBoolean (list_ascii_of_string "true" ++ rest) = Ok (tBoolean true) <->
  (char_is (nth_error rest 0) SYNTAX_TOKENS.VALUE_SEPARATOR
   || char_is (nth_error rest 0) SYNTAX_TOKENS.END_OBJECT
   || char_is (nth_error rest 0) SYNTAX_TOKENS.END_ARRAY
   || includes WHITESPACE_TOKENS.values (nth_error rest 1)) = true.
Proof.
  unfold lexBoolean, tBoolean.
  cbn [list_ascii_of_string app firstn string_of_list_ascii nth_error].
  rewrite String.eqb_refl. cbn [andb].
  destruct (_ || _); cbn; split; congruence.
Qed.

(** The [false] branch implements the delimiter test of the design. *)
Lemma lexBoolean_false_spec (rest : list ascii) :
  lexBoolean (list_ascii_of_string "false" ++ rest) = Ok (tBoolean false) <->
  is_boolean_delimiter (nth_error rest 0) = true.
Proof.
  unfold lexBoolean, is_boolean_delimiter, tBoolean.
  cbn [list_ascii_of_string app firstn string_of_list_ascii nth_error].
  replace (String.eqb "fals" "true") with false by reflexivity.
  rewrite String.eqb_refl. cbn [andb].
  destruct (_ || _); cbn; split; congruence.
Qed.

(** C2. The [true] branch of [lexBoolean] tests the white space one
    position too far ([chars[5]] where [chars[4]] follows the literal):
    [true] followed by one blank and a bracket is rejected, [true] followed
    by a colon and a blank is accepted, while [false] followed by one blank
    is accepted as the design asks. *)
Theorem lexBoolean_true_delimiter_slip :
  throws "[true ]" LexerUnknownBoolean /\
  (exists fuel, lex fuel "[true: ]" =
     Ok [tSyntax "["; tBoolean true; tSyntax ":"; tSyntax "]"]) /\
  returns "[false ]" (VArray [VBoolean false]) /\
  is_boolean_delimiter (Some " "%char) = true /\
  is_boolean_delimiter (Some ":"%char) = false.
Proof.
  repeat split; try reflexivity; exists 10; reflexivity.
Qed.

(* ------------------------------------------------------------------ *)
(** ** Trailing commas *)

(** C4. In the loop of [parseObject], when the tokens left after a member's
    value are a value-separator followed by the end of the object, the
    iteration throws the trailing-comma error instead of returning; the same
    holds in the loop of [parseArray] for an element followed by a
    value-separator and the end of the array. The sample object with a
    trailing comma fails with that error, which is a ParseError. *)
Theorem trailing_comma_rejected :
  (forall fuel output key t after rest v,
     parseTokens fuel t = Ok (tSyntax "," :: after :: rest, v) ->
     value_is (value after) SYNTAX_TOKENS.END_OBJECT = true ->
     parseObject_loop (S fuel) output (tString key :: tSyntax ":" :: t)
     = Throw ParserObjectTrailingComma) /\
  (forall fuel output t after rest v,
     parseTokens fuel t = Ok (tSyntax "," :: after :: rest, v) ->
     is_syntax_value v = false ->
     value_is (value after) SYNTAX_TOKENS.END_ARRAY = true ->
     parseArray_loop (S fuel) output t = Throw ParserArrayTrailingComma) /\
  throws input_trailing_comma ParserObjectTrailingComma /\
  throws input_array_trailing_comma ParserArrayTrailingComma /\
  error_kind ParserObjectTrailingComma = ParseError /\
  error_kind ParserArrayTrailingComma = ParseError.
Proof.
  repeat split.
  - intros fuel output key t after rest v Hv Hend. cbn in Hend |- *.
    rewrite Hv. cbn. now rewrite Hend.
  - intros fuel output t after rest v Hv Hsyn Hend. cbn in Hend |- *.
    rewrite Hv. cbn [bind]. rewrite Hsyn, andb_false_r. cbn. now rewrite Hend.
  - exists 10. reflexivity.
  - exists 10. reflexivity.
Qed.

Lemma trailing_comma_rejected_witness :
  parseObject_loop 2 empty_object
    [tString "a"; tSyntax ":"; tString "b"; tSyntax ","; tSyntax "}"]
  = Throw ParserObjectTrailingComma /\
  parseArray_loop 2 [] [tString "a"; tSyntax ","; tSyntax "]"]
  = Throw ParserArrayTrailingComma.
Proof.
  destruct trailing_comma_rejected as (Hobj & Harr & _).
  split.
  - apply (Hobj 1 empty_object "a"%string [tString "b"; tSyntax ","; tSyntax "}"]
             (tSyntax "}") [] (VString "b")); reflexivity.
  - apply (Harr 1 [] [tString "a"; tSyntax ","; tSyntax "]"]
             (tSyntax "]") [] (VString "a")); reflexivity.
Defined.

(* ------------------------------------------------------------------ *)
(** ** Objects left open *)

(** At the end of the input the loop of [parseObject] reads a property of
    [undefined], before a key as well as after a member. *)
Lemma parseObject_loop_no_tokens (fuel : nat) (output : OutputObject Value) :
  parseObject_loop (S fuel) output [] = Throw TypeError.
Proof. reflexivity. Qed.

Lemma parseObject_loop_end_of_input (fuel : nat) (output : OutputObject Value) (k : string)
      (t : list Token) (v : Value) :
  parseTokens fuel t = Ok ([], v) ->
  parseObject_loop (S fuel) output (tString k :: tSyntax SYNTAX_TOKENS.NAME_SEPARATOR :: t)
  = Throw TypeError.
Proof.
  intros Hv. cbn [parseObject_loop tok_type tok_value nth_error tString tSyntax type value
                    TokenType_eqb negb bind skipn].
  replace (value_is (TVString (str1 SYNTAX_TOKENS.NAME_SEPARATOR)) SYNTAX_TOKENS.NAME_SEPARATOR)
    with true by reflexivity.
  cbn [negb]. now rewrite Hv.
Qed.

(** C5. When the input ends after a member's value, [parseObject] reads
    [t[0].value] on the empty remainder: the call ends with the run time's
    TypeError, never with the missing-end-object error of the parser. The
    loop of [parseArray] tests [t.length] at that point and does throw its
    missing-end error. *)
Theorem unclosed_object_type_error :
  throws input_unclosed_object TypeError /\
  error_kind TypeError <> ParseError /\
  (forall fuel, parse fuel input_unclosed_object <> Throw ParserObjectMissingEnd) /\
  throws input_unclosed_array ParserArrayMissingEnd.
Proof.
  assert (H : throws input_unclosed_object TypeError) by (exists 10; reflexivity).
  repeat split; trivial.
  - discriminate.
  - intros fuel Hf.
    assert (Habs : TypeError = ParserObjectMissingEnd)
      by (apply (throws_unique H); now exists fuel).
    discriminate.
  - exists 10. reflexivity.
Qed.

(* ------------------------------------------------------------------ *)
(** ** Characters that start no token *)

Lemma starts_token_false (c : ascii) :
  starts_token c = false ->
  includes WHITESPACE_TOKENS.values (Some c) = false /\
  includes SYNTAX_TOKENS.values (Some c) = false /\
  Ascii.eqb c QUOTATION_MARK = false /\
  (Ascii.eqb c "t" || Ascii.eqb c "f") = false.
Proof.
  unfold starts_token, is_whitespace, is_syntax. intros H.
  apply orb_false_iff in H as [H Hf]. apply orb_false_iff in H as [H Ht].
  apply orb_false_iff in H as [H Hq]. apply orb_false_iff in H as [Hw Hs].
  rewrite Ht, Hf. now repeat split.
Qed.

Lemma lex_loop_skips_whitespace (ws : list ascii) :
  forallb is_whitespace ws = true ->
  forall fuel tokens chars,
    lex_loop (List.length ws + fuel) tokens (ws ++ chars) = lex_loop fuel tokens chars.
Proof.
  induction ws as [|w ws IH]; intros Hws fuel tokens chars; [reflexivity|].
  change (forallb is_whitespace (w :: ws))
    with (is_whitespace w && forallb is_whitespace ws) in Hws.
  apply andb_true_iff in Hws as [Hw Hws].
  cbn [List.length Nat.add app lex_loop]. unfold is_whitespace in Hw.
  rewrite Hw. now apply IH.
Qed.

(** C6. Whatever tokens were built so far, when the next character after
    the white space is none of the characters that start a token, in
    particular a digit, a minus sign or the letter [n], the loop of [lex]
    throws the invalid-character error and returns no tokens; [parse] fails
    in this way on an array holding a number and on a member holding
    [null]. *)
Theorem lex_rejects_unrecognized :
  (forall fuel tokens ws c rest,
     forallb is_whitespace ws = true ->
     starts_token c = false ->
     List.length ws < fuel ->
     lex_loop fuel tokens (ws ++ c :: rest) = Throw (LexerInvalidCharacter c)) /\
  (forall c, is_digit c = true \/ c = "-"%char \/ c = "n"%char -> starts_token c = false) /\
  throws "[1]" (LexerInvalidCharacter "1") /\
  throws input_null_member (LexerInvalidCharacter "n") /\
  (forall c, error_kind (LexerInvalidCharacter c) = LexError).
Proof.
  repeat split.
  - intros fuel tokens ws c rest Hws Hc Hfuel.
    replace fuel with (List.length ws + S (fuel - List.length ws - 1)) by lia.
    rewrite lex_loop_skips_whitespace by assumption.
    apply starts_token_false in Hc as (H1 & H2 & H3 & H4).
    cbn [lex_loop]. now rewrite H1, H2, H3, H4.
  - intros c [Hd | [-> | ->]]; [|reflexivity|reflexivity].
    unfold is_digit in Hd. apply andb_true_iff in Hd as [Hlo Hhi].
    apply Nat.leb_le in Hlo, Hhi.
    rewrite <- (ascii_nat_embedding c).
    remember (nat_of_ascii c) as n eqn:En. clear En c.
    do 48 (destruct n as [|n]; [lia|]).
    do 10 (destruct n as [|n]; [reflexivity|]). lia.
  - exists 10. reflexivity.
  - exists 10. reflexivity.
Qed.

Lemma lex_rejects_unrecognized_witness :
  lex_loop 3 [tSyntax "["] (list_ascii_of_string "  -1]") = Throw (LexerInvalidCharacter "-")
  /\ starts_token "7" = false.
Proof.
  destruct lex_rejects_unrecognized as (Hlex & Hcls & _).
  split.
  - apply (Hlex 3 [tSyntax "["] (list_ascii_of_string "  ") "-"%char
             (list_ascii_of_string "1]")); [reflexivity | reflexivity | cbn; lia].
  - apply (Hcls "7"%char). left. reflexivity.
Defined.

(* ------------------------------------------------------------------ *)
(** ** String literals *)

Lemma string_app_assoc (a b c : string) : ((a ++ b) ++ c = a ++ (b ++ c))%string.
Proof. induction a as [|x a IH]; cbn; [reflexivity | now rewrite IH]. Qed.

Lemma string_app_nil_r (a : string) : (a ++ "" = a)%string.
Proof. induction a as [|x a IH]; cbn; [reflexivity | now rewrite IH]. Qed.

Lemma string_length_app (a b : string) :
  String.length (a ++ b) = String.length a + String.length b.
Proof. induction a as [|x a IH]; cbn; [reflexivity | now rewrite IH]. Qed.

Lemma list_ascii_of_string_app (a b : string) :
  list_ascii_of_string (a ++ b) = list_ascii_of_string a ++ list_ascii_of_string b.
Proof. induction a as [|x a IH]; cbn; [reflexivity | now rewrite IH]. Qed.

Lemma lexString_loop_literal (items : list StrItem) :
  forallb item_ok items = true ->
  forall fuel rest n str,
    List.length items < fuel ->
    lexString_loop fuel (literal_chars items ++ QUOTATION_MARK :: rest) n str
    = Ok (n + List.length (literal_chars items),
          tString (str ++ literal_decoded items)).
Proof.
  induction items as [|i items IH]; intros Hok fuel rest n str Hfuel;
    (destruct fuel as [|fuel]; [cbn in Hfuel; lia|]).
  - cbn. unfold tString. now rewrite Nat.add_0_r, string_app_nil_r.
  - change (forallb item_ok (i :: items)) with (item_ok i && forallb item_ok items) in Hok.
    apply andb_true_iff in Hok as [Hi Hok]. cbn in Hfuel.
    destruct i as [c | c].
    + unfold item_ok in Hi. apply andb_true_iff in Hi as [Hq Hb].
      apply negb_true_iff in Hq, Hb.
      cbn [literal_chars flat_map item_chars app lexString_loop nth_error char_is skipn].
      rewrite Hq, Hb. cbn [andb negb str_append bind].
      fold (literal_chars items). rewrite IH by (trivial; lia).
      unfold literal_decoded. cbn [map string_of_list_ascii List.length char_str str1].
      rewrite string_app_assoc. cbn [append]. f_equal. f_equal. lia.
    + cbn [literal_chars flat_map item_chars app lexString_loop nth_error char_is skipn].
      replace (Ascii.eqb REVERSE_SOLIDUS QUOTATION_MARK) with false by reflexivity.
      rewrite Ascii.eqb_refl. cbn [andb negb str_append bind].
      fold (literal_chars items). rewrite IH by (trivial; lia).
      unfold literal_decoded. cbn [map string_of_list_ascii List.length char_str str1].
      rewrite string_app_assoc. cbn [append]. f_equal. f_equal. lia.
Qed.

Lemma skipn_app_length (A : Type) (l l' : list A) (n : nat) :
  n = List.length l -> skipn n (l ++ l') = l'.
Proof.
  intros ->. rewrite skipn_app, skipn_all, Nat.sub_diag. reflexivity.
Qed.

Lemma lex_loop_literal (items : list StrItem) :
  forallb item_ok items = true ->
  forall fuel tokens rest,
    List.length items < fuel ->
    lex_loop (S fuel) tokens
      (QUOTATION_MARK :: literal_chars items ++ QUOTATION_MARK :: rest)
    = lex_loop fuel (tokens ++ [tString (literal_decoded items)]) rest.
Proof.
  intros Hok fuel tokens rest Hfuel.
  cbn [lex_loop].
  replace (includes WHITESPACE_TOKENS.values (Some QUOTATION_MARK)) with false by reflexivity.
  replace (includes SYNTAX_TOKENS.values (Some QUOTATION_MARK)) with false by reflexivity.
  rewrite Ascii.eqb_refl. unfold lexString.
  rewrite lexString_loop_literal by assumption. cbn [bind Nat.add append].
  change (literal_chars items ++ QUOTATION_MARK :: rest)
    with (literal_chars items ++ [QUOTATION_MARK] ++ rest).
  rewrite app_assoc, skipn_app_length; [reflexivity|].
  rewrite length_app. cbn. lia.
Qed.

(** A literal that is closed is a sequence of plain characters and escapes
    followed by the closing quotation mark. *)
Lemma closes_literal (n : nat) :
  forall c, List.length c <= n -> closes c = true ->
  exists items rest,
    forallb item_ok items = true /\ c = literal_chars items ++ QUOTATION_MARK :: rest.
Proof.
  induction n as [|n IH]; intros c Hlen Hc.
  - destruct c; [discriminate | cbn in Hlen; lia].
  - destruct c as [|x c]; [discriminate|].
    cbn [closes] in Hc. cbn in Hlen.
    destruct (Ascii.eqb x QUOTATION_MARK) eqn:Hq.
    + apply Ascii.eqb_eq in Hq as ->. now exists [], c.
    + destruct (Ascii.eqb x REVERSE_SOLIDUS) eqn:Hb.
      * apply Ascii.eqb_eq in Hb as ->.
        destruct c as [|y c]; [discriminate|]. cbn in Hlen.
        destruct (IH c ltac:(lia) Hc) as (items & rest & Hok & ->).
        now exists (Escape y :: items), rest.
      * destruct (IH c ltac:(lia) Hc) as (items & rest & Hok & ->).
        exists (Plain x :: items), rest. split; [|reflexivity].
        cbn [forallb item_ok]. now rewrite Hq, Hb.
Qed.

Lemma literal_closes (items : list StrItem) (rest : list ascii) :
  forallb item_ok items = true ->
  closes (literal_chars items ++ QUOTATION_MARK :: rest) = true.
Proof.
  induction items as [|i items IH]; intros Hok.
  - cbn [literal_chars flat_map app closes]. now rewrite Ascii.eqb_refl.
  - change (forallb item_ok (i :: items)) with (item_ok i && forallb item_ok items) in Hok.
    apply andb_true_iff in Hok as [Hi Hok]. destruct i as [c | c].
    + unfold item_ok in Hi. apply andb_true_iff in Hi as [Hq Hb].
      apply negb_true_iff in Hq, Hb.
      cbn [literal_chars flat_map item_chars app closes]. rewrite Hq, Hb. now apply IH.
    + cbn [literal_chars flat_map item_chars app closes].
      replace (Ascii.eqb REVERSE_SOLIDUS QUOTATION_MARK) with false by reflexivity.
      rewrite Ascii.eqb_refl. now apply IH.
Qed.

(** C7. In a string literal a backslash is dropped and the character after
    it is kept as it is, whatever that character is; the literal ends at
    the first unescaped quotation mark, which [lex] removes from the input
    without putting it into the token. Every closed literal is of this
    shape. The sample text with an escaped quotation mark parses to an array
    holding the three characters x, quotation mark, y; the escapes of a line
    feed and of a code point are not interpreted. *)
Theorem lexString_unescape :
  (forall items rest fuel,
     forallb item_ok items = true ->
     List.length items < fuel ->
     lexString fuel (literal_chars items ++ QUOTATION_MARK :: rest)
     = Ok (List.length (literal_chars items), tString (literal_decoded items))) /\
  (forall items tokens rest fuel,
     forallb item_ok items = true ->
     List.length items < fuel ->
     lex_loop (S fuel) tokens
       (QUOTATION_MARK :: literal_chars items ++ QUOTATION_MARK :: rest)
     = lex_loop fuel (tokens ++ [tString (literal_decoded items)]) rest) /\
  (forall c, closes c = true ->
     exists items rest,
       forallb item_ok items = true /\
       c = literal_chars items ++ QUOTATION_MARK :: rest) /\
  returns input_escaped_quote (VArray [VString ("x" ++ dq ++ "y")]) /\
  String.length ("x" ++ dq ++ "y") = 3 /\
  returns input_newline_escape (VArray [VString "n"]) /\
  returns input_unicode_escape (VArray [VString "u0041"]).
Proof.
  repeat split.
  - intros items rest fuel Hok Hfuel. unfold lexString.
    now rewrite lexString_loop_literal.
  - intros items tokens rest fuel Hok Hfuel. now apply lex_loop_literal.
  - intros c Hc. now apply (closes_literal (n := List.length c)).
  - exists 10. reflexivity.
  - exists 10. reflexivity.
  - exists 10. reflexivity.
Qed.

Lemma lexString_unescape_witness :
  lexString 4 (list_ascii_of_string ("a" ++ bs ++ "nb" ++ dq ++ ",")) = Ok (4, tString "anb")
  /\ lex_loop 3 [] (list_ascii_of_string (quoted (bs ++ bs) ++ "]"))
     = lex_loop 2 [tString bs] (list_ascii_of_string "]")
  /\ exists items rest,
       forallb item_ok items = true /\
       list_ascii_of_string ("a" ++ dq) = literal_chars items ++ QUOTATION_MARK :: rest.
Proof.
  destruct lexString_unescape as (Hstr & Hlex & Hshape & _).
  split; [|split].
  - apply (Hstr [Plain "a"; Escape "n"; Plain "b"] (list_ascii_of_string ",") 4);
      [reflexivity | cbn; lia].
  - apply (Hlex [Escape REVERSE_SOLIDUS] [] (list_ascii_of_string "]") 2);
      [reflexivity | cbn; lia].
  - apply (Hshape (list_ascii_of_string ("a" ++ dq))). reflexivity.
Defined.

(* ------------------------------------------------------------------ *)
(** ** The parser terminates *)

Lemma final_Ok (A : Type) (a : A) : final (Ok a).
Proof. discriminate. Qed.

Lemma final_Throw (A : Type) (e : Error) : final (@Throw A e).
Proof. discriminate. Qed.

Ltac fin := try solve [unfold final; discriminate].

Lemma tok_value_Ok (t : list Token) (v : TokenValue) :
  tok_value t 0 = Ok v -> exists tok t', t = tok :: t' /\ v = value tok.
Proof.
  destruct t as [|tok t']; cbn; [discriminate|].
  intros [= <-]. now exists tok, t'.
Qed.

Lemma tok_value_final (t : list Token) (i : nat) : final (tok_value t i).
Proof. unfold tok_value. destruct (nth_error t i); fin. Qed.

Lemma length_skipn_le (A : Type) (n : nat) (l : list A) :
  List.length (skipn n l) <= List.length l.
Proof. rewrite length_skipn. lia. Qed.

Tactic Notation "inv_bind" hyp(H) "as" simple_intropattern(x) ident(E) :=
  match type of H with
  | bind ?m _ = Ok _ =>
    destruct m as [x | ? | ] eqn:E; cbn [bind] in H; [|discriminate H|discriminate H]
  end.

(** The separator test after a member or an element keeps the tokens or
    drops one. *)
Lemma separator_step_length (t t' : list Token) (v : TokenValue) (closing : ascii)
      (e : Error) :
  (if value_is v SYNTAX_TOKENS.VALUE_SEPARATOR then
     v1 <- tok_value t 1 ;;
     if value_is v1 closing then Throw e else Ok (skipn 1 t)
   else Ok t) = Ok t' ->
  List.length t' <= List.length t.
Proof.
  destruct (value_is v _).
  - intros H. inv_bind H as v1 E1. destruct (value_is _ closing); [discriminate|].
    injection H as <-. apply (length_skipn_le 1 t).
  - now intros [= <-].
Qed.

(** Every call that returns has consumed at least one token. *)
Lemma parser_consumes (fuel : nat) :
  (forall tokens rest v,
     parseTokens fuel tokens = Ok (rest, v) -> List.length rest < List.length tokens) /\
  (forall output t rest o,
     parseObject_loop fuel output t = Ok (rest, o) -> List.length rest < List.length t) /\
  (forall output t rest o,
     parseArray_loop fuel output t = Ok (rest, o) -> List.length rest < List.length t).
Proof.
  induction fuel as [|fuel (IHt & IHo & IHa)]; [repeat split; discriminate|].
  repeat split.
  - intros tokens rest v H. cbn [parseTokens] in H.
    inv_bind H as v0 E0. apply tok_value_Ok in E0 as (tok & t' & -> & ->).
    cbn [skipn] in H.
    destruct (value_is _ SYNTAX_TOKENS.BEGIN_OBJECT).
    { inv_bind H as [t o] E. injection H as <- <-.
      apply IHo in E. cbn. lia. }
    destruct (value_is _ SYNTAX_TOKENS.BEGIN_ARRAY).
    { inv_bind H as [t o] E. injection H as <- <-.
      apply IHa in E. cbn. lia. }
    injection H as <- <-. cbn. lia.
  - intros output t rest o H. cbn [parseObject_loop] in H.
    inv_bind H as ty Ety. destruct (negb _); [discriminate|].
    inv_bind H as key Ekey. apply tok_value_Ok in Ekey as (ktok & t1 & -> & ->).
    cbn [skipn] in H. inv_bind H as sep Esep.
    apply tok_value_Ok in Esep as (stok & t2 & -> & ->).
    destruct (negb _); [discriminate|]. cbn [skipn] in H.
    inv_bind H as [t3 v] Ev. apply IHt in Ev.
    inv_bind H as v3 E3. inv_bind H as t4 E4. apply separator_step_length in E4.
    inv_bind H as v4 E5. cbn [List.length].
    destruct (value_is _ SYNTAX_TOKENS.END_OBJECT).
    + injection H as <- <-. pose proof (length_skipn_le 1 t4) as Hs.
      cbn [skipn] in Hs. lia.
    + apply IHo in H. lia.
  - intros output t rest o H. cbn [parseArray_loop] in H.
    inv_bind H as [t1 v] Ev. apply IHt in Ev.
    destruct (negb (isArray v) && _); [discriminate|].
    destruct (Nat.eqb _ 0); [discriminate|].
    inv_bind H as v1 E1. inv_bind H as t2 E2. apply separator_step_length in E2.
    inv_bind H as v2 E3.
    destruct (value_is _ SYNTAX_TOKENS.END_ARRAY).
    + injection H as <- <-. pose proof (length_skipn_le 1 t2) as Hs.
      cbn [skipn] in Hs. lia.
    + apply IHa in H. lia.
Qed.

Lemma tok_type_final (t : list Token) (i : nat) : final (tok_type t i).
Proof. unfold tok_type. destruct (nth_error t i); fin. Qed.

Lemma separator_step_final (t : list Token) (v : TokenValue) (closing : ascii)
      (e : Error) :
  final (if value_is v SYNTAX_TOKENS.VALUE_SEPARATOR then
           v1 <- tok_value t 1 ;;
           if value_is v1 closing then Throw e else Ok (skipn 1 t)
         else Ok t).
Proof.
  destruct (value_is v _); fin.
  unfold tok_value. destruct (nth_error t 1); cbn [bind]; fin.
  destruct (value_is _ closing); fin.
Qed.

(** Case analysis on a step that cannot run out of budget. *)
Ltac step_final Hfin x E :=
  match goal with
  | |- final (bind ?m _) =>
    destruct m as [x | ? | ] eqn:E; cbn [bind];
    [ | fin | exfalso; apply Hfin; first [exact E | reflexivity] ]
  end.

(** With a budget above twice the number of tokens every call completes. *)
Lemma parser_total (fuel : nat) :
  (forall tokens, 2 * List.length tokens < fuel -> final (parseTokens fuel tokens)) /\
  (forall output t, 2 * List.length t < fuel -> final (parseObject_loop fuel output t)) /\
  (forall output t, 2 * List.length t + 1 < fuel -> final (parseArray_loop fuel output t)).
Proof.
  induction fuel as [|fuel (IHt & IHo & IHa)]; [repeat split; intros; lia|].
  repeat split.
  - intros tokens Hfuel. cbn [parseTokens].
    step_final (@tok_value_final tokens 0) v0 E.
    apply tok_value_Ok in E as (tok & t' & -> & ->).
    cbn [skipn List.length] in *.
    destruct (value_is _ SYNTAX_TOKENS.BEGIN_OBJECT).
    { step_final (IHo empty_object t' ltac:(lia)) r E. destruct r. fin. }
    destruct (value_is _ SYNTAX_TOKENS.BEGIN_ARRAY); fin.
    step_final (IHa [] t' ltac:(lia)) r E. destruct r. fin.
  - intros output t Hfuel. cbn [parseObject_loop].
    step_final (@tok_type_final t 0) ty Ety.
    destruct (negb _); fin.
    step_final (@tok_value_final t 0) key E.
    apply tok_value_Ok in E as (ktok & t1 & -> & ->). cbn [skipn List.length] in *.
    step_final (@tok_value_final t1 0) sep E.
    apply tok_value_Ok in E as (stok & t2 & -> & ->). cbn [skipn List.length] in *.
    destruct (negb _); fin.
    step_final (IHt t2 ltac:(lia)) r E. destruct r as [t3 v].
    apply parser_consumes in E.
    step_final (@tok_value_final t3 0) v3 E3.
    step_final (@separator_step_final t3 v3 SYNTAX_TOKENS.END_OBJECT
                  ParserObjectTrailingComma) t4 E4.
    apply separator_step_length in E4.
    step_final (@tok_value_final t4 0) v4 E5.
    destruct (value_is v4 _); fin. apply IHo. lia.
  - intros output t Hfuel. cbn [parseArray_loop].
    step_final (IHt t ltac:(lia)) r E. destruct r as [t1 v].
    apply parser_consumes in E.
    destruct (negb (isArray v) && _); fin.
    destruct (Nat.eqb _ 0); fin.
    step_final (@tok_value_final t1 0) v1 E1.
    step_final (@separator_step_final t1 v1 SYNTAX_TOKENS.END_ARRAY
                  ParserArrayTrailingComma) t2 E2.
    apply separator_step_length in E2.
    step_final (@tok_value_final t2 0) v2 E3.
    destruct (value_is v2 _); fin. apply IHa. lia.
Qed.

Lemma parseTokens_total (tokens : list Token) :
  final (parseTokens (2 * List.length tokens + 1) tokens).
Proof. apply parser_total. lia. Qed.

(* ------------------------------------------------------------------ *)
(** ** Termination of the lexer *)

(** Without an unescaped closing quotation mark the loop of [lexString]
    never reaches its [break]: it does not return. *)
Lemma lexString_loop_unclosed (fuel : nat) :
  forall c n str r, closes c = false -> lexString_loop fuel c n str <> Ok r.
Proof.
  induction fuel as [|fuel IH]; intros c n str r Hc; [discriminate|].
  cbn [lexString_loop]. destruct c as [|x c].
  - cbn [nth_error char_is negb andb skipn].
    destruct (str_append str None) as [s | e | ]; cbn [bind]; [|discriminate..].
    now apply IH.
  - cbn [closes] in Hc. cbn [nth_error char_is skipn].
    destruct (Ascii.eqb x QUOTATION_MARK); [discriminate Hc|].
    destruct (Ascii.eqb x REVERSE_SOLIDUS); cbn [negb andb].
    + destruct (str_append str _) as [s | e | ]; cbn [bind]; [|discriminate..].
      apply IH. now destruct c.
    + cbn [str_append bind]. now apply IH.
Qed.

Lemma too_long_false (s : string) :
  too_long s = false -> String.length s <= N.to_nat MAX_STRING_LENGTH.
Proof. unfold too_long. intros H. apply N.ltb_ge in H. lia. Qed.

Lemma too_long_true (s : string) :
  N.to_nat MAX_STRING_LENGTH < String.length s -> too_long s = true.
Proof. unfold too_long. intros H. apply N.ltb_lt. lia. Qed.

(** Once [c] is empty every iteration appends the name of [undefined]:
    the string grows until the engine refuses it. *)
Lemma lexString_loop_exhausted (m : nat) :
  forall n str,
    N.to_nat MAX_STRING_LENGTH - String.length str <= m ->
    lexString_loop (S m) [] n str = Throw RangeError.
Proof.
  induction m as [|m IH]; intros n str Hm;
    cbn [lexString_loop nth_error char_is negb andb skipn str_append char_str];
    destruct (too_long (str ++ "undefined")) eqn:Ht; cbn [bind]; try reflexivity;
    apply too_long_false in Ht; rewrite string_length_app in Ht; cbn [String.length] in Ht.
  - lia.
  - apply IH. rewrite string_length_app. cbn [String.length]. lia.
Qed.

(** Without an unescaped closing quotation mark the call ends with the
    [RangeError] of the engine, under every budget above the number of
    characters plus the longest length of a string. *)
Lemma lexString_loop_range_error (k : nat) :
  forall c n str fuel,
    List.length c <= k -> closes c = false ->
    k + N.to_nat MAX_STRING_LENGTH < fuel ->
    lexString_loop fuel c n str = Throw RangeError.
Proof.
  induction k as [|k IH]; intros c n str fuel Hlen Hc Hfuel;
    (destruct fuel as [|fuel]; [lia|]).
  - destruct c; [|cbn in Hlen; lia]. apply lexString_loop_exhausted. lia.
  - destruct c as [|x c]; [apply lexString_loop_exhausted; lia|].
    cbn [List.length] in Hlen. cbn [closes] in Hc.
    cbn [lexString_loop nth_error char_is skipn].
    destruct (Ascii.eqb x QUOTATION_MARK); [discriminate|].
    destruct (Ascii.eqb x REVERSE_SOLIDUS); cbn [negb andb].
    + destruct c as [|y c].
      * cbn [nth_error str_append char_str].
        destruct (too_long (str ++ "undefined")); cbn [bind]; [reflexivity|].
        destruct fuel as [|fuel]; [lia|]. apply lexString_loop_exhausted. lia.
      * cbn [nth_error str_append bind]. apply IH; [cbn in Hlen; lia | exact Hc | lia].
    + cbn [str_append bind]. apply IH; [lia | exact Hc | lia].
Qed.

Lemma lex_loop_unclosed (fuel : nat) (tokens : list Token) (rest : list ascii) :
  closes rest = false ->
  S (List.length rest) + N.to_nat MAX_STRING_LENGTH < fuel ->
  lex_loop fuel tokens (QUOTATION_MARK :: rest) = Throw RangeError.
Proof.
  intros Hc Hfuel. destruct fuel as [|fuel]; [lia|].
  cbn [lex_loop].
  replace (includes WHITESPACE_TOKENS.values (Some QUOTATION_MARK)) with false by reflexivity.
  replace (includes SYNTAX_TOKENS.values (Some QUOTATION_MARK)) with false by reflexivity.
  rewrite Ascii.eqb_refl. unfold lexString.
  rewrite (@lexString_loop_range_error (List.length rest)) by (trivial; lia).
  reflexivity.
Qed.

Lemma scan_literal (items : list StrItem) (rest : list ascii) :
  forallb item_ok items = true ->
  scan Inside (literal_chars items ++ QUOTATION_MARK :: rest) = scan Outside rest.
Proof.
  unfold scan. induction items as [|i items IH]; intros Hok.
  - cbn [literal_chars flat_map app fold_left scan_step]. now rewrite Ascii.eqb_refl.
  - change (forallb item_ok (i :: items)) with (item_ok i && forallb item_ok items) in Hok.
    apply andb_true_iff in Hok as [Hi Hok]. destruct i as [c | c].
    + unfold item_ok in Hi. apply andb_true_iff in Hi as [Hq Hb].
      apply negb_true_iff in Hq, Hb.
      cbn [literal_chars flat_map item_chars app fold_left scan_step].
      rewrite Hq, Hb. now apply IH.
    + cbn [literal_chars flat_map item_chars app fold_left scan_step].
      replace (Ascii.eqb REVERSE_SOLIDUS QUOTATION_MARK) with false by reflexivity.
      rewrite Ascii.eqb_refl. now apply IH.
Qed.

Lemma scan_unclosed (n : nat) :
  forall c, List.length c <= n -> closes c = false -> scan Inside c <> Outside.
Proof.
  unfold scan. induction n as [|n IH]; intros c Hlen Hc.
  - destruct c; [discriminate | cbn in Hlen; lia].
  - destruct c as [|x c]; [discriminate|].
    cbn [closes] in Hc. cbn in Hlen. cbn [fold_left scan_step].
    destruct (Ascii.eqb x QUOTATION_MARK); [discriminate|].
    destruct (Ascii.eqb x REVERSE_SOLIDUS).
    + destruct c as [|y c]; [discriminate|]. cbn in Hlen.
      cbn [fold_left scan_step]. apply IH; [lia | assumption].
    + apply IH; [lia | assumption].
Qed.

Lemma scan_closed (c : list ascii) : scan Inside c = Outside -> closes c = true.
Proof.
  intros H. destruct (closes c) eqn:Hc; [reflexivity|].
  now elim (scan_unclosed (n := List.length c) c).
Qed.

Lemma lexBoolean_Ok (chars : list ascii) (tok : Token) :
  lexBoolean chars = Ok tok ->
  exists rest,
    (chars = list_ascii_of_string "true" ++ rest /\ tok = tBoolean true) \/
    (chars = list_ascii_of_string "false" ++ rest /\ tok = tBoolean false).
Proof.
  unfold lexBoolean.
  destruct (String.eqb (string_of_list_ascii (firstn 4 chars)) "true") eqn:Ht.
  - apply String.eqb_eq in Ht.
    assert (Hc : chars = list_ascii_of_string "true" ++ skipn 4 chars).
    { rewrite <- (firstn_skipn 4 chars) at 1.
      now rewrite <- (list_ascii_of_string_of_list_ascii (firstn 4 chars)), Ht. }
    intros H. exists (skipn 4 chars). left. split; [exact Hc|].
    cbn [andb] in H. destruct (_ || _) in H; [now injection H as <-|].
    rewrite Hc in H. cbn in H. discriminate.
  - cbn [andb].
    destruct (String.eqb (string_of_list_ascii (firstn 5 chars)) "false") eqn:Hf;
      [|discriminate].
    apply String.eqb_eq in Hf. cbn [andb]. destruct (_ || _); [|discriminate].
    intros [= <-]. exists (skipn 5 chars). right.
    rewrite <- (firstn_skipn 5 chars) at 1.
    now rewrite <- (list_ascii_of_string_of_list_ascii (firstn 5 chars)), Hf.
Qed.

Lemma whitespace_not_quote (ch : ascii) :
  includes WHITESPACE_TOKENS.values (Some ch) = true -> Ascii.eqb ch QUOTATION_MARK = false.
Proof.
  intros H. destruct (Ascii.eqb ch QUOTATION_MARK) eqn:Hq; [|reflexivity].
  apply Ascii.eqb_eq in Hq as ->. discriminate H.
Qed.

Lemma syntax_not_quote (ch : ascii) :
  includes SYNTAX_TOKENS.values (Some ch) = true -> Ascii.eqb ch QUOTATION_MARK = false.
Proof.
  intros H. destruct (Ascii.eqb ch QUOTATION_MARK) eqn:Hq; [|reflexivity].
  apply Ascii.eqb_eq in Hq as ->. discriminate H.
Qed.

Lemma literal_chars_length (items : list StrItem) :
  List.length items <= List.length (literal_chars items).
Proof.
  unfold literal_chars.
  induction items as [|[c | c] items IH];
    cbn [flat_map item_chars app List.length]; lia.
Qed.

Lemma lexBoolean_final (chars : list ascii) : final (lexBoolean chars).
Proof.
  unfold lexBoolean. repeat match goal with |- context [if ?b then _ else _] => destruct b end; fin.
Qed.

(** The result of [lexString] on a closed literal, under any budget that
    lets it complete. *)
Lemma lexString_closed (fuel : nat) (items : list StrItem) (rest : list ascii)
      (r : nat * Token) :
  forallb item_ok items = true ->
  lexString fuel (literal_chars items ++ QUOTATION_MARK :: rest) = Ok r ->
  r = (List.length (literal_chars items), tString (literal_decoded items)).
Proof.
  intros Hok H.
  pose proof (@lexString_loop_literal items Hok (S (List.length items) + fuel) rest 0 ""%string
                ltac:(lia)) as Hbig.
  pose proof (@lexString_loop_approx fuel (S (List.length items) + fuel)
                (literal_chars items ++ QUOTATION_MARK :: rest) 0 ""%string ltac:(lia)) as Ha.
  unfold lexString in H. rewrite H, Hbig in Ha.
  destruct Ha as [Ha | Ha]; [discriminate|]. now injection Ha as ->.
Qed.

(** When the quotation marks of the text are matched, [lex] completes
    within a budget of one more than the number of characters. *)
Lemma lex_loop_closed (n : nat) :
  forall chars tokens,
    List.length chars <= n -> scan Outside chars = Outside ->
    final (lex_loop (S n) tokens chars).
Proof.
  induction n as [|n IH]; intros chars tokens Hlen Hscan.
  - destruct chars; [fin | cbn in Hlen; lia].
  - destruct chars as [|ch rest]; [fin|]. cbn in Hlen.
    cbn [lex_loop]. unfold scan in Hscan. cbn [fold_left scan_step] in Hscan.
    destruct (includes WHITESPACE_TOKENS.values (Some ch)) eqn:Hws.
    { rewrite (whitespace_not_quote _ Hws) in Hscan. apply IH; [lia | exact Hscan]. }
    destruct (includes SYNTAX_TOKENS.values (Some ch)) eqn:Hsy.
    { rewrite (syntax_not_quote _ Hsy) in Hscan. apply IH; [lia | exact Hscan]. }
    destruct (Ascii.eqb ch QUOTATION_MARK) eqn:Hq.
    { destruct (closes_literal (n := List.length rest) rest (le_n _) (scan_closed _ Hscan))
        as (items & rest' & Hok & ->).
      pose proof (literal_chars_length items) as Hl.
      rewrite length_app in Hlen. cbn [List.length] in Hlen.
      unfold lexString. rewrite lexString_loop_literal by (trivial; lia).
      cbn [bind Nat.add].
      change (literal_chars items ++ QUOTATION_MARK :: rest')
        with (literal_chars items ++ [QUOTATION_MARK] ++ rest').
      rewrite app_assoc, skipn_app_length by (rewrite length_app; cbn; lia).
      apply IH; [lia|]. fold (scan Inside (literal_chars items ++ [QUOTATION_MARK] ++ rest')) in Hscan.
      now rewrite <- (scan_literal items rest' Hok). }
    destruct (Ascii.eqb ch "t" || Ascii.eqb ch "f"); [|fin].
    pose proof (lexBoolean_final (ch :: rest)) as Hfin.
    destruct (lexBoolean (ch :: rest)) as [tok | e | ] eqn:Hb; cbn [bind];
      [| fin | now elim Hfin].
    apply lexBoolean_Ok in Hb as (r & [[Hr ->] | [Hr ->]]);
      cbn in Hr; injection Hr as -> ->;
      cbn [tBoolean value toString String.length skipn];
      cbn in Hlen, Hscan; (apply IH; [lia | exact Hscan]).
Qed.

(** When [lex] returns tokens, the quotation marks of the text are matched. *)
Lemma lex_loop_Ok_closed (fuel : nat) :
  forall tokens chars toks,
    lex_loop fuel tokens chars = Ok toks -> scan Outside chars = Outside.
Proof.
  induction fuel as [|fuel IH]; intros tokens chars toks H; [discriminate|].
  destruct chars as [|ch rest]; [reflexivity|].
  cbn [lex_loop] in H. unfold scan. cbn [fold_left scan_step].
  destruct (includes WHITESPACE_TOKENS.values (Some ch)) eqn:Hws.
  { rewrite (whitespace_not_quote _ Hws). now apply IH in H. }
  destruct (includes SYNTAX_TOKENS.values (Some ch)) eqn:Hsy.
  { rewrite (syntax_not_quote _ Hsy). now apply IH in H. }
  destruct (Ascii.eqb ch QUOTATION_MARK) eqn:Hq.
  { inv_bind H as [len tok] Hs.
    destruct (closes rest) eqn:Hc;
      [|unfold lexString in Hs; now apply lexString_loop_unclosed in Hs].
    destruct (closes_literal (n := List.length rest) rest (le_n _) Hc)
      as (items & rest' & Hok & ->).
    apply lexString_closed in Hs; [|exact Hok]. injection Hs as -> ->.
    change (literal_chars items ++ QUOTATION_MARK :: rest')
      with (literal_chars items ++ [QUOTATION_MARK] ++ rest') in H.
    rewrite app_assoc, skipn_app_length in H by (rewrite length_app; cbn; lia).
    apply IH in H. fold (scan Inside (literal_chars items ++ QUOTATION_MARK :: rest')).
    now rewrite scan_literal. }
  destruct (Ascii.eqb ch "t" || Ascii.eqb ch "f"); [|discriminate].
  inv_bind H as tok Hb.
  apply lexBoolean_Ok in Hb as (r & [[Hr ->] | [Hr ->]]);
    cbn in Hr; injection Hr as -> ->;
    cbn [tBoolean value toString String.length skipn] in H;
    apply IH in H; exact H.
Qed.

Lemma lex_mono (fuel fuel' : nat) (input : string) (r : Outcome (list Token)) :
  lex fuel input = r -> final r -> fuel <= fuel' -> lex fuel' input = r.
Proof.
  intros <- Hf Hle. unfold lex. now apply approx_final; [apply lex_loop_approx|].
Qed.

Lemma parse_final (input : string) :
  strings_closed input = true ->
  exists fuel, final (lex fuel input) /\ final (parse fuel input).
Proof.
  unfold strings_closed. intros Hc.
  destruct (scan Outside (list_ascii_of_string input)) eqn:Hscan; try discriminate.
  pose proof (@lex_loop_closed (List.length (list_ascii_of_string input))
                (list_ascii_of_string input) [] (le_n _) Hscan) as Hfin.
  fold (lex (S (List.length (list_ascii_of_string input))) input) in Hfin.
  remember (S (List.length (list_ascii_of_string input))) as n eqn:En. clear En.
  destruct (lex n input) as [toks | e | ] eqn:Hlex; [| |now elim Hfin].
  - exists (n + (2 * List.length toks + 1)).
    assert (Hl : lex (n + (2 * List.length toks + 1)) input = Ok toks)
      by (eapply lex_mono; [exact Hlex | fin | lia]).
    split; [rewrite Hl; fin|]. unfold parse. rewrite Hl. cbn [bind].
    pose proof (proj1 (parser_total (n + (2 * List.length toks + 1))) toks ltac:(lia)) as Hp.
    destruct (parseTokens _ toks); cbn [bind]; fin. now elim Hp.
  - exists n. unfold parse. rewrite Hlex. split; fin.
Qed.

Lemma parse_Ok_lex (fuel : nat) (input : string) (v : Value) :
  parse fuel input = Ok v -> exists tokens, lex fuel input = Ok tokens.
Proof.
  unfold parse. intros H. inv_bind H as tokens E. now exists tokens.
Qed.

(** Whatever the text, [lex] completes: a literal left open ends the call
    with the [RangeError] of the engine. *)
Lemma lex_loop_total (n : nat) :
  forall chars tokens,
    List.length chars <= n ->
    final (lex_loop (S n + S (N.to_nat MAX_STRING_LENGTH)) tokens chars).
Proof.
  induction n as [|n IH]; intros chars tokens Hlen.
  - destruct chars; [fin | cbn in Hlen; lia].
  - destruct chars as [|ch rest]; [fin|]. cbn [List.length] in Hlen.
    change (S (S n) + S (N.to_nat MAX_STRING_LENGTH))
      with (S (S n + S (N.to_nat MAX_STRING_LENGTH))).
    cbn [lex_loop].
    destruct (includes WHITESPACE_TOKENS.values (Some ch)); [apply IH; lia|].
    destruct (includes SYNTAX_TOKENS.values (Some ch)); [apply IH; lia|].
    destruct (Ascii.eqb ch QUOTATION_MARK).
    { unfold lexString. destruct (closes rest) eqn:Hc.
      - destruct (closes_literal (n := List.length rest) rest (le_n _) Hc)
          as (items & rest' & Hok & ->).
        pose proof (literal_chars_length items) as Hl.
        rewrite length_app in Hlen. cbn [List.length] in Hlen.
        rewrite lexString_loop_literal by (trivial; lia).
        cbn [bind]. apply IH. rewrite length_skipn, length_app. cbn [List.length]. lia.
      - rewrite (@lexString_loop_range_error (List.length rest)) by (trivial; lia).
        fin. }
    destruct (Ascii.eqb ch "t" || Ascii.eqb ch "f"); [|fin].
    pose proof (lexBoolean_final (ch :: rest)) as Hfin.
    destruct (lexBoolean (ch :: rest)) as [tok | e | ] eqn:Hb; cbn [bind];
      [| fin | now elim Hfin].
    apply IH.
    apply lexBoolean_Ok in Hb as (r & [[Hr ->] | [Hr ->]]);
      cbn in Hr; injection Hr as -> ->;
      cbn [tBoolean value toString String.length skipn List.length] in Hlen |- *; lia.
Qed.

Lemma lexBoolean_Ok_length (chars : list ascii) (tok : Token) :
  lexBoolean chars = Ok tok ->
  List.length (skipn (String.length (toString (value tok))) chars) < List.length chars.
Proof.
  intros H. apply lexBoolean_Ok in H as [r [[-> ->] | [-> ->]]];
    cbn; lia.
Qed.

Lemma lex_loop_token_count (fuel : nat) :
  forall tokens chars toks,
    lex_loop fuel tokens chars = Ok toks ->
    List.length toks <= List.length tokens + List.length chars.
Proof.
  induction fuel as [|fuel IH]; intros tokens chars toks H; [discriminate|].
  cbn [lex_loop] in H. destruct chars as [|ch rest]; [injection H as <-; lia|].
  cbn [List.length].
  destruct (includes WHITESPACE_TOKENS.values (Some ch)); [apply IH in H; lia|].
  destruct (includes SYNTAX_TOKENS.values (Some ch)).
  { apply IH in H. rewrite length_app in H. cbn in H. lia. }
  destruct (Ascii.eqb ch QUOTATION_MARK).
  { inv_bind H as [len tok] E. apply IH in H. rewrite length_app in H.
    pose proof (length_skipn_le (len + 1) rest). cbn [List.length] in H. lia. }
  destruct (Ascii.eqb ch "t" || Ascii.eqb ch "f"); [|discriminate].
  inv_bind H as tok E. apply lexBoolean_Ok_length in E.
  apply IH in H. rewrite length_app in H. cbn [List.length] in H, E. lia.
Qed.

Lemma parse_total (input : string) :
  exists fuel, final (lex fuel input) /\ final (parse fuel input).
Proof.
  set (chars := list_ascii_of_string input).
  set (fuel := 2 * List.length chars + S (List.length chars) + S (N.to_nat MAX_STRING_LENGTH)).
  pose proof (@lex_loop_total (List.length chars) chars [] (le_n _)) as Hfin.
  assert (Hlex : lex fuel input = lex_loop (S (List.length chars)
                                              + S (N.to_nat MAX_STRING_LENGTH)) [] chars).
  { unfold lex. apply approx_final; [apply lex_loop_approx; subst fuel; lia | exact Hfin]. }
  exists fuel. rewrite <- Hlex in Hfin. split; [exact Hfin|].
  unfold parse. destruct (lex fuel input) as [toks | e | ] eqn:E; cbn [bind];
    [| fin | now elim Hfin].
  apply lex_loop_token_count in E. cbn [List.length] in E. fold chars in E.
  pose proof (proj1 (parser_total fuel) toks ltac:(subst fuel; lia)) as Hp.
  destruct (parseTokens fuel toks); cbn [bind]; fin. now elim Hp.
Qed.

Lemma throws_of_lex (input : string) (e : Error) :
  (exists fuel, lex fuel input = Throw e) -> throws input e.
Proof. intros [fuel H]. exists fuel. unfold parse. now rewrite H. Qed.

(** C10. The loop of [lexString] reaches its [break], and the call
    returns, exactly when the characters handed to it contain an unescaped
    closing quotation mark. Without one, and so also when the text ends in
    a lone backslash, the loop does not go on for ever: once the characters
    are used up each iteration appends the name of [undefined] to the
    string, and the call ends with the [RangeError] of the engine, which
    [lex] and [parse] let through. So [lex] and [parse] complete on every
    text; they return only when every quotation mark of the text is
    matched, and the error of an unclosed literal is none of the two kinds
    of the design. *)
Theorem lex_returns_only_if_strings_closed :
  (forall c, closes c = true -> exists fuel r, lexString fuel c = Ok r) /\
  (forall c, closes c = false ->
     (forall fuel r, lexString fuel c <> Ok r) /\
     (exists fuel, lexString fuel c = Throw RangeError)) /\
  closes (list_ascii_of_string ("a" ++ bs)) = false /\
  (forall tokens rest, closes rest = false ->
     exists fuel, lex_loop fuel tokens (QUOTATION_MARK :: rest) = Throw RangeError) /\
  (forall input, exists fuel, final (lex fuel input) /\ final (parse fuel input)) /\
  (forall input, ~ diverges input) /\
  (forall input fuel tokens, lex fuel input = Ok tokens -> strings_closed input = true) /\
  (forall input fuel v, parse fuel input = Ok v -> strings_closed input = true) /\
  throws input_unclosed_string RangeError /\
  throws input_lone_backslash RangeError /\
  error_kind RangeError = RuntimeError.
Proof.
  assert (Hlex : forall input fuel tokens,
             lex fuel input = Ok tokens -> strings_closed input = true).
  { intros input fuel tokens H. unfold strings_closed.
    now rewrite (lex_loop_Ok_closed _ _ _ H). }
  assert (Hopen : forall tokens rest, closes rest = false ->
             exists fuel, lex_loop fuel tokens (QUOTATION_MARK :: rest) = Throw RangeError).
  { intros tokens rest Hc. eexists. apply lex_loop_unclosed; [exact Hc | apply Nat.lt_succ_diag_r]. }
  refine (conj _ (conj _ (conj _ (conj _ (conj _ (conj _ (conj _ (conj _
           (conj _ (conj _ _)))))))))).
  - intros c Hc.
    destruct (closes_literal (n := List.length c) c (le_n _) Hc)
      as (items & rest & Hok & ->).
    exists (S (List.length items)). eexists. unfold lexString.
    now rewrite lexString_loop_literal by (trivial; lia).
  - intros c Hc. split.
    + intros fuel r. now apply lexString_loop_unclosed.
    + eexists. unfold lexString.
      apply (@lexString_loop_range_error (List.length c)); [lia | exact Hc |].
      apply Nat.lt_succ_diag_r.
  - reflexivity.
  - exact Hopen.
  - apply parse_total.
  - intros input Hdiv. destruct (parse_total input) as (fuel & _ & Hfin).
    now apply Hfin.
  - exact Hlex.
  - intros input fuel v H. apply parse_Ok_lex in H as (tokens & H). eauto.
  - apply throws_of_lex.
    destruct (Hopen [tSyntax "["] (list_ascii_of_string "x") eq_refl) as [fuel H].
    exists (S fuel). exact H.
  - apply throws_of_lex. unfold lex.
    exact (Hopen [] (list_ascii_of_string ("a" ++ bs)) eq_refl).
  - reflexivity.
Qed.

Lemma lex_returns_only_if_strings_closed_witness :
  (exists fuel r, lexString fuel (list_ascii_of_string ("ab" ++ dq ++ "]")) = Ok r) /\
  (forall fuel r, lexString fuel (list_ascii_of_string "ab]") <> Ok r) /\
  (exists fuel, lexString fuel (list_ascii_of_string "ab]") = Throw RangeError) /\
  (exists fuel, lex_loop fuel [] (QUOTATION_MARK :: list_ascii_of_string "ab]")
                = Throw RangeError) /\
  (exists fuel, final (lex fuel input_member) /\ final (parse fuel input_member)) /\
  strings_closed input_member = true /\
  strings_closed "[true,false]" = true.
Proof.
  destruct lex_returns_only_if_strings_closed
    as (Hterm & Hopen & _ & Hlexopen & Hfin & _ & Hlex & Hparse & _).
  refine (conj _ (conj _ (conj _ (conj _ (conj _ (conj _ _)))))).
  - apply (Hterm (list_ascii_of_string ("ab" ++ dq ++ "]"))). reflexivity.
  - apply (Hopen (list_ascii_of_string "ab]")). reflexivity.
  - apply (Hopen (list_ascii_of_string "ab]")). reflexivity.
  - apply (Hlexopen [] (list_ascii_of_string "ab]")). reflexivity.
  - apply (Hfin input_member).
  - apply (Hlex input_member 10
             [tSyntax "{"; tString "a"; tSyntax ":"; tString "b"; tSyntax "}"]).
    reflexivity.
  - apply (Hparse "[true,false]"%string 10 (VArray [VBoolean true; VBoolean false])).
    reflexivity.
Defined.

(** A text whose literal is left open: the loop of [lexString] ends, with
    the [RangeError] of the engine, and so does [parse]; and a text on
    which [lex] throws before it reaches the literal left open. *)
Lemma unclosed_literal_terminates :
  closes (list_ascii_of_string "x") = false /\
  (exists fuel, final (lexString fuel (list_ascii_of_string "x"))) /\
  strings_closed input_unclosed_string = false /\
  throws input_unclosed_string RangeError /\
  ~ diverges input_unclosed_string /\
  strings_closed ("1" ++ dq ++ "abc") = false /\
  throws ("1" ++ dq ++ "abc") (LexerInvalidCharacter "1").
Proof.
  assert (Hx : lexString (S (1 + N.to_nat MAX_STRING_LENGTH)) (list_ascii_of_string "x")
               = Throw RangeError).
  { unfold lexString. apply (@lexString_loop_range_error 1); [cbn; lia | reflexivity | lia]. }
  assert (Hopen : forall fuel,
             2 + N.to_nat MAX_STRING_LENGTH < fuel ->
             lex (S fuel) input_unclosed_string = Throw RangeError).
  { intros fuel Hfuel.
    exact (@lex_loop_unclosed fuel [tSyntax "["] (list_ascii_of_string "x") eq_refl Hfuel). }
  assert (Ht : throws input_unclosed_string RangeError).
  { apply throws_of_lex. exists (S (3 + N.to_nat MAX_STRING_LENGTH)).
    apply Hopen. lia. }
  refine (conj _ (conj _ (conj _ (conj _ (conj _ (conj _ _)))))).
  - reflexivity.
  - eexists. rewrite Hx. fin.
  - reflexivity.
  - exact Ht.
  - intros Hdiv. destruct Ht as [fuel Ht]. rewrite (Hdiv fuel) in Ht. discriminate.
  - reflexivity.
  - exists 5. reflexivity.
Qed.

(* ------------------------------------------------------------------ *)
(** ** One iteration of the parser's loops *)

Lemma parseTokens_Ok_mono (fuel fuel' : nat) (t : list Token) (r : list Token * Value) :
  parseTokens fuel t = Ok r -> fuel <= fuel' -> parseTokens fuel' t = Ok r.
Proof.
  intros H Hle. rewrite <- H. apply approx_final; [|rewrite H; fin].
  now apply parser_approx.
Qed.

Lemma parseObject_loop_Ok_mono (fuel fuel' : nat) (o : OutputObject Value) (t : list Token)
      (r : list Token * OutputObject Value) :
  parseObject_loop fuel o t = Ok r -> fuel <= fuel' -> parseObject_loop fuel' o t = Ok r.
Proof.
  intros H Hle. rewrite <- H. apply approx_final; [|rewrite H; fin].
  now apply parser_approx.
Qed.

Lemma parseArray_loop_Ok_mono (fuel fuel' : nat) (o : list Value) (t : list Token)
      (r : list Token * list Value) :
  parseArray_loop fuel o t = Ok r -> fuel <= fuel' -> parseArray_loop fuel' o t = Ok r.
Proof.
  intros H Hle. rewrite <- H. apply approx_final; [|rewrite H; fin].
  now apply parser_approx.
Qed.

Lemma later_key_ok_spec (c : bool) (k : string) :
  later_key_ok c k = true ->
  value_is (TVString k) SYNTAX_TOKENS.END_OBJECT = false /\
  (c = false -> value_is (TVString k) SYNTAX_TOKENS.VALUE_SEPARATOR = false).
Proof.
  unfold later_key_ok, value_is. intros H. apply andb_true_iff in H as [H1 H2].
  apply negb_true_iff in H1. split; [exact H1|].
  intros ->. cbn [orb] in H2. now apply negb_true_iff in H2.
Qed.

Lemma value_is_refl (ch : ascii) : value_is (TVString (str1 ch)) ch = true.
Proof. apply String.eqb_refl. Qed.

Ltac parser_step :=
  cbn [parseObject_loop parseArray_loop tok_type tok_value nth_error
         tString tSyntax tBoolean type value TokenType_eqb negb bind skipn
         sep_tokens app toString List.length Nat.eqb];
  rewrite ?value_is_refl.

(** The member was the last one: the loop returns. *)
Lemma parseObject_loop_last (fuel : nat) (output : OutputObject Value) (k : string)
      (t rest : list Token) (v : Value) :
  parseTokens fuel t = Ok (tSyntax SYNTAX_TOKENS.END_OBJECT :: rest, v) ->
  parseObject_loop (S fuel) output (tString k :: tSyntax SYNTAX_TOKENS.NAME_SEPARATOR :: t)
  = Ok (rest, obj_assign k v output).
Proof.
  intros Hv. parser_step. parser_step. rewrite Hv. reflexivity.
Qed.

(** Another member follows, with or without a value-separator before it:
    the loop goes on with that member. *)
Lemma parseObject_loop_more (fuel : nat) (output : OutputObject Value) (k k' : string)
      (c : bool) (t ts : list Token) (v : Value) :
  parseTokens fuel t = Ok (sep_tokens c ++ tString k' :: ts, v) ->
  later_key_ok c k' = true ->
  parseObject_loop (S fuel) output (tString k :: tSyntax SYNTAX_TOKENS.NAME_SEPARATOR :: t)
  = parseObject_loop fuel (obj_assign k v output) (tString k' :: ts).
Proof.
  intros Hv Hk. apply later_key_ok_spec in Hk as [Hend Hsep].
  parser_step. parser_step. rewrite Hv. destruct c; parser_step.
  - parser_step. rewrite Hend. parser_step. now rewrite Hend.
  - rewrite (Hsep eq_refl). parser_step. now rewrite Hend.
Qed.

Lemma parseArray_loop_last (fuel : nat) (output : list Value) (t rest : list Token)
      (v : Value) :
  parseTokens fuel t = Ok (tSyntax SYNTAX_TOKENS.END_ARRAY :: rest, v) ->
  kept v = true ->
  parseArray_loop (S fuel) output t = Ok (rest, output ++ [v]).
Proof.
  intros Hv Hkept. apply negb_true_iff in Hkept.
  parser_step. rewrite Hv. parser_step. rewrite Hkept. reflexivity.
Qed.

Lemma parseArray_loop_more (fuel : nat) (output : list Value) (c : bool)
      (t ts : list Token) (tok : Token) (v : Value) :
  parseTokens fuel t = Ok (sep_tokens c ++ tok :: ts, v) ->
  kept v = true ->
  value_is (value tok) SYNTAX_TOKENS.VALUE_SEPARATOR = false ->
  value_is (value tok) SYNTAX_TOKENS.END_ARRAY = false ->
  parseArray_loop (S fuel) output t = parseArray_loop fuel (output ++ [v]) (tok :: ts).
Proof.
  intros Hv Hkept Hsep Hend. apply negb_true_iff in Hkept.
  parser_step. rewrite Hv. parser_step. rewrite Hkept.
  destruct c; parser_step.
  - rewrite Hend. parser_step. now rewrite Hend.
  - rewrite Hsep. parser_step. now rewrite Hend.
Qed.

(* ------------------------------------------------------------------ *)
(** ** The parser rebuilds the tree of a well-formed rendering *)

Lemma Doc_induction (P : Doc -> Prop) :
  (forall s, P (DString s)) ->
  (forall b, P (DBoolean b)) ->
  (forall elems, Forall (fun p => P (snd p)) elems -> P (DArray elems)) ->
  (forall members, Forall (fun p => P (snd (snd p))) members -> P (DObject members)) ->
  forall d, P d.
Proof.
  intros Hs Hb Ha Ho. fix IH 1. intros [s | b | elems | members].
  - apply Hs.
  - apply Hb.
  - apply Ha. induction elems as [|[c e] elems IHl]; constructor; [apply IH | exact IHl].
  - apply Ho.
    induction members as [|[c [k v]] members IHl]; constructor; [apply IH | exact IHl].
Qed.

Lemma Json_induction (P : Json -> Prop) :
  (forall s, P (JString s)) ->
  (forall b, P (JBoolean b)) ->
  (forall elems, Forall P elems -> P (JArray elems)) ->
  (forall members, Forall (fun m => P (snd m)) members -> P (JObject members)) ->
  forall j, P j.
Proof.
  intros Hs Hb Ha Ho. fix IH 1. intros [s | b | elems | members].
  - apply Hs.
  - apply Hb.
  - apply Ha. induction elems as [|e elems IHl]; constructor; [apply IH | exact IHl].
  - apply Ho.
    induction members as [|[k v] members IHl]; constructor; [apply IH | exact IHl].
Qed.

Lemma element_kept (d : Doc) :
  element_ok d = true -> kept (json_value (shape d)) = true.
Proof.
  destruct d as [s | b | elems | members]; cbn [element_ok shape json_value]; intros H.
  - unfold kept. now rewrite (proj1 (negb_true_iff _) H), andb_false_r.
  - reflexivity.
  - reflexivity.
  - reflexivity.
Qed.

(** The first token of an array element is neither a value-separator nor
    the end of the array. *)
Lemma element_head (d : Doc) :
  element_ok d = true ->
  exists tok ts,
    tokens_of d = tok :: ts /\
    value_is (value tok) SYNTAX_TOKENS.VALUE_SEPARATOR = false /\
    value_is (value tok) SYNTAX_TOKENS.END_ARRAY = false.
Proof.
  destruct d as [s | b | elems | members]; cbn [element_ok tokens_of]; intros H.
  - exists (tString s), []. split; [reflexivity|].
    apply negb_true_iff in H. cbn [is_syntax_value SYNTAX_TOKENS.values existsb] in H.
    repeat (apply orb_false_iff in H; destruct H as [? H]).
    now split.
  - now exists (tBoolean b), [].
  - eexists _, _. split; [reflexivity|]. now split.
  - eexists _, _. split; [reflexivity|]. now split.
Qed.

Lemma parseArray_loop_elems (elems : list (bool * Doc)) :
  Forall (fun p => rebuilt (snd p)) elems ->
  forallb (fun p => let '(_, e) := p in parser_wf e && element_ok e) elems = true ->
  forall e output rest,
    rebuilt e -> parser_wf e = true -> element_ok e = true ->
    exists fuel,
      parseArray_loop fuel output
        (tokens_of e ++ flat_map elem_tokens elems
           ++ tSyntax SYNTAX_TOKENS.END_ARRAY :: rest)
      = Ok (rest,
            output ++ json_value (shape e)
              :: map (fun p => json_value (shape (snd p))) elems).
Proof.
  induction elems as [|[c e'] elems IH]; intros HP Hwf e output rest He Hwfe Hoke.
  - destruct (He Hwfe (tSyntax SYNTAX_TOKENS.END_ARRAY :: rest)) as [fuel Hv].
    exists (S fuel). cbn [flat_map app map].
    apply parseArray_loop_last; [exact Hv | now apply element_kept].
  - inversion HP as [|? ? He' HP']; subst. cbn [snd] in He'.
    cbn [forallb] in Hwf. apply andb_true_iff in Hwf as [Hwf' Hwf].
    apply andb_true_iff in Hwf' as [Hwfe' Hoke'].
    destruct (element_head e' Hoke') as (tok & ts & Htok & Hsep & Hend).
    destruct (IH HP' Hwf e' (output ++ [json_value (shape e)]) rest He' Hwfe' Hoke')
      as [f2 Hloop].
    cbn [flat_map elem_tokens map snd]. rewrite <- !app_assoc.
    destruct (He Hwfe (sep_tokens c ++ tokens_of e' ++ flat_map elem_tokens elems
                         ++ tSyntax SYNTAX_TOKENS.END_ARRAY :: rest)) as [f1 Hv].
    exists (S (Nat.max f1 f2)).
    rewrite Htok in Hv, Hloop |- *. cbn [app] in Hv, Hloop |- *.
    erewrite parseArray_loop_more;
      [ | eapply parseTokens_Ok_mono; [exact Hv | apply Nat.le_max_l]
        | now apply element_kept | exact Hsep | exact Hend ].
    erewrite parseArray_loop_Ok_mono; [| exact Hloop | apply Nat.le_max_r].
    now rewrite <- app_assoc.
Qed.

Lemma parseObject_loop_members (members : list (bool * (string * Doc))) :
  Forall (fun p => rebuilt (snd (snd p))) members ->
  forallb (fun p => let '(_, (_, v)) := p in parser_wf v) members = true ->
  forallb (fun p => let '(c, (k, _)) := p in later_key_ok c k) members = true ->
  forall k v output rest,
    rebuilt v -> parser_wf v = true ->
    exists fuel,
      parseObject_loop fuel output
        (tString k :: tSyntax SYNTAX_TOKENS.NAME_SEPARATOR :: tokens_of v
           ++ flat_map member_tokens members
           ++ tSyntax SYNTAX_TOKENS.END_OBJECT :: rest)
      = Ok (rest,
            fold_left (fun o m => obj_assign (fst m) (snd m) o)
              (map (fun p => let '(_, (k', v')) := p in (k', json_value (shape v'))) members)
              (obj_assign k (json_value (shape v)) output)).
Proof.
  induction members as [|[c [k' v']] members IH];
    intros HP Hwf Hkeys k v output rest Hv Hwfv.
  - destruct (Hv Hwfv (tSyntax SYNTAX_TOKENS.END_OBJECT :: rest)) as [fuel Hval].
    exists (S fuel). cbn [flat_map app map fold_left].
    now apply parseObject_loop_last.
  - inversion HP as [|? ? Hv' HP']; subst. cbn [snd] in Hv'.
    cbn [forallb] in Hwf, Hkeys.
    apply andb_true_iff in Hwf as [Hwfv' Hwf].
    apply andb_true_iff in Hkeys as [Hk' Hkeys].
    destruct (IH HP' Hwf Hkeys k' v' (obj_assign k (json_value (shape v)) output) rest
                Hv' Hwfv') as [f2 Hloop].
    cbn [flat_map member_tokens map fold_left fst snd]. rewrite <- !app_assoc.
    cbn [app].
    destruct (Hv Hwfv (sep_tokens c ++ tString k'
                         :: tSyntax SYNTAX_TOKENS.NAME_SEPARATOR :: tokens_of v'
                         ++ flat_map member_tokens members
                         ++ tSyntax SYNTAX_TOKENS.END_OBJECT :: rest)) as [f1 Hval].
    exists (S (Nat.max f1 f2)).
    erewrite parseObject_loop_more;
      [ | eapply parseTokens_Ok_mono; [exact Hval | apply Nat.le_max_l] | exact Hk' ].
    erewrite parseObject_loop_Ok_mono; [reflexivity | exact Hloop | apply Nat.le_max_r].
Qed.

Lemma first_unseparated_inv (A : Type) (l : list (bool * A)) :
  first_unseparated l = true -> exists x l', l = (false, x) :: l'.
Proof.
  destruct l as [|[[|] x] l']; try discriminate. intros _. now exists x, l'.
Qed.

(** On a well-formed rendering, followed by any tokens, [parseTokens]
    returns the value of the tree and leaves the tokens that follow. *)
Lemma parser_rebuilds (d : Doc) : rebuilt d.
Proof.
  induction d as [s | b | elems IH | members IH] using Doc_induction;
    intros Hwf rest.
  - exists 1. cbn [parser_wf] in Hwf. unfold string_value_ok in Hwf.
    apply andb_true_iff in Hwf as [Ho Ha]. apply negb_true_iff in Ho, Ha.
    cbn [tokens_of app parseTokens tok_value nth_error tString value bind value_is].
    now rewrite Ho, Ha.
  - exists 1. reflexivity.
  - cbn [parser_wf] in Hwf. apply andb_true_iff in Hwf as [Hfirst Hwf].
    apply first_unseparated_inv in Hfirst as (e & elems' & ->).
    inversion IH as [|? ? He IH']; subst. cbn [snd] in He.
    cbn [forallb] in Hwf. apply andb_true_iff in Hwf as [Hwfe Hwf].
    apply andb_true_iff in Hwfe as [Hwfe Hoke].
    destruct (parseArray_loop_elems IH' Hwf [] rest He Hwfe Hoke) as [fuel Hloop].
    exists (S fuel).
    cbn [tokens_of flat_map sep_tokens app parseTokens tok_value nth_error tSyntax value
           bind skipn].
    replace (value_is (TVString (str1 SYNTAX_TOKENS.BEGIN_ARRAY)) SYNTAX_TOKENS.BEGIN_OBJECT)
      with false by reflexivity.
    rewrite value_is_refl, <- !app_assoc. cbn [app].
    change (flat_map _ elems') with (flat_map elem_tokens elems').
    rewrite Hloop. cbn [bind app shape json_value map]. rewrite map_map.
    rewrite (map_ext (fun p : bool * Doc => json_value (shape (snd p)))
               (fun p => json_value (let '(_, e') := p in shape e')));
      [reflexivity | now intros [c e']].
  - cbn [parser_wf] in Hwf. apply andb_true_iff in Hwf as [Hwf Hkeys].
    apply andb_true_iff in Hwf as [Hfirst Hwf].
    apply first_unseparated_inv in Hfirst as ([k v] & members' & ->).
    inversion IH as [|? ? Hv IH']; subst. cbn [snd] in Hv.
    cbn [forallb] in Hwf. apply andb_true_iff in Hwf as [Hwfv Hwf].
    cbn [tl] in Hkeys.
    destruct (parseObject_loop_members IH' Hwf Hkeys k empty_object rest Hv Hwfv)
      as [fuel Hloop].
    exists (S fuel).
    cbn [tokens_of flat_map sep_tokens app parseTokens tok_value nth_error tSyntax value
           bind skipn].
    rewrite value_is_refl, <- !app_assoc. cbn [app].
    change (flat_map _ members') with (flat_map member_tokens members').
    rewrite Hloop. cbn [bind app shape json_value map]. rewrite map_map.
    unfold build_object. cbn [map fold_left fst snd].
    rewrite (map_ext (fun p : bool * (string * Doc) =>
                        let '(_, (k', v')) := p in (k', json_value (shape v')))
               (fun p => let '(k', v') := let '(_, (k', v')) := p in (k', shape v') in
                         (k', json_value v')));
      [reflexivity | now intros [c [k' v']]].
Qed.

(* ------------------------------------------------------------------ *)
(** ** The lexer reads the reference encoding back *)

Lemma lex_loop_mono (fuel fuel' : nat) (tokens : list Token) (chars : list ascii)
      (r : Outcome (list Token)) :
  lex_loop fuel tokens chars = r -> final r -> fuel <= fuel' ->
  lex_loop fuel' tokens chars = r.
Proof.
  intros <- Hf Hle. now apply approx_final; [apply lex_loop_approx|].
Qed.

Lemma lexes_to_nil (b : bool) : lexes_to [] [] b.
Proof.
  intros tokens rest r _ [fuel H] _. exists fuel. now rewrite app_nil_r in H.
Qed.

Lemma lexes_to_weaken (cs : list ascii) (toks : list Token) (b : bool) :
  lexes_to cs toks false -> lexes_to cs toks b.
Proof.
  intros H tokens rest r _ Hr Hf. apply H; [discriminate | exact Hr | exact Hf].
Qed.

Lemma lexes_to_app (cs1 cs2 : list ascii) (t1 t2 : list Token) (b1 b2 b : bool) :
  lexes_to cs1 t1 b1 -> lexes_to cs2 t2 b2 ->
  (forall rest, (b = true -> delimited rest = true) ->
                (b1 = true -> delimited (cs2 ++ rest) = true) /\
                (b2 = true -> delimited rest = true)) ->
  lexes_to (cs1 ++ cs2) (t1 ++ t2) b.
Proof.
  intros H1 H2 Hd tokens rest r Hb Hr Hf.
  destruct (Hd rest Hb) as [Hd1 Hd2].
  rewrite <- app_assoc. apply H1; [exact Hd1 | | exact Hf].
  apply H2; [exact Hd2 | | exact Hf].
  now rewrite <- app_assoc.
Qed.

Lemma lexes_to_syntax (ch : ascii) :
  is_whitespace ch = false -> is_syntax ch = true -> lexes_to [ch] [tSyntax ch] false.
Proof.
  unfold is_whitespace, is_syntax. intros Hws Hsy tokens rest r _ [fuel H] _.
  exists (S fuel). cbn [app lex_loop]. now rewrite Hws, Hsy.
Qed.

Lemma lexes_to_literal (items : list StrItem) :
  forallb item_ok items = true ->
  lexes_to (QUOTATION_MARK :: literal_chars items ++ [QUOTATION_MARK])
           [tString (literal_decoded items)] false.
Proof.
  intros Hok tokens rest r _ [fuel H] Hf.
  exists (S (fuel + S (List.length items))).
  cbn [app]. rewrite <- app_assoc. cbn [app].
  rewrite lex_loop_literal by (trivial; lia).
  eapply lex_loop_mono; [exact H | exact Hf | lia].
Qed.

Lemma lexes_to_boolean (b : bool) :
  lexes_to (list_ascii_of_string (if b then "true" else "false")) [tBoolean b] true.
Proof.
  intros tokens rest r Hd [fuel H] _. specialize (Hd eq_refl).
  exists (S fuel). unfold delimited in Hd. cbn [nth_error] in Hd.
  destruct b; cbn [list_ascii_of_string app lex_loop].
  - replace (includes WHITESPACE_TOKENS.values (Some "t"%char)) with false by reflexivity.
    replace (includes SYNTAX_TOKENS.values (Some "t"%char)) with false by reflexivity.
    replace (Ascii.eqb "t" QUOTATION_MARK) with false by reflexivity.
    cbn [Ascii.eqb Bool.eqb orb]. unfold lexBoolean.
    cbn [firstn string_of_list_ascii nth_error].
    rewrite String.eqb_refl. cbn [andb]. rewrite Hd. cbn [orb bind].
    exact H.
  - replace (includes WHITESPACE_TOKENS.values (Some "f"%char)) with false by reflexivity.
    replace (includes SYNTAX_TOKENS.values (Some "f"%char)) with false by reflexivity.
    replace (Ascii.eqb "f" QUOTATION_MARK) with false by reflexivity.
    replace (Ascii.eqb "f" "t" || Ascii.eqb "f" "f") with true by reflexivity.
    unfold lexBoolean. cbn [firstn string_of_list_ascii nth_error].
    replace (String.eqb "true" "true") with true by reflexivity.
    replace (String.eqb "fals" "true") with false by reflexivity.
    rewrite String.eqb_refl. cbn [andb]. rewrite Hd. cbn [orb bind].
    exact H.
Qed.

Lemma escape_char_printable (c : ascii) :
  Nat.leb 32 (nat_of_ascii c) = true ->
  escape_char c
  = item_chars (if Ascii.eqb c QUOTATION_MARK || Ascii.eqb c REVERSE_SOLIDUS
                then Escape c else Plain c).
Proof.
  intros Hc. apply Nat.leb_le in Hc. unfold escape_char.
  destruct (Ascii.eqb c QUOTATION_MARK) eqn:Hq.
  { apply Ascii.eqb_eq in Hq as ->. reflexivity. }
  destruct (Ascii.eqb c REVERSE_SOLIDUS) eqn:Hb.
  { apply Ascii.eqb_eq in Hb as ->. reflexivity. }
  repeat match goal with
         | |- context [Nat.eqb (nat_of_ascii c) ?k] =>
           destruct (Nat.eqb_spec (nat_of_ascii c) k); [lia|]
         end.
  destruct (Nat.ltb_spec (nat_of_ascii c) 32); [lia | reflexivity].
Qed.

Lemma string_items_chars (s : string) :
  printable s = true ->
  flat_map escape_char (list_ascii_of_string s) = literal_chars (string_items s).
Proof.
  unfold printable, string_items, literal_chars.
  induction (list_ascii_of_string s) as [|c l IH]; intros Hp; [reflexivity|].
  cbn [forallb] in Hp. apply andb_true_iff in Hp as [Hc Hp].
  cbn [flat_map map]. now rewrite IH, escape_char_printable.
Qed.

Lemma string_items_ok (s : string) : forallb item_ok (string_items s) = true.
Proof.
  unfold string_items.
  induction (list_ascii_of_string s) as [|c l IH]; [reflexivity|].
  cbn [map forallb]. rewrite IH, andb_true_r.
  destruct (Ascii.eqb c QUOTATION_MARK) eqn:Hq; [reflexivity|].
  destruct (Ascii.eqb c REVERSE_SOLIDUS) eqn:Hb; [reflexivity|].
  cbn [orb item_ok]. now rewrite Hq, Hb.
Qed.

Lemma string_items_decoded (s : string) : literal_decoded (string_items s) = s.
Proof.
  unfold literal_decoded, string_items. rewrite map_map.
  rewrite <- (string_of_list_ascii_of_string s) at 2. f_equal.
  rewrite <- (map_id (list_ascii_of_string s)) at 2.
  apply map_ext. intros c. now destruct (_ || _).
Qed.

Lemma lexes_to_string (s : string) :
  printable s = true -> lexes_to (encode_string s) [tString s] false.
Proof.
  intros Hp. unfold encode_string. rewrite string_items_chars by exact Hp.
  rewrite <- (string_items_decoded s) at 2.
  apply lexes_to_literal, string_items_ok.
Qed.

Lemma delimited_comma (cs rest : list ascii) :
  delimited ((SYNTAX_TOKENS.VALUE_SEPARATOR :: cs) ++ rest) = true.
Proof. reflexivity. Qed.

Lemma lexes_to_comma : lexes_to [SYNTAX_TOKENS.VALUE_SEPARATOR]
                                [tSyntax SYNTAX_TOKENS.VALUE_SEPARATOR] false.
Proof. now apply lexes_to_syntax. Qed.

(** Parts that are read back one by one are read back when written with
    commas between them. *)
Lemma lexes_to_comma_tail (parts : list (list ascii * list Token * bool)) :
  Forall (fun p => lexes_to (fst (fst p)) (snd (fst p)) (snd p)) parts ->
  lexes_to
    (flat_map (fun p' => SYNTAX_TOKENS.VALUE_SEPARATOR :: p') (map (fun p => fst (fst p)) parts))
    (flat_map (fun p' => tSyntax SYNTAX_TOKENS.VALUE_SEPARATOR :: p')
              (map (fun p => snd (fst p)) parts))
    true
  /\ forall rest,
      delimited rest = true ->
      delimited (flat_map (fun p' => SYNTAX_TOKENS.VALUE_SEPARATOR :: p')
                          (map (fun p => fst (fst p)) parts) ++ rest) = true.
Proof.
  induction parts as [|[[cs toks] b] parts IH]; intros HP.
  - split; [apply lexes_to_nil | trivial].
  - inversion HP as [|? ? Hp HP']; subst. cbn [fst snd] in Hp.
    destruct (IH HP') as [Htail Hdelim].
    split; [|intros rest _; reflexivity].
    cbn [map flat_map fst snd].
    change (lexes_to
              ([SYNTAX_TOKENS.VALUE_SEPARATOR]
                 ++ cs ++ flat_map (fun p' => SYNTAX_TOKENS.VALUE_SEPARATOR :: p')
                                   (map (fun p => fst (fst p)) parts))
              ([tSyntax SYNTAX_TOKENS.VALUE_SEPARATOR]
                 ++ toks ++ flat_map (fun p' => tSyntax SYNTAX_TOKENS.VALUE_SEPARATOR :: p')
                                     (map (fun p => snd (fst p)) parts))
              true).
    apply (lexes_to_app (b1 := false) (b2 := true)); [apply lexes_to_comma | |].
    + apply (lexes_to_app (b1 := b) (b2 := true)); [exact Hp | exact Htail |].
      intros rest Hd. split; [intros _; apply Hdelim | ]; now apply Hd.
    + intros rest Hd. split; [discriminate | exact Hd].
Qed.

Lemma lexes_to_comma_separated (parts : list (list ascii * list Token * bool)) :
  Forall (fun p => lexes_to (fst (fst p)) (snd (fst p)) (snd p)) parts ->
  lexes_to (comma_separated (map (fun p => fst (fst p)) parts))
           (comma_separated_tokens (map (fun p => snd (fst p)) parts)) true.
Proof.
  destruct parts as [|[[cs toks] b] parts]; intros HP; [apply lexes_to_nil|].
  inversion HP as [|? ? Hp HP']; subst. cbn [fst snd] in Hp.
  destruct (lexes_to_comma_tail HP') as [Htail Hdelim].
  cbn [map comma_separated comma_separated_tokens fst snd].
  apply (lexes_to_app (b1 := b) (b2 := true)); [exact Hp | exact Htail |].
  intros rest Hd. split; [intros _; apply Hdelim | ]; now apply Hd.
Qed.

(** A container: an opening bracket, the parts, a closing bracket. *)
Lemma lexes_to_container (opening closing : ascii) (body : list ascii)
      (toks : list Token) :
  is_whitespace opening = false -> is_syntax opening = true ->
  is_whitespace closing = false -> is_syntax closing = true ->
  delimited [closing] = true ->
  lexes_to body toks true ->
  lexes_to (opening :: body ++ [closing])
           (tSyntax opening :: toks ++ [tSyntax closing]) false.
Proof.
  intros Ho1 Ho2 Hc1 Hc2 Hd Hbody.
  change (lexes_to ([opening] ++ body ++ [closing])
                   ([tSyntax opening] ++ toks ++ [tSyntax closing]) false).
  apply (lexes_to_app (b1 := false) (b2 := false)); [now apply lexes_to_syntax | |].
  - apply (lexes_to_app (b1 := true) (b2 := false));
      [exact Hbody | now apply lexes_to_syntax |].
    intros rest _. split; [intros _ | discriminate].
    unfold delimited in *. cbn [app nth_error] in *. exact Hd.
  - intros rest _. split; discriminate.
Qed.

Lemma separated_array_tokens (elems : list Json) :
  flat_map elem_tokens (mark_separators (map separated elems))
  = comma_separated_tokens (map (fun e => tokens_of (separated e)) elems).
Proof.
  destruct elems as [|e elems]; [reflexivity|].
  cbn [map mark_separators flat_map elem_tokens sep_tokens app comma_separated_tokens].
  f_equal. induction elems as [|e' elems IH]; [reflexivity|].
  cbn [map flat_map elem_tokens sep_tokens app]. now rewrite IH.
Qed.

Lemma separated_object_tokens (members : list (string * Json)) :
  flat_map member_tokens
    (mark_separators (map (fun m => let '(k, v) := m in (k, separated v)) members))
  = comma_separated_tokens
      (map (fun m => let '(k, v) := m in
                     tString k :: tSyntax SYNTAX_TOKENS.NAME_SEPARATOR
                       :: tokens_of (separated v))
           members).
Proof.
  destruct members as [|[k v] members]; [reflexivity|].
  cbn [map mark_separators flat_map member_tokens sep_tokens app comma_separated_tokens].
  do 3 f_equal. induction members as [|[k' v'] members IH]; [reflexivity|].
  cbn [map flat_map member_tokens sep_tokens app]. now rewrite IH.
Qed.

(** The encoding of a tree without control characters is read back as the
    tokens of its rendering with all separators; after a bare boolean a
    delimiter has to follow. *)
Lemma lex_encode (j : Json) :
  lexable j = true -> lexes_to (encode j) (tokens_of (separated j)) (is_boolean j).
Proof.
  induction j as [s | b | elems IH | members IH] using Json_induction; intros Hl.
  - now apply lexes_to_string.
  - apply lexes_to_boolean.
  - cbn [lexable] in Hl. cbn [encode separated tokens_of is_boolean].
    change (flat_map _ (mark_separators (map separated elems)))
      with (flat_map elem_tokens (mark_separators (map separated elems))).
    rewrite separated_array_tokens.
    apply lexes_to_container; try reflexivity.
    pose (parts := map (fun e => (encode e, tokens_of (separated e), is_boolean e)) elems).
    replace (map encode elems) with (map (fun p => fst (fst p)) parts)
      by (unfold parts; now rewrite map_map).
    replace (map (fun e => tokens_of (separated e)) elems)
      with (map (fun p => snd (fst p)) parts)
      by (unfold parts; now rewrite map_map).
    apply lexes_to_comma_separated. unfold parts. clear parts.
    induction elems as [|e elems IHl]; [constructor|].
    inversion IH as [|? ? He IH']; subst.
    cbn [forallb] in Hl. apply andb_true_iff in Hl as [Hle Hl].
    cbn [map]. constructor; [now apply He | now apply IHl].
  - cbn [lexable] in Hl. cbn [encode separated tokens_of is_boolean].
    change (flat_map _ (mark_separators _))
      with (flat_map member_tokens
              (mark_separators
                 (map (fun m => let '(k, v) := m in (k, separated v)) members))).
    rewrite separated_object_tokens.
    apply lexes_to_container; try reflexivity.
    pose (parts := map (fun m : string * Json =>
                          let '(k, v) := m in
                          (encode_string k ++ SYNTAX_TOKENS.NAME_SEPARATOR :: encode v,
                           tString k :: tSyntax SYNTAX_TOKENS.NAME_SEPARATOR
                             :: tokens_of (separated v),
                           is_boolean v)) members).
    replace (map _ members) with (map (fun p => fst (fst p)) parts) at 1
      by (unfold parts; rewrite map_map; apply map_ext; now intros [k v]).
    replace (map _ members) with (map (fun p => snd (fst p)) parts)
      by (unfold parts; rewrite map_map; apply map_ext; now intros [k v]).
    apply lexes_to_comma_separated. unfold parts. clear parts.
    induction members as [|[k v] members IHl]; [constructor|].
    inversion IH as [|? ? Hv IH']; subst. cbn [snd] in Hv.
    cbn [forallb] in Hl. apply andb_true_iff in Hl as [Hlm Hl].
    apply andb_true_iff in Hlm as [Hk Hlv].
    cbn [map]. constructor; [|now apply IHl]. cbn [fst snd].
    change (lexes_to (encode_string k ++ [SYNTAX_TOKENS.NAME_SEPARATOR] ++ encode v)
              ([tString k] ++ [tSyntax SYNTAX_TOKENS.NAME_SEPARATOR]
                 ++ tokens_of (separated v)) (is_boolean v)).
    apply (lexes_to_app (b1 := false) (b2 := is_boolean v));
      [now apply lexes_to_string | |].
    + apply (lexes_to_app (b1 := false) (b2 := is_boolean v));
        [now apply lexes_to_syntax | now apply Hv |].
      intros rest Hd. split; [discriminate | exact Hd].
    + intros rest Hd. split; [discriminate | exact Hd].
Qed.

Lemma Json_shape_separated (j : Json) : shape (separated j) = j.
Proof.
  induction j as [s | b | elems IH | members IH] using Json_induction;
    cbn [separated shape]; try reflexivity.
  - f_equal. destruct elems as [|e elems]; [reflexivity|].
    inversion IH as [|? ? He IH']; subst.
    cbn [map mark_separators]. rewrite He. f_equal.
    rewrite !map_map. rewrite <- (map_id elems) at 2.
    apply map_ext_Forall. exact IH'.
  - f_equal. destruct members as [|[k v] members]; [reflexivity|].
    inversion IH as [|? ? Hv IH']; subst. cbn [snd] in Hv.
    cbn [map mark_separators]. rewrite Hv. f_equal.
    rewrite !map_map. rewrite <- (map_id members) at 2.
    apply map_ext_Forall. eapply Forall_impl; [|exact IH'].
    intros [k' v'] H. cbn [snd] in H. now rewrite H.
Qed.

(* ------------------------------------------------------------------ *)
(** ** Objects built by assignment *)

Section Props.
Context {V : Type}.

Lemma props_get_set (k k' : string) (v : V) (ps : list (string * V)) :
  props_get k (props_set k' v ps) = if String.eqb k' k then Some v else props_get k ps.
Proof.
  induction ps as [|[k0 v0] ps IH]; cbn [props_set props_get].
  - reflexivity.
  - destruct (String.eqb k0 k') eqn:E0; cbn [props_get].
    + apply String.eqb_eq in E0 as ->. now destruct (String.eqb k' k).
    + rewrite IH. destruct (String.eqb k0 k) eqn:E1; [|reflexivity].
      apply String.eqb_eq in E1 as ->.
      destruct (String.eqb k' k) eqn:E2; [|reflexivity].
      apply String.eqb_eq in E2 as ->. now rewrite String.eqb_refl in E0.
Qed.

Lemma props_get_app (k : string) (ps qs : list (string * V)) :
  props_get k (ps ++ qs)
  = match props_get k ps with Some v => Some v | None => props_get k qs end.
Proof.
  induction ps as [|[k0 v0] ps IH]; cbn [app props_get]; [reflexivity|].
  now destruct (String.eqb k0 k).
Qed.

Lemma props_set_keys (k : string) (v : V) (ps : list (string * V)) :
  map fst (props_set k v ps)
  = if existsb (String.eqb k) (map fst ps) then map fst ps else map fst ps ++ [k].
Proof.
  induction ps as [|[k0 v0] ps IH]; cbn [props_set map fst existsb app]; [reflexivity|].
  rewrite (String.eqb_sym k k0).
  destruct (String.eqb k0 k); cbn [orb map fst]; [reflexivity|].
  rewrite IH. now destruct (existsb _ _).
Qed.
End Props.

Lemma props_get_map (k : string) (members : list (string * Json)) :
  props_get k (map (fun m => let '(k', v) := m in (k', json_value v)) members)
  = option_map json_value (props_get k members).
Proof.
  induction members as [|[k0 v0] members IH]; cbn [map props_get option_map];
    [reflexivity|].
  now destruct (String.eqb k0 k).
Qed.

Lemma obj_assign_props (k : string) (v : Value) (o : OutputObject Value) :
  props (obj_assign k v o)
  = if not_proto k then props_set k v (props o) else props o.
Proof.
  unfold obj_assign, not_proto.
  destruct (String.eqb k "__proto__"); cbn [negb]; [|reflexivity].
  now destruct (is_object v).
Qed.

(** After the assignments, a key other than [__proto__] holds the value
    assigned to it last. *)
Lemma assignments_get (k : string) (kvs : list (string * Value)) :
  not_proto k = true ->
  forall o,
    props_get k (props (fold_left (fun o m => obj_assign (fst m) (snd m) o) kvs o))
    = match props_get k (rev kvs) with
      | Some v => Some v
      | None => props_get k (props o)
      end.
Proof.
  intros Hk. induction kvs as [|[k0 v0] kvs IH]; intros o; cbn [fold_left rev fst snd].
  - reflexivity.
  - rewrite IH, props_get_app, obj_assign_props. cbn [props_get].
    destruct (props_get k (rev kvs)); [reflexivity|].
    destruct (not_proto k0) eqn:Hp.
    + rewrite props_get_set. now destruct (String.eqb k0 k).
    + destruct (String.eqb k0 k) eqn:E; [|reflexivity].
      apply String.eqb_eq in E as ->. congruence.
Qed.

(** After the assignments, the properties stand in the order in which
    their keys were first assigned. *)
Lemma assignments_keys (kvs : list (string * Value)) :
  forall o,
    map fst (props (fold_left (fun o m => obj_assign (fst m) (snd m) o) kvs o))
    = fold_left (fun acc k => if existsb (String.eqb k) acc then acc else acc ++ [k])
        (filter not_proto (map fst kvs)) (map fst (props o)).
Proof.
  induction kvs as [|[k0 v0] kvs IH]; intros o; cbn [fold_left map filter fst snd].
  - reflexivity.
  - rewrite IH, obj_assign_props.
    destruct (not_proto k0); cbn [fold_left]; [|reflexivity].
    now rewrite props_set_keys.
Qed.

Lemma index_keys_none (ks : list string) :
  forallb (fun k => negb (is_index_key k)) ks = true ->
  index_keys ks = [] /\ filter (fun k => negb (is_index_key k)) ks = ks.
Proof.
  induction ks as [|k ks IH]; cbn [forallb index_keys filter]; intros H; [now split|].
  apply andb_true_iff in H as [Hk H]. destruct (IH H) as [-> ->].
  rewrite Hk. unfold is_index_key in Hk. now destruct (array_index k).
Qed.

Lemma keys_by_first_occurrence_forallb (P : string -> bool) (ks : list string) :
  forallb P ks = true -> forallb P (keys_by_first_occurrence ks) = true.
Proof.
  unfold keys_by_first_occurrence.
  assert (H : forall acc, forallb P acc = true -> forallb P ks = true ->
                          forallb P (fold_left
                                       (fun acc k => if existsb (String.eqb k) acc
                                                     then acc else acc ++ [k]) ks acc) = true).
  { induction ks as [|k ks IH]; intros acc Hacc Hks; [exact Hacc|].
    cbn [forallb] in Hks. apply andb_true_iff in Hks as [Hk Hks].
    cbn [fold_left]. apply IH; [|exact Hks].
    destruct (existsb _ acc); [exact Hacc|].
    rewrite forallb_app, Hacc. cbn. now rewrite Hk. }
  now apply H.
Qed.

Lemma forallb_filter_sub (A : Type) (P q : A -> bool) (l : list A) :
  forallb P l = true -> forallb P (filter q l) = true.
Proof.
  induction l as [|x l IH]; cbn [forallb filter]; [trivial|].
  intros H. apply andb_true_iff in H as [Hx H].
  destruct (q x); cbn [forallb]; [rewrite Hx|]; now apply IH.
Qed.

Lemma build_object_assigned (members : list (string * Json)) :
  assigned members
    (build_object (map (fun m => let '(k, v) := m in (k, json_value v)) members)).
Proof.
  pose (kvs := map (fun m : string * Json => let '(k, v) := m in (k, json_value v)) members).
  assert (Hkeys : map fst kvs = map fst members).
  { unfold kvs. rewrite map_map. apply map_ext. now intros [k v]. }
  assert (Horder : map fst (props (build_object kvs))
                   = keys_by_first_occurrence (filter not_proto (map fst members))).
  { unfold build_object. now rewrite assignments_keys, Hkeys. }
  fold kvs. repeat split.
  - intros k Hk. unfold own_get, build_object, last_value.
    rewrite assignments_get by exact Hk. cbn [empty_object props props_get].
    unfold kvs. rewrite <- map_rev, props_get_map.
    now destruct (option_map _ _).
  - exact Horder.
  - intros Hidx. unfold own_keys. rewrite Horder.
    destruct (@index_keys_none
                (keys_by_first_occurrence (filter not_proto (map fst members))))
      as [-> ->]; [|reflexivity].
    now apply keys_by_first_occurrence_forallb, forallb_filter_sub.
Qed.

Lemma props_get_In (V : Type) (k : string) (v : V) (ps : list (string * V)) :
  props_get k ps = Some v -> In (k, v) ps.
Proof.
  induction ps as [|[k0 v0] ps IH]; cbn [props_get]; [discriminate|].
  destruct (String.eqb k0 k) eqn:E.
  - apply String.eqb_eq in E as ->. intros [= ->]. now left.
  - intros H. right. now apply IH.
Qed.

Lemma props_get_absent (V : Type) (k : string) (ps : list (string * V)) :
  forallb (fun k' => negb (String.eqb k' k)) (map fst ps) = true ->
  props_get k ps = None.
Proof.
  induction ps as [|[k0 v0] ps IH]; cbn [map fst forallb props_get]; [reflexivity|].
  intros H. apply andb_true_iff in H as [Hk H]. apply negb_true_iff in Hk.
  rewrite Hk. now apply IH.
Qed.

Lemma not_proto_false (k : string) : not_proto k = false -> k = "__proto__"%string.
Proof.
  unfold not_proto. intros H. apply negb_false_iff in H. now apply String.eqb_eq.
Qed.

(** The value of a tree without a [__proto__] key is equal to the tree. *)
Lemma json_value_equal (j : Json) : no_proto_keys j = true -> tree_equal j (json_value j).
Proof.
  induction j as [s | b | elems IH | members IH] using Json_induction; intros Hn.
  - constructor.
  - constructor.
  - cbn [json_value]. constructor. cbn [no_proto_keys] in Hn.
    induction elems as [|e elems IHl]; [constructor|].
    inversion IH as [|? ? He IH']; subst.
    cbn [forallb] in Hn. apply andb_true_iff in Hn as [Hne Hn].
    cbn [map]. constructor; [now apply He | now apply IHl].
  - cbn [json_value]. constructor. intros k.
    destruct (build_object_assigned members) as (Hget & Hkeys & _).
    cbn [no_proto_keys] in Hn.
    destruct (not_proto k) eqn:Hk.
    + rewrite (Hget k Hk). destruct (last_value k members) as [j'|] eqn:Hl;
        cbn [option_map]; constructor.
      unfold last_value in Hl. apply props_get_In in Hl.
      apply (proj2 (in_rev _ _)) in Hl.
      rewrite Forall_forall in IH. apply (IH (k, j') Hl).
      rewrite forallb_forall in Hn. specialize (Hn (k, j') Hl).
      now apply andb_true_iff in Hn as [_ Hn].
    + apply not_proto_false in Hk as ->.
      assert (H1 : last_value "__proto__" members = None).
      { unfold last_value. apply props_get_absent.
        apply forallb_forall. intros k' Hin.
        apply in_map_iff in Hin as ([k0 v0] & <- & Hin).
        apply (proj2 (in_rev _ _)) in Hin.
        rewrite forallb_forall in Hn. specialize (Hn (k0, v0) Hin).
        now apply andb_true_iff in Hn as [Hn _]. }
      assert (H2 : own_get (build_object
                              (map (fun m => let '(k, v) := m in (k, json_value v)) members))
                           "__proto__" = None).
      { unfold own_get. apply props_get_absent. rewrite Hkeys.
        apply (keys_by_first_occurrence_forallb not_proto), List.forallb_filter. }
      rewrite H1, H2. constructor.
Qed.

(* ------------------------------------------------------------------ *)
(** ** Encoding a tree and parsing the text *)

Lemma lex_stringify (j : Json) :
  lexable j = true -> is_boolean j = false ->
  exists fuel, lex fuel (stringify j) = Ok (tokens_of (separated j)).
Proof.
  intros Hl Hb.
  destruct (@lex_encode j Hl [] [] (Ok (tokens_of (separated j)))) as [fuel H].
  - rewrite Hb. discriminate.
  - now exists 1.
  - fin.
  - exists fuel. unfold lex, stringify.
    rewrite list_ascii_of_string_of_list_ascii. now rewrite app_nil_r in H.
Qed.

Lemma parse_of_tokens (input : string) (tokens : list Token) (v : Value) :
  (exists fuel, lex fuel input = Ok tokens) ->
  (exists fuel, parseTokens fuel tokens = Ok ([], v)) ->
  returns input v.
Proof.
  intros [f1 H1] [f2 H2]. exists (Nat.max f1 f2). unfold parse.
  erewrite lex_mono; [| exact H1 | fin | apply Nat.le_max_l]. cbn [bind].
  erewrite parseTokens_Ok_mono; [| exact H2 | apply Nat.le_max_r]. reflexivity.
Qed.

Lemma roundtrips_inv (j : Json) :
  roundtrips j = true ->
  is_boolean j = false /\ lexable j = true /\ parser_wf (separated j) = true.
Proof.
  unfold roundtrips. intros H. apply andb_true_iff in H as [H Hwf].
  apply andb_true_iff in H as [Hb Hl]. apply negb_true_iff in Hb. now repeat split.
Qed.

(** The text of a tree that fulfils [roundtrips] parses to the value of
    the tree. *)
Lemma stringify_returns (j : Json) :
  roundtrips j = true -> returns (stringify j) (json_value j).
Proof.
  intros H. apply roundtrips_inv in H as (Hb & Hl & Hwf).
  apply parse_of_tokens with (tokens := tokens_of (separated j)).
  - now apply lex_stringify.
  - destruct (parser_rebuilds (separated j) Hwf []) as [fuel Hp].
    exists fuel. now rewrite app_nil_r, Json_shape_separated in Hp.
Qed.

Lemma returns_unique (input : string) (v v' : Value) :
  returns input v -> returns input v' -> v = v'.
Proof.
  intros [f1 H1] [f2 H2].
  assert (H : parse f1 input = parse f2 input)
    by (apply parse_deterministic; [rewrite H1 | rewrite H2]; discriminate).
  congruence.
Qed.

(** C3, as amended. A tree that is not a bare boolean, has no control
    character in its strings and keys, and whose rendering with all
    separators is well formed for the parser (no empty array or object, no
    string that is an opening bracket, no array element that is one of the
    six structural characters, no later key that is a closing brace) is
    given back by [parse] from its reference encoding: the call returns,
    and what it returns is the value of the tree, with the elements of an
    array in their order and an object built by assigning its members in
    their order. When no key is [__proto__] this value is equal to the tree,
    the order of the elements kept, the order of the keys ignored and a
    repeated key holding its last value. *)
Theorem encode_parse_roundtrip (j : Json) :
  roundtrips j = true ->
  returns (stringify j) (json_value j) /\
  (forall fuel r, parse fuel (stringify j) = r -> final r -> r = Ok (json_value j)) /\
  (no_proto_keys j = true -> tree_equal j (json_value j)).
Proof.
  intros H. pose proof (stringify_returns j H) as Hret.
  split; [exact Hret|]. split; [|apply json_value_equal].
  intros fuel r Hr Hf. destruct Hret as [fuel' Hret].
  rewrite <- Hr, <- Hret. apply parse_deterministic; [now rewrite Hr | rewrite Hret; fin].
Qed.

Lemma encode_parse_roundtrip_witness :
  roundtrips tree_nested = true /\
  returns (stringify tree_nested) (json_value tree_nested) /\
  tree_equal tree_nested (json_value tree_nested).
Proof.
  destruct (encode_parse_roundtrip tree_nested eq_refl) as (Hret & _ & Heq).
  split; [reflexivity|]. split; [exact Hret|]. apply Heq. reflexivity.
Defined.

(** The reference encoder writes a line feed as a backslash and the letter
    n; the lexer keeps the letter, and the array that [parse] returns is not
    equal to the tree. *)
Lemma escaped_newline_not_restored :
  roundtrips tree_escaped_newline = false /\
  stringify tree_escaped_newline = ("[" ++ quoted (bs ++ "n") ++ "]")%string /\
  returns (stringify tree_escaped_newline) (VArray [VString "n"]) /\
  ~ tree_equal tree_escaped_newline (VArray [VString "n"]) /\
  ~ returns (stringify tree_escaped_newline) (json_value tree_escaped_newline).
Proof.
  assert (H : returns (stringify tree_escaped_newline) (VArray [VString "n"]))
    by (exists 10; reflexivity).
  repeat split; trivial.
  - intros Heq. inversion Heq as [| | ? ? HF |]; subst.
    inversion HF as [|? ? ? ? He _]; subst. inversion He.
  - intros H'. pose proof (returns_unique H H') as Heq. discriminate Heq.
Qed.

(* ------------------------------------------------------------------ *)
(** ** Repeated keys *)

(** C8, as amended. An object whose keys repeat is parsed without any
    error about uniqueness, from its reference encoding and from any input
    whose tokens are a well-formed rendering of it; in the result every key
    other than [__proto__] holds the value of its last occurrence, and the
    properties stand in the order in which their keys occur first; this is
    also the order in which the keys are enumerated when none of them is an
    array index. *)
Theorem repeated_key_keeps_last_value :
  (forall members,
     roundtrips (JObject members) = true ->
     exists o, returns (stringify (JObject members)) (VObject o) /\ assigned members o) /\
  (forall d members input,
     shape d = JObject members ->
     parser_wf d = true ->
     (exists fuel, lex fuel input = Ok (tokens_of d)) ->
     exists o, returns input (VObject o) /\ assigned members o).
Proof.
  split.
  - intros members Hr. eexists. split; [|apply build_object_assigned].
    apply (stringify_returns (JObject members) Hr).
  - intros d members input Hshape Hwf Hlex. eexists.
    split; [|apply build_object_assigned].
    apply parse_of_tokens with (tokens := tokens_of d); [exact Hlex|].
    destruct (parser_rebuilds d Hwf []) as [fuel Hp].
    exists fuel. now rewrite app_nil_r, Hshape in Hp.
Qed.

Lemma repeated_key_keeps_last_value_witness :
  roundtrips tree_repeated_key = true /\
  (exists o,
     returns (stringify tree_repeated_key) (VObject o) /\
     own_get o "a" = Some (VString "z") /\
     own_keys o = ["a"; "b"]%string) /\
  (exists o,
     returns input_repeated_key_spaces (VObject o) /\
     map fst (props o) = ["a"; "b"]%string).
Proof.
  destruct repeated_key_keeps_last_value as [Henc Htok].
  split; [reflexivity|]. split.
  - destruct (Henc [("a", JString "x"); ("b", JString "y"); ("a", JString "z")]%string
                eq_refl) as (o & Hret & Hget & Hprops & Hown).
    exists o. repeat split.
    + exact Hret.
    + apply (Hget "a"%string). reflexivity.
    + apply Hown. reflexivity.
  - destruct (Htok doc_repeated_key
                [("a", JString "x"); ("b", JString "y"); ("a", JString "z")]%string
                input_repeated_key_spaces eq_refl eq_refl
                (ex_intro _ 40 eq_refl)) as (o & Hret & Hget & Hprops & Hown).
    exists o. split; [exact Hret | exact Hprops].
Defined.

(** In the object parsed from three members with keys a, b, a the keys are
    enumerated as a, b, the order of their first occurrence; the order of
    their last occurrence would be b, a. A member named [__proto__] is not
    stored at all. *)
Lemma repeated_key_keeps_first_position :
  (exists o,
     returns (stringify tree_repeated_key) (VObject o) /\
     own_keys o = ["a"; "b"]%string /\
     own_keys o <> keys_by_last_occurrence ["a"; "b"; "a"]%string) /\
  (exists o,
     returns (stringify tree_proto_key) (VObject o) /\
     own_get o "__proto__" = None /\
     last_value "__proto__" [("__proto__", JString "x"); ("a", JString "y")]%string
     = Some (JString "x")).
Proof.
  split.
  - exists (mkObject None [("a", VString "z"); ("b", VString "y")]%string).
    repeat split; [exists 20; reflexivity | discriminate].
  - exists (mkObject None [("a", VString "y")]%string).
    repeat split. exists 20. reflexivity.
Qed.

(* ------------------------------------------------------------------ *)
(** ** Value-separators left out *)

Lemma element_ok_separated (d : Doc) : element_ok (separated (shape d)) = element_ok d.
Proof. now destruct d. Qed.

Lemma later_key_ok_separated (c : bool) (k : string) :
  later_key_ok c k = true -> later_key_ok true k = true.
Proof.
  unfold later_key_ok. intros H. apply andb_true_iff in H as [H _].
  now rewrite H.
Qed.

Lemma wf_elems_separated (elems : list (bool * Doc)) (c : bool) :
  Forall (fun p => parser_wf (snd p) = true ->
                   parser_wf (separated (shape (snd p))) = true) elems ->
  forallb (fun p => let '(_, e) := p in parser_wf e && element_ok e) elems = true ->
  forallb (fun p => let '(_, e) := p in parser_wf e && element_ok e)
    (map (pair c) (map separated (map (fun p => let '(_, e) := p in shape e) elems)))
  = true.
Proof.
  induction elems as [|[c' e] elems IH]; intros HP Hwf; [reflexivity|].
  inversion HP as [|? ? He HP']; subst. cbn [snd] in He.
  cbn [forallb] in Hwf. apply andb_true_iff in Hwf as [Hwfe Hwf].
  apply andb_true_iff in Hwfe as [Hwfe Hoke].
  cbn [map forallb]. rewrite (He Hwfe), element_ok_separated, Hoke.
  now apply IH.
Qed.

Lemma wf_members_separated (members : list (bool * (string * Doc))) (c : bool) :
  Forall (fun p => parser_wf (snd (snd p)) = true ->
                   parser_wf (separated (shape (snd (snd p)))) = true) members ->
  forallb (fun p => let '(_, (_, v)) := p in parser_wf v) members = true ->
  forallb (fun p => let '(_, (_, v)) := p in parser_wf v)
    (map (pair c)
         (map (fun m => let '(k, v) := m in (k, separated v))
              (map (fun p => let '(_, (k, v)) := p in (k, shape v)) members)))
  = true.
Proof.
  induction members as [|[c' [k v]] members IH]; intros HP Hwf; [reflexivity|].
  inversion HP as [|? ? Hv HP']; subst. cbn [snd] in Hv.
  cbn [forallb] in Hwf. apply andb_true_iff in Hwf as [Hwfv Hwf].
  cbn [map forallb]. rewrite (Hv Hwfv). now apply IH.
Qed.

Lemma later_keys_separated (members : list (bool * (string * Doc))) :
  forallb (fun p => let '(c, (k, _)) := p in later_key_ok c k) members = true ->
  forallb (fun p => let '(c, (k, _)) := p in later_key_ok c k)
    (map (pair true)
         (map (fun m => let '(k, v) := m in (k, separated v))
              (map (fun p => let '(_, (k, v)) := p in (k, shape v)) members)))
  = true.
Proof.
  induction members as [|[c [k v]] members IH]; intros H; [reflexivity|].
  cbn [forallb] in H. apply andb_true_iff in H as [Hk H].
  cbn [map forallb]. rewrite (later_key_ok_separated _ _ Hk). now apply IH.
Qed.

(** Writing every separator of a well-formed rendering gives a well-formed
    rendering. *)
Lemma wf_separated (d : Doc) :
  parser_wf d = true -> parser_wf (separated (shape d)) = true.
Proof.
  induction d as [s | b | elems IH | members IH] using Doc_induction; intros Hwf.
  - exact Hwf.
  - reflexivity.
  - cbn [parser_wf] in Hwf. apply andb_true_iff in Hwf as [Hfirst Hwf].
    apply first_unseparated_inv in Hfirst as (e & elems' & ->).
    inversion IH as [|? ? He IH']; subst. cbn [snd] in He.
    pose proof Hwf as Hall.
    cbn [forallb] in Hwf. apply andb_true_iff in Hwf as [Hwfe Hwf].
    apply andb_true_iff in Hwfe as [Hwfe Hoke].
    cbn [shape separated map mark_separators parser_wf first_unseparated forallb andb].
    rewrite (He Hwfe), element_ok_separated, Hoke. cbn [andb].
    now apply wf_elems_separated.
  - cbn [parser_wf] in Hwf. apply andb_true_iff in Hwf as [Hwf Hkeys].
    apply andb_true_iff in Hwf as [Hfirst Hwf].
    apply first_unseparated_inv in Hfirst as ([k v] & members' & ->).
    inversion IH as [|? ? Hv IH']; subst. cbn [snd] in Hv.
    cbn [forallb] in Hwf. apply andb_true_iff in Hwf as [Hwfv Hwf].
    cbn [tl] in Hkeys.
    cbn [shape separated map mark_separators parser_wf first_unseparated forallb andb tl].
    rewrite (Hv Hwfv). cbn [andb].
    rewrite wf_members_separated by assumption.
    now apply later_keys_separated.
Qed.

(** C9, as amended. When the tokens of an input are a well-formed rendering
    of a tree in which any of the value-separators between elements or
    between members are left out, [parse] raises no error and returns the
    value of the tree, which is what it returns on an input whose tokens
    are the rendering with every separator written; the same holds of
    [parseTokens] on the two token sequences. So an array of two strings
    and an object of two members written with a blank in place of the comma
    parse to the same values as with the comma. *)
Theorem separators_optional :
  (forall d input input',
     parser_wf d = true ->
     (exists fuel, lex fuel input = Ok (tokens_of d)) ->
     (exists fuel, lex fuel input' = Ok (tokens_of (separated (shape d)))) ->
     returns input (json_value (shape d)) /\ returns input' (json_value (shape d))) /\
  (forall d,
     parser_wf d = true ->
     (exists fuel, parseTokens fuel (tokens_of d) = Ok ([], json_value (shape d))) /\
     (exists fuel,
        parseTokens fuel (tokens_of (separated (shape d)))
        = Ok ([], json_value (shape d)))) /\
  (exists v, returns input_array_spaces v /\ returns input_array_commas v) /\
  (exists v, returns input_object_spaces v /\ returns input_object_commas v).
Proof.
  assert (Htok : forall d,
             parser_wf d = true ->
             (exists fuel, parseTokens fuel (tokens_of d) = Ok ([], json_value (shape d))) /\
             (exists fuel,
                parseTokens fuel (tokens_of (separated (shape d)))
                = Ok ([], json_value (shape d)))).
  { intros d Hwf. split.
    - destruct (parser_rebuilds d Hwf []) as [fuel H].
      exists fuel. now rewrite app_nil_r in H.
    - destruct (parser_rebuilds (separated (shape d)) (wf_separated d Hwf) []) as [fuel H].
      exists fuel. now rewrite app_nil_r, Json_shape_separated in H. }
  split; [|split; [exact Htok|split]].
  - intros d input input' Hwf Hlex Hlex'. destruct (Htok d Hwf) as [Hp Hp'].
    split; eapply parse_of_tokens; eauto.
  - exists (VArray [VString "a"; VString "b"]). split; exists 20; reflexivity.
  - exists (VObject (mkObject None [("a", VString "x"); ("b", VString "y")]%string)).
    split; exists 20; reflexivity.
Qed.

Lemma separators_optional_witness :
  parser_wf doc_mixed = true /\
  returns input_mixed (json_value (shape doc_mixed)) /\
  returns input_mixed_commas (json_value (shape doc_mixed)) /\
  (exists fuel, parseTokens fuel (tokens_of doc_mixed) = Ok ([], json_value (shape doc_mixed))).
Proof.
  destruct separators_optional as (Htext & Htok & _).
  split; [reflexivity|]. split; [|split].
  - apply (Htext doc_mixed input_mixed input_mixed_commas);
      [reflexivity | exists 40; reflexivity | exists 40; reflexivity].
  - apply (Htext doc_mixed input_mixed input_mixed_commas);
      [reflexivity | exists 40; reflexivity | exists 40; reflexivity].
  - apply (Htok doc_mixed). reflexivity.
Defined.

(** After [true] a single blank is not accepted by the lexer, so the array
    of two booleans written with a blank in place of the comma is rejected;
    and a key that is a comma is taken for a value-separator when no
    separator is written before it. *)
Lemma separator_needed_after_true :
  throws "[true false]" LexerUnknownBoolean /\
  returns "[true,false]" (VArray [VBoolean true; VBoolean false]) /\
  throws input_comma_key_spaces ParserObjectMissingEnd /\
  returns input_comma_key_commas
    (VObject (mkObject None [("a", VString "b"); (",", VString "c")]%string)).
Proof.
  repeat split; exists 20; reflexivity.
Qed.

(* ------------------------------------------------------------------ *)
(** ** The parser on arbitrary tokens *)

(** X1. On every token list, well formed or not, [parseTokens],
    [parseObject] and [parseArray] complete, by returning or by throwing,
    within a budget of twice the number of tokens plus two, although both
    loops are written [while (true)]; and all larger budgets give the same
    outcome. *)
Theorem parser_terminates (tokens : list Token) :
  final (parseTokens (2 * List.length tokens + 1) tokens) /\
  final (parseObject (2 * List.length tokens + 1) tokens) /\
  final (parseArray (2 * List.length tokens + 2) tokens) /\
  (forall fuel, 2 * List.length tokens < fuel ->
     parseTokens fuel tokens = parseTokens (2 * List.length tokens + 1) tokens).
Proof.
  repeat split.
  - apply parser_total. lia.
  - apply parser_total. lia.
  - apply parser_total. lia.
  - intros fuel Hfuel. apply approx_final.
    + apply parseTokens_approx. lia.
    + apply parser_total. lia.
Qed.

Lemma separator_step_suffix (t t' : list Token) (v : TokenValue) (closing : ascii)
      (e : Error) :
  (if value_is v SYNTAX_TOKENS.VALUE_SEPARATOR then
     v1 <- tok_value t 1 ;;
     if value_is v1 closing then Throw e else Ok (skipn 1 t)
   else Ok t) = Ok t' ->
  exists taken, t = taken ++ t'.
Proof.
  destruct (value_is v _).
  - intros H. inv_bind H as v1 E1. destruct (value_is _ closing); [discriminate|].
    injection H as <-. exists (firstn 1 t). now rewrite firstn_skipn.
  - intros [= <-]. now exists [].
Qed.

(** What a call leaves is a suffix of what it was given. *)
Lemma parser_suffix (fuel : nat) :
  (forall tokens rest v,
     parseTokens fuel tokens = Ok (rest, v) -> exists taken, tokens = taken ++ rest) /\
  (forall output t rest o,
     parseObject_loop fuel output t = Ok (rest, o) -> exists taken, t = taken ++ rest) /\
  (forall output t rest o,
     parseArray_loop fuel output t = Ok (rest, o) -> exists taken, t = taken ++ rest).
Proof.
  induction fuel as [|fuel (IHt & IHo & IHa)]; [repeat split; discriminate|].
  repeat split.
  - intros tokens rest v H. cbn [parseTokens] in H.
    inv_bind H as v0 E0. apply tok_value_Ok in E0 as (tok & t' & -> & ->).
    cbn [skipn] in H.
    destruct (value_is _ SYNTAX_TOKENS.BEGIN_OBJECT).
    { inv_bind H as [t o] E. injection H as <- <-.
      apply IHo in E as [taken ->]. now exists (tok :: taken). }
    destruct (value_is _ SYNTAX_TOKENS.BEGIN_ARRAY).
    { inv_bind H as [t o] E. injection H as <- <-.
      apply IHa in E as [taken ->]. now exists (tok :: taken). }
    injection H as <- <-. now exists [tok].
  - intros output t rest o H. cbn [parseObject_loop] in H.
    inv_bind H as ty Ety. destruct (negb _); [discriminate|].
    inv_bind H as key Ekey. apply tok_value_Ok in Ekey as (ktok & t1 & -> & ->).
    cbn [skipn] in H. inv_bind H as sep Esep.
    apply tok_value_Ok in Esep as (stok & t2 & -> & ->).
    destruct (negb _); [discriminate|]. cbn [skipn] in H.
    inv_bind H as [t3 v] Ev. apply IHt in Ev as [taken1 ->].
    inv_bind H as v3 E3. inv_bind H as t4 E4.
    apply separator_step_suffix in E4 as [taken2 E4].
    inv_bind H as v4 E5.
    assert (Hrest : exists taken3, t4 = taken3 ++ rest).
    { destruct (value_is _ SYNTAX_TOKENS.END_OBJECT).
      - injection H as <- <-. exists (firstn 1 t4). now rewrite firstn_skipn.
      - now apply IHo in H. }
    destruct Hrest as [taken3 ->]. rewrite E4.
    exists (ktok :: stok :: taken1 ++ taken2 ++ taken3).
    cbn [app]. now rewrite <- !app_assoc.
  - intros output t rest o H. cbn [parseArray_loop] in H.
    inv_bind H as [t1 v] Ev. apply IHt in Ev as [taken1 ->].
    destruct (negb (isArray v) && _); [discriminate|].
    destruct (Nat.eqb _ 0); [discriminate|].
    inv_bind H as v1 E1. inv_bind H as t2 E2.
    apply separator_step_suffix in E2 as [taken2 E2].
    inv_bind H as v2 E3.
    assert (Hrest : exists taken3, t2 = taken3 ++ rest).
    { destruct (value_is _ SYNTAX_TOKENS.END_ARRAY).
      - injection H as <- <-. exists (firstn 1 t2). now rewrite firstn_skipn.
      - now apply IHa in H. }
    destruct Hrest as [taken3 ->]. rewrite E2.
    exists (taken1 ++ taken2 ++ taken3). now rewrite <- !app_assoc.
Qed.

Lemma consumed_to_intro (tokens rest taken : list Token) :
  tokens = taken ++ rest -> List.length rest < List.length tokens ->
  consumed_to tokens rest.
Proof.
  intros -> Hlen. exists taken. split; [|reflexivity].
  intros ->. cbn in Hlen. lia.
Qed.

(** X2. The tokens a call returns beside its value are what is left of its
    argument after a non-empty run of tokens was taken from the front: the
    parser reads its input once, from left to right, and never puts a token
    back or makes one up. *)
Theorem parser_reads_left_to_right (fuel : nat) (tokens rest : list Token) :
  (forall v, parseTokens fuel tokens = Ok (rest, v) -> consumed_to tokens rest) /\
  (forall o, parseObject fuel tokens = Ok (rest, o) -> consumed_to tokens rest) /\
  (forall o, parseArray fuel tokens = Ok (rest, o) -> consumed_to tokens rest).
Proof.
  repeat split.
  - intros v H. destruct (proj1 (parser_suffix fuel) _ _ _ H) as [taken E].
    eapply consumed_to_intro; [exact E|]. now apply (proj1 (parser_consumes fuel)) in H.
  - intros o H. destruct (proj1 (proj2 (parser_suffix fuel)) _ _ _ _ H) as [taken E].
    eapply consumed_to_intro; [exact E|]. now apply (proj1 (proj2 (parser_consumes fuel))) in H.
  - intros o H. destruct (proj2 (proj2 (parser_suffix fuel)) _ _ _ _ H) as [taken E].
    eapply consumed_to_intro; [exact E|]. now apply (proj2 (proj2 (parser_consumes fuel))) in H.
Qed.

(* ------------------------------------------------------------------ *)
(** ** The lexer on arbitrary text *)

(** The loop of [lex] only ever appends to [tokens]: the tokens already
    pushed stand unchanged in front of the new ones. *)
Lemma lex_loop_tokens_prefix (fuel : nat) :
  forall acc tokens chars,
    lex_loop fuel (acc ++ tokens) chars
    = (r <- lex_loop fuel tokens chars ;; Ok (acc ++ r)).
Proof.
  induction fuel as [|fuel IH]; intros acc tokens chars; [reflexivity|].
  cbn [lex_loop]. destruct chars as [|ch rest]; [reflexivity|].
  destruct (includes WHITESPACE_TOKENS.values (Some ch)); [apply IH|].
  destruct (includes SYNTAX_TOKENS.values (Some ch)).
  { rewrite <- app_assoc. apply IH. }
  destruct (Ascii.eqb ch QUOTATION_MARK).
  { destruct (lexString fuel rest) as [[len tok] | e | ]; cbn [bind]; try reflexivity.
    rewrite <- app_assoc. apply IH. }
  destruct (Ascii.eqb ch "t" || Ascii.eqb ch "f"); [|reflexivity].
  destruct (lexBoolean (ch :: rest)) as [tok | e | ]; cbn [bind]; try reflexivity.
  rewrite <- app_assoc. apply IH.
Qed.

Lemma lex_loop_after (fuel : nat) (tokens : list Token) (chars : list ascii) :
  lex_loop fuel tokens chars = (r <- lex_loop fuel [] chars ;; Ok (tokens ++ r)).
Proof.
  rewrite <- (app_nil_r tokens) at 1. apply lex_loop_tokens_prefix.
Qed.

Lemma lexString_loop_token (fuel : nat) :
  forall c n str len tok,
    lexString_loop fuel c n str = Ok (len, tok) -> exists s, tok = tString s.
Proof.
  induction fuel as [|fuel IH]; intros c n str len tok H; [discriminate|].
  cbn [lexString_loop] in H.
  destruct (negb _ && negb _); [inv_bind H as s E; now apply IH in H|].
  destruct (negb _); [|inv_bind H as s E; now apply IH in H].
  injection H as <- <-. now exists str.
Qed.

Lemma forallb_snoc (A : Type) (f : A -> bool) (l : list A) (x : A) :
  forallb f l = true -> f x = true -> forallb f (l ++ [x]) = true.
Proof.
  intros Hl Hx. rewrite forallb_app, Hl. cbn. now rewrite Hx.
Qed.

Lemma lexer_token_syntax (ch : ascii) :
  includes SYNTAX_TOKENS.values (Some ch) = true ->
  lexer_token (mkToken SYNTAX (TVString (str1 ch))) = true.
Proof.
  cbn [includes lexer_token type value]. intros H.
  apply existsb_exists in H as (x & Hin & Hx). apply Ascii.eqb_eq in Hx as ->.
  apply existsb_exists. exists x. split; [exact Hin | apply String.eqb_refl].
Qed.

Lemma lex_loop_lexer_tokens (fuel : nat) :
  forall tokens chars toks,
    forallb lexer_token tokens = true ->
    lex_loop fuel tokens chars = Ok toks ->
    forallb lexer_token toks = true.
Proof.
  induction fuel as [|fuel IH]; intros tokens chars toks Hacc H; [discriminate|].
  cbn [lex_loop] in H. destruct chars as [|ch rest]; [now injection H as <-|].
  destruct (includes WHITESPACE_TOKENS.values (Some ch)); [now apply IH in H|].
  destruct (includes SYNTAX_TOKENS.values (Some ch)) eqn:Hs.
  { apply IH in H; [exact H|]. apply forallb_snoc; [exact Hacc|].
    now apply lexer_token_syntax. }
  destruct (Ascii.eqb ch QUOTATION_MARK).
  { inv_bind H as [len tok] E. apply lexString_loop_token in E as [s ->].
    apply IH in H; [exact H|]. now apply forallb_snoc. }
  destruct (Ascii.eqb ch "t" || Ascii.eqb ch "f"); [|discriminate].
  inv_bind H as tok E. apply lexBoolean_Ok in E as [r [[_ ->] | [_ ->]]];
    (apply IH in H; [exact H|]; now apply forallb_snoc).
Qed.

(** X3. Every token [lex] returns is a structural character tagged
    [SYNTAX], a string tagged [STRING] or a boolean tagged [BOOLEAN]; the
    type [NUMBER], though declared in [TOKEN_TYPES], is never given to a
    token. *)
Theorem lex_builds_three_kinds (fuel : nat) (input : string) (toks : list Token) :
  lex fuel input = Ok toks ->
  forallb lexer_token toks = true /\
  (forall tok, In tok toks -> type tok <> NUMBER).
Proof.
  intros H. apply lex_loop_lexer_tokens in H; [|reflexivity].
  split; [exact H|]. intros tok Hin Hty.
  rewrite forallb_forall in H. specialize (H tok Hin).
  unfold lexer_token in H. rewrite Hty in H. discriminate.
Qed.

Lemma lex_builds_three_kinds_witness :
  lex 20 input_mixed
  = Ok (tokens_of doc_mixed) /\
  forallb lexer_token (tokens_of doc_mixed) = true /\
  (forall tok, In tok (tokens_of doc_mixed) -> type tok <> NUMBER).
Proof.
  split; [reflexivity|].
  apply (@lex_builds_three_kinds 20 input_mixed). reflexivity.
Defined.

Lemma whitespace_not_syntax (c : ascii) : is_whitespace c = true -> is_syntax c = false.
Proof.
  unfold is_whitespace. cbn [includes WHITESPACE_TOKENS.values existsb]. intros H.
  repeat (apply orb_true_iff in H as [H | H];
          [apply Ascii.eqb_eq in H as ->; reflexivity|]).
  discriminate.
Qed.

Lemma lex_loop_structural (chars : list ascii) :
  structural_text chars = true ->
  forall fuel tokens,
    List.length chars < fuel ->
    lex_loop fuel tokens chars = Ok (tokens ++ map tSyntax (filter is_syntax chars)).
Proof.
  unfold structural_text.
  induction chars as [|ch rest IH]; intros Hs fuel tokens Hfuel;
    (destruct fuel as [|fuel]; [cbn in Hfuel; lia|]).
  - cbn. now rewrite app_nil_r.
  - cbn [forallb] in Hs. apply andb_true_iff in Hs as [Hch Hs].
    cbn [List.length] in Hfuel. cbn [lex_loop filter].
    fold (is_whitespace ch). fold (is_syntax ch).
    destruct (is_whitespace ch) eqn:Hw.
    + rewrite (whitespace_not_syntax _ Hw). apply IH; [exact Hs | lia].
    + cbn [orb] in Hch. rewrite Hch. cbn [map].
      rewrite IH; [|exact Hs | lia]. now rewrite <- app_assoc.
Qed.

Lemma length_list_ascii_of_string (s : string) :
  List.length (list_ascii_of_string s) = String.length s.
Proof. induction s as [|c s IH]; cbn; [reflexivity | now rewrite IH]. Qed.

(** X4. On a text made of white space and structural characters only,
    [lex] returns, within a budget of one more than the number of
    characters, one [SYNTAX] token per structural character, in the order
    of the text; white space leaves no token. *)
Theorem lex_structural_text (input : string) :
  structural_text (list_ascii_of_string input) = true ->
  lex (S (String.length input)) input
  = Ok (map tSyntax (filter is_syntax (list_ascii_of_string input))).
Proof.
  intros H. unfold lex. rewrite (lex_loop_structural _ H); [reflexivity|].
  rewrite length_list_ascii_of_string. lia.
Qed.

Lemma lex_structural_text_witness :
  structural_text (list_ascii_of_string "{ : ,] [") = true /\
  lex 9 "{ : ,] ["
  = Ok [tSyntax "{"; tSyntax ":"; tSyntax ","; tSyntax "]"; tSyntax "["].
Proof.
  split; [reflexivity|]. apply (lex_structural_text "{ : ,] ["). reflexivity.
Defined.

(** X5. [lex] never returns more tokens than the text has characters. *)
Theorem lex_token_count (fuel : nat) (input : string) (toks : list Token) :
  lex fuel input = Ok toks -> List.length toks <= String.length input.
Proof.
  intros H. apply lex_loop_token_count in H.
  now rewrite length_list_ascii_of_string in H.
Qed.

Lemma lex_token_count_witness :
  lex 20 input_member = Ok (tokens_of (DObject [(false, ("a", DString "b"))]%string)) /\
  List.length (tokens_of (DObject [(false, ("a", DString "b"))]%string))
  <= String.length input_member.
Proof.
  split; [reflexivity|]. apply (@lex_token_count 20 input_member). reflexivity.
Defined.

(* ------------------------------------------------------------------ *)
(** ** White space *)

(** X6. A text that is empty or made of white space only has no tokens,
    and [parse] fails on it with the [TypeError] that reading [tokens[0]]
    raises, not with an error of the parser. *)
Theorem blank_input_type_error (input : string) :
  forallb is_whitespace (list_ascii_of_string input) = true ->
  lex (S (String.length input)) input = Ok [] /\
  throws input TypeError.
Proof.
  intros H.
  assert (Hlex : lex (S (String.length input)) input = Ok []).
  { unfold lex. rewrite <- length_list_ascii_of_string.
    rewrite <- (app_nil_r (list_ascii_of_string input)) at 2.
    replace (S (List.length (list_ascii_of_string input)))
      with (List.length (list_ascii_of_string input) + 1) by lia.
    now rewrite lex_loop_skips_whitespace. }
  split; [exact Hlex|].
  exists (S (String.length input)). unfold parse. now rewrite Hlex.
Qed.

Lemma blank_input_type_error_witness :
  lex 4 "   " = Ok [] /\ throws "   " TypeError.
Proof. apply (blank_input_type_error "   "). reflexivity. Defined.

Lemma lex_leading_whitespace (ws input : string) (r : Outcome (list Token)) :
  forallb is_whitespace (list_ascii_of_string ws) = true ->
  final r ->
  (exists fuel, lex fuel (ws ++ input) = r) <-> (exists fuel, lex fuel input = r).
Proof.
  intros Hws Hr. unfold lex. rewrite list_ascii_of_string_app.
  split; intros [fuel H].
  - exists fuel. rewrite <- (lex_loop_skips_whitespace _ Hws).
    eapply lex_loop_mono; [exact H | exact Hr | lia].
  - exists (List.length (list_ascii_of_string ws) + fuel).
    now rewrite lex_loop_skips_whitespace.
Qed.

Lemma parse_of_lex (input input' : string) :
  (forall r, final r ->
     (exists fuel, lex fuel input = r) -> (exists fuel, lex fuel input' = r)) ->
  forall r, final r ->
    (exists fuel, parse fuel input = r) -> (exists fuel, parse fuel input' = r).
Proof.
  intros Hlex r Hr [fuel H]. unfold parse in H.
  destruct (lex fuel input) as [tokens | e | ] eqn:E; cbn [bind] in H.
  - destruct (Hlex (Ok tokens)) as [f' E']; [fin | now exists fuel |].
    exists (Nat.max fuel f'). unfold parse.
    erewrite lex_mono; [| exact E' | fin | apply Nat.le_max_r]. cbn [bind].
    rewrite <- H.
    destruct (parseTokens fuel tokens) as [p | e | ] eqn:Ep; cbn [bind].
    + erewrite parseTokens_Ok_mono; [reflexivity | exact Ep | apply Nat.le_max_l].
    + assert (Ha : parseTokens (Nat.max fuel f') tokens = parseTokens fuel tokens).
      { apply approx_final; [apply parseTokens_approx, Nat.le_max_l | rewrite Ep; fin]. }
      now rewrite Ha, Ep.
    + subst r. now elim Hr.
  - destruct (Hlex (Throw e)) as [f' E']; [fin | now exists fuel |].
    exists f'. unfold parse. now rewrite E'.
  - subst r. now elim Hr.
Qed.

(** X7. White space in front of a text changes nothing: [parse] returns
    the same value, or throws the same error, with and without it. *)
Theorem leading_whitespace_ignored (ws input : string) :
  forallb is_whitespace (list_ascii_of_string ws) = true ->
  (forall v, returns (ws ++ input) v <-> returns input v) /\
  (forall e, throws (ws ++ input) e <-> throws input e).
Proof.
  intros Hws.
  assert (H : forall r, final r ->
                ((exists fuel, parse fuel (ws ++ input) = r)
                 <-> (exists fuel, parse fuel input = r))).
  { intros r Hr. split; apply parse_of_lex; try exact Hr;
      intros r' Hr'; now apply lex_leading_whitespace. }
  split; [intros v | intros e]; apply H; fin.
Qed.

Lemma leading_whitespace_ignored_witness :
  (forall v, returns (" " ++ input_member) v <-> returns input_member v) /\
  (forall e, throws (" " ++ input_member) e <-> throws input_member e).
Proof. apply (@leading_whitespace_ignored " " input_member). reflexivity. Defined.

(* ------------------------------------------------------------------ *)
(** ** Text after the first value *)

Lemma returns_of_tokens (input : string) (tokens rest : list Token) (v : Value) :
  (exists fuel, lex fuel input = Ok tokens) ->
  (exists fuel, parseTokens fuel tokens = Ok (rest, v)) ->
  returns input v.
Proof.
  intros [f1 H1] [f2 H2]. exists (Nat.max f1 f2). unfold parse.
  erewrite lex_mono; [| exact H1 | fin | apply Nat.le_max_l]. cbn [bind].
  erewrite parseTokens_Ok_mono; [| exact H2 | apply Nat.le_max_r]. reflexivity.
Qed.

Lemma lex_after_encode (j : Json) (following : string) (r : Outcome (list Token)) :
  lexable j = true -> is_boolean j = false -> final r ->
  (exists fuel, lex_loop fuel (tokens_of (separated j)) (list_ascii_of_string following) = r) ->
  exists fuel, lex fuel (stringify j ++ following) = r.
Proof.
  intros Hl Hb Hr Hlex. unfold lex, stringify.
  rewrite list_ascii_of_string_app, list_ascii_of_string_of_list_ascii.
  apply (lex_encode j Hl [] (list_ascii_of_string following)).
  - rewrite Hb. discriminate.
  - exact Hlex.
  - exact Hr.
Qed.

(** X8. [parse] keeps the first value and never looks at what follows it:
    after the compact text of a tree that survives the round trip, any
    text the lexer accepts may follow and the value of the tree is
    returned all the same; a text the lexer rejects makes [parse] throw the
    error of the lexer. *)
Theorem text_after_value_ignored (j : Json) (following : string) :
  roundtrips j = true ->
  (forall toks, (exists fuel, lex fuel following = Ok toks) ->
     returns (stringify j ++ following) (json_value j)) /\
  (forall e, (exists fuel, lex fuel following = Throw e) ->
     throws (stringify j ++ following) e).
Proof.
  intros Hrt. apply roundtrips_inv in Hrt as (Hb & Hl & Hwf). split.
  - intros toks [fuel Hlex].
    apply returns_of_tokens with (tokens := tokens_of (separated j) ++ toks) (rest := toks).
    + apply lex_after_encode; [exact Hl | exact Hb | fin |].
      exists fuel. unfold lex in Hlex.
      now rewrite lex_loop_after, Hlex.
    + destruct (parser_rebuilds (separated j) Hwf toks) as [f H].
      exists f. now rewrite Json_shape_separated in H.
  - intros e [fuel Hlex].
    destruct (@lex_after_encode j following (Throw e) Hl Hb) as [f H]; [fin | |].
    + exists fuel. unfold lex in Hlex.
      now rewrite lex_loop_after, Hlex.
    + exists f. unfold parse. now rewrite H.
Qed.

Lemma text_after_value_ignored_witness :
  roundtrips (JArray [JString "a"]) = true /\
  returns ("[" ++ quoted "a" ++ "]" ++ "}]:" ++ quoted "b")
          (VArray [VString "a"]) /\
  throws ("[" ++ quoted "a" ++ "]" ++ "1") (LexerInvalidCharacter "1").
Proof.
  split; [reflexivity|].
  destruct (@text_after_value_ignored (JArray [JString "a"]) ("}]:" ++ quoted "b") eq_refl)
    as [Hr _].
  destruct (@text_after_value_ignored (JArray [JString "a"]) "1" eq_refl) as [_ Ht].
  split.
  - apply (Hr [tSyntax "}"; tSyntax "]"; tSyntax ":"; tString "b"]).
    exists 10. reflexivity.
  - apply (Ht (LexerInvalidCharacter "1")). exists 10. reflexivity.
Defined.

(* ------------------------------------------------------------------ *)
(** ** Strings that look like structural characters *)

Lemma forallb_props_set (V : Type) (f : string * V -> bool) (k : string) (v : V)
      (ps : list (string * V)) :
  (forall k', f (k', v) = true) ->
  forallb f ps = true -> forallb f (props_set k v ps) = true.
Proof.
  intros Hv. induction ps as [|[k' v'] ps IH]; cbn [props_set forallb]; intros H.
  - now rewrite Hv.
  - apply andb_true_iff in H as [H1 H2].
    destruct (String.eqb k' k); cbn [forallb].
    + now rewrite Hv, H2.
    + now rewrite H1, IH.
Qed.

Lemma elements_kept_assign (k : string) (v : Value) (o : OutputObject Value) :
  elements_kept v = true -> elements_kept (VObject o) = true ->
  elements_kept (VObject (obj_assign k v o)) = true.
Proof.
  intros Hv Ho. destruct o as [p ps]. unfold obj_assign. cbn [props proto].
  cbn [elements_kept] in Ho. apply andb_true_iff in Ho as [Hp Hps].
  destruct (String.eqb k "__proto__").
  - destruct (is_object v); cbn [elements_kept].
    + now rewrite Hv, Hps.
    + now rewrite Hp, Hps.
  - cbn [elements_kept]. rewrite Hp. cbn [andb].
    apply forallb_props_set; [|exact Hps]. intros k'. exact Hv.
Qed.

Lemma parser_elements_kept (fuel : nat) :
  (forall tokens rest v,
     parseTokens fuel tokens = Ok (rest, v) -> elements_kept v = true) /\
  (forall output t rest o,
     parseObject_loop fuel output t = Ok (rest, o) ->
     elements_kept (VObject output) = true -> elements_kept (VObject o) = true) /\
  (forall output t rest o,
     parseArray_loop fuel output t = Ok (rest, o) ->
     elements_kept (VArray output) = true -> elements_kept (VArray o) = true).
Proof.
  induction fuel as [|fuel (IHt & IHo & IHa)]; [repeat split; discriminate|].
  repeat split.
  - intros tokens rest v H. cbn [parseTokens] in H.
    inv_bind H as v0 E0.
    destruct (value_is _ SYNTAX_TOKENS.BEGIN_OBJECT).
    { inv_bind H as [t o] E. injection H as <- <-. now apply IHo in E. }
    destruct (value_is _ SYNTAX_TOKENS.BEGIN_ARRAY).
    { inv_bind H as [t o] E. injection H as <- <-. now apply IHa in E. }
    injection H as <- <-. now destruct v0.
  - intros output t rest o H Hout. cbn [parseObject_loop] in H.
    inv_bind H as ty Ety. destruct (negb _); [discriminate|].
    inv_bind H as key Ekey. inv_bind H as sep Esep.
    destruct (negb _); [discriminate|].
    inv_bind H as [t3 v] Ev. apply IHt in Ev.
    inv_bind H as v3 E3. inv_bind H as t4 E4. inv_bind H as v4 E5.
    pose proof (@elements_kept_assign (toString key) _ _ Ev Hout) as Hnew.
    destruct (value_is _ SYNTAX_TOKENS.END_OBJECT).
    + now injection H as <- <-.
    + now apply IHo in H.
  - intros output t rest o H Hout. cbn [parseArray_loop] in H.
    inv_bind H as [t1 v] Ev. apply IHt in Ev.
    destruct (negb (isArray v) && is_syntax_value v) eqn:Hk; [discriminate|].
    destruct (Nat.eqb _ 0); [discriminate|].
    inv_bind H as v1 E1. inv_bind H as t2 E2. inv_bind H as v2 E3.
    assert (Hnew : elements_kept (VArray (output ++ [v])) = true).
    { cbn [elements_kept] in Hout |- *. rewrite forallb_app, Hout.
      cbn [forallb]. unfold kept. now rewrite Hk, Ev. }
    destruct (value_is _ SYNTAX_TOKENS.END_ARRAY).
    + now injection H as <- <-.
    + now apply IHa in H.
Qed.

(** X9. No array in a value that [parse] returns, at any depth, holds
    one of the six one-character strings that spell a structural
    character: [parseArray] cannot tell such a string from the structural
    token and leaves its loop on it. Before any other test an iteration
    throws on a string element spelling one of the four characters that
    open nothing. *)
Theorem arrays_hold_no_structural_strings :
  (forall input v, returns input v -> elements_kept v = true) /\
  (forall fuel output ch rest,
     In ch [SYNTAX_TOKENS.END_ARRAY; SYNTAX_TOKENS.END_OBJECT;
            SYNTAX_TOKENS.NAME_SEPARATOR; SYNTAX_TOKENS.VALUE_SEPARATOR] ->
     parseArray_loop (S (S fuel)) output (tString (str1 ch) :: rest)
     = Throw ParserArrayMissingEnd) /\
  throws ("[" ++ quoted "a" ++ "," ++ quoted "," ++ "]") ParserArrayMissingEnd.
Proof.
  repeat split.
  - intros input v [fuel H]. unfold parse in H.
    inv_bind H as tokens E. inv_bind H as [rest v'] Ep. injection H as <-.
    now apply (proj1 (parser_elements_kept fuel)) in Ep.
  - intros fuel output ch rest Hin. cbn [In] in Hin.
    repeat (destruct Hin as [<- | Hin]; [reflexivity|]). elim Hin.
  - exists 10. reflexivity.
Qed.

Lemma same_reading_value (t1 t2 : list Token) :
  Forall2 same_reading t1 t2 -> forall i, tok_value t1 i = tok_value t2 i.
Proof.
  unfold tok_value. induction 1 as [|a b l l' [Hv _] Hl IH]; intros [|i]; cbn [nth_error];
    [reflexivity | reflexivity | now rewrite Hv | apply IH].
Qed.

Lemma same_reading_skipn (t1 t2 : list Token) (n : nat) :
  Forall2 same_reading t1 t2 -> Forall2 same_reading (skipn n t1) (skipn n t2).
Proof.
  intros H. revert n. induction H as [|a b l l' Hab Hl IH]; intros [|n]; cbn [skipn];
    [constructor | constructor | now constructor | apply IH].
Qed.

Lemma same_outcome_separator (A : Type) (t1 t2 : list Token) (v : TokenValue)
      (closing : ascii) (e : Error) (k1 k2 : list Token -> Outcome (list Token * A)) :
  Forall2 same_reading t1 t2 ->
  (forall t t', Forall2 same_reading t t' -> same_outcome (k1 t) (k2 t')) ->
  same_outcome
    (t <- (if value_is v SYNTAX_TOKENS.VALUE_SEPARATOR then
             v1 <- tok_value t1 1 ;;
             if value_is v1 closing then Throw e else Ok (skipn 1 t1)
           else Ok t1) ;; k1 t)
    (t <- (if value_is v SYNTAX_TOKENS.VALUE_SEPARATOR then
             v1 <- tok_value t2 1 ;;
             if value_is v1 closing then Throw e else Ok (skipn 1 t2)
           else Ok t2) ;; k2 t).
Proof.
  intros Ht Hk. destruct (value_is v _); cbn [bind]; [|now apply Hk].
  rewrite (same_reading_value Ht 1).
  destruct (tok_value t2 1) as [v1 | e' | ]; cbn [bind]; [|reflexivity|exact I].
  destruct (value_is v1 closing); cbn [bind]; [reflexivity|].
  apply Hk. now apply same_reading_skipn.
Qed.

Lemma same_reading_head (t1 t2 : list Token) :
  Forall2 same_reading t1 t2 -> same_reading_value_at_head t1 t2.
Proof. intros [|a b l l' [Hv _] Hl]; cbn; [exact I | now split]. Qed.

Lemma parser_same_reading (fuel : nat) :
  (forall t1 t2, same_reading_value_at_head t1 t2 ->
     same_outcome (parseTokens fuel t1) (parseTokens fuel t2)) /\
  (forall output t1 t2, Forall2 same_reading t1 t2 ->
     same_outcome (parseObject_loop fuel output t1) (parseObject_loop fuel output t2)) /\
  (forall output t1 t2, same_reading_value_at_head t1 t2 ->
     same_outcome (parseArray_loop fuel output t1) (parseArray_loop fuel output t2)).
Proof.
  induction fuel as [|fuel (IHt & IHo & IHa)]; [repeat split; intros; exact I|].
  repeat split.
  - intros t1 t2 H. cbn [parseTokens].
    destruct t1 as [|a l], t2 as [|b l']; cbn in H; try contradiction; [reflexivity|].
    destruct H as [Hv Hl]. cbn [tok_value nth_error bind skipn]. rewrite Hv.
    destruct (value_is (value b) SYNTAX_TOKENS.BEGIN_OBJECT).
    { pose proof (IHo empty_object _ _ Hl) as Hp.
      destruct (parseObject_loop fuel empty_object l) as [[r1 o1] | e1 | ],
               (parseObject_loop fuel empty_object l') as [[r2 o2] | e2 | ];
        cbn in Hp |- *; try contradiction; try exact Hp.
      destruct Hp as [Hr ->]. now split. }
    destruct (value_is (value b) SYNTAX_TOKENS.BEGIN_ARRAY).
    { pose proof (IHa [] _ _ (same_reading_head Hl)) as Hp.
      destruct (parseArray_loop fuel [] l) as [[r1 o1] | e1 | ],
               (parseArray_loop fuel [] l') as [[r2 o2] | e2 | ];
        cbn in Hp |- *; try contradiction; try exact Hp.
      destruct Hp as [Hr ->]. now split. }
    now split.
  - intros output t1 t2 H. cbn [parseObject_loop].
    destruct H as [|a b l l' [Hv Hty] Hl]; [reflexivity|].
    cbn [tok_type tok_value nth_error bind skipn]. rewrite Hty, Hv.
    destruct (negb _); [reflexivity|].
    fold (tok_value l 0). fold (tok_value l' 0). rewrite (same_reading_value Hl 0).
    destruct (tok_value l' 0) as [sep | e | ]; cbn [bind]; [|reflexivity|exact I].
    destruct (negb _); [reflexivity|].
    pose proof (IHt _ _ (same_reading_head (same_reading_skipn 1 Hl))) as Hp.
    cbn [skipn] in Hp.
    destruct (parseTokens fuel _) as [[t3 v] | e1 | ],
             (parseTokens fuel _) as [[t3' v'] | e2 | ];
      cbn in Hp; try contradiction; cbn [bind]; try exact Hp.
    destruct Hp as [Ht3 ->].
    fold (tok_value t3 0). fold (tok_value t3' 0).
    rewrite (same_reading_value Ht3 0).
    destruct (tok_value t3' 0) as [v3 | e | ]; cbn [bind]; [|reflexivity|exact I].
    apply same_outcome_separator; [exact Ht3|]. intros t t' Ht.
    rewrite (same_reading_value Ht 0).
    destruct (tok_value t' 0) as [v4 | e | ]; cbn [bind]; [|reflexivity|exact I].
    destruct (value_is v4 _).
    + split; [exact (same_reading_skipn 1 Ht) | reflexivity].
    + now apply IHo.
  - intros output t1 t2 H. cbn [parseArray_loop].
    pose proof (IHt _ _ H) as Hp.
    destruct (parseTokens fuel t1) as [[t3 v] | e1 | ],
             (parseTokens fuel t2) as [[t3' v'] | e2 | ];
      cbn in Hp; try contradiction; cbn [bind]; try exact Hp.
    destruct Hp as [Ht3 ->].
    destruct (negb (isArray v') && _); [reflexivity|].
    rewrite (Forall2_length Ht3).
    destruct (Nat.eqb _ 0); [reflexivity|].
    rewrite (same_reading_value Ht3 0).
    destruct (tok_value t3' 0) as [v3 | e | ]; cbn [bind]; [|reflexivity|exact I].
    apply same_outcome_separator; [exact Ht3|]. intros t t' Ht.
    rewrite (same_reading_value Ht 0).
    destruct (tok_value t' 0) as [v4 | e | ]; cbn [bind]; [|reflexivity|exact I].
    destruct (value_is v4 _).
    + split; [exact (same_reading_skipn 1 Ht) | reflexivity].
    + apply IHa. now apply same_reading_head.
Qed.

(** X10. The parser tells a structural token from a value by its text
    alone: of the type of a token it reads only whether a key is tagged
    [STRING]. On two token lists whose tokens have the same values, and are
    tagged [STRING] or not alike but for the first, [parseTokens] and
    [parseArray] end alike, with the same value or the same error; so does
    [parseObject] when the first tokens too are tagged alike. A string that
    spells an opening bracket thus opens a container like the bracket
    does. *)
Theorem parser_reads_values_only (fuel : nat) (a b : Token) (t1 t2 : list Token) :
  value a = value b ->
  Forall2 same_reading t1 t2 ->
  same_outcome (parseTokens fuel (a :: t1)) (parseTokens fuel (b :: t2)) /\
  same_outcome (parseArray fuel (a :: t1)) (parseArray fuel (b :: t2)) /\
  same_outcome (parseObject fuel t1) (parseObject fuel t2).
Proof.
  intros Hv H. repeat split; apply parser_same_reading;
    first [ exact H | cbn; now split ].
Qed.

Lemma parser_reads_values_only_witness :
  parseTokens 5 [tSyntax "["; tString "a"; tSyntax "]"] = Ok ([], VArray [VString "a"]) /\
  same_outcome (parseTokens 5 [tSyntax "["; tString "a"; tSyntax "]"])
               (parseTokens 5 [tString "["; tString "a"; mkToken NUMBER (TVString "]")]).
Proof.
  split; [reflexivity|].
  refine (proj1 (@parser_reads_values_only 5 (tSyntax "[") (tString "[")
                   [tString "a"; tSyntax "]"]
                   [tString "a"; mkToken NUMBER (TVString "]")] eq_refl _)).
  repeat constructor.
Defined.

(* ------------------------------------------------------------------ *)
(** ** Where the parser fails in a container *)

Lemma parseTokens_object (fuel : nat) (rest : list Token) :
  parseTokens (S fuel) (tSyntax SYNTAX_TOKENS.BEGIN_OBJECT :: rest)
  = ('(t, output) <- parseObject_loop fuel empty_object rest ;; Ok (t, VObject output)).
Proof. reflexivity. Qed.

Lemma parseTokens_array (fuel : nat) (rest : list Token) :
  parseTokens (S fuel) (tSyntax SYNTAX_TOKENS.BEGIN_ARRAY :: rest)
  = ('(t, output) <- parseArray_loop fuel [] rest ;; Ok (t, VArray output)).
Proof. reflexivity. Qed.

(** The loop of [parseObject] goes through well-formed members and reaches
    the iteration of the key that follows them. *)
Lemma parseObject_loop_reaches (members : list (bool * (string * Doc))) :
  forallb (fun p => let '(_, (_, v)) := p in parser_wf v) members = true ->
  forallb (fun p => let '(c, (k, _)) := p in later_key_ok c k) members = true ->
  forall k v output c' k' ts,
    parser_wf v = true -> later_key_ok c' k' = true ->
    exists n output',
      forall fuel, n <= fuel ->
        parseObject_loop (S (List.length members) + fuel) output
          (tString k :: tSyntax SYNTAX_TOKENS.NAME_SEPARATOR :: tokens_of v
             ++ flat_map member_tokens members ++ sep_tokens c' ++ tString k' :: ts)
        = parseObject_loop fuel output' (tString k' :: ts).
Proof.
  induction members as [|[c1 [k1 v1]] members IH];
    intros Hwf Hkeys k v output c' k' ts Hwfv Hk'.
  - destruct (parser_rebuilds v Hwfv (sep_tokens c' ++ tString k' :: ts)) as [f Hv].
    exists f, (obj_assign k (json_value (shape v)) output). intros fuel Hfuel.
    cbn [flat_map app List.length Nat.add].
    eapply parseObject_loop_more; [|exact Hk'].
    eapply parseTokens_Ok_mono; [exact Hv | exact Hfuel].
  - cbn [forallb] in Hwf, Hkeys.
    apply andb_true_iff in Hwf as [Hwf1 Hwf].
    apply andb_true_iff in Hkeys as [Hk1 Hkeys].
    destruct (IH Hwf Hkeys k1 v1 (obj_assign k (json_value (shape v)) output) c' k' ts
                Hwf1 Hk') as (n2 & output' & Hloop).
    destruct (parser_rebuilds v Hwfv
                (sep_tokens c1 ++ tString k1
                   :: tSyntax SYNTAX_TOKENS.NAME_SEPARATOR :: tokens_of v1
                   ++ flat_map member_tokens members ++ sep_tokens c' ++ tString k' :: ts))
      as [f1 Hv].
    exists (Nat.max f1 n2), output'. intros fuel Hfuel.
    cbn [flat_map member_tokens List.length Nat.add]. rewrite <- !app_assoc. cbn [app].
    erewrite parseObject_loop_more; [ | | exact Hk1 ].
    + apply Hloop. lia.
    + eapply parseTokens_Ok_mono; [exact Hv | lia].
Qed.

Lemma member_may_follow_inv (members : list (bool * (string * Doc))) (c : bool)
      (k : string) :
  member_may_follow members c k = true ->
  (members = [] /\ c = false) \/
  (exists k0 v0 members',
      members = (false, (k0, v0)) :: members' /\ parser_wf v0 = true /\
      forallb (fun p => let '(_, (_, v)) := p in parser_wf v) members' = true /\
      forallb (fun p => let '(c, (k, _)) := p in later_key_ok c k) members' = true /\
      later_key_ok c k = true).
Proof.
  unfold member_may_follow. cbn [parser_wf]. intros H.
  apply andb_true_iff in H as [H Hkeys]. apply andb_true_iff in H as [Hfirst Hwf].
  apply first_unseparated_inv in Hfirst as ([k0 v0] & l' & Hl).
  destruct members as [|m members'].
  - left. cbn [app] in Hl. injection Hl as -> _ _ _. now split.
  - right. cbn [app] in Hl. injection Hl as -> _.
    exists k0, v0, members'. split; [reflexivity|].
    cbn [app tl forallb] in Hwf, Hkeys. rewrite forallb_app in Hwf, Hkeys.
    apply andb_true_iff in Hwf as [Hwf0 Hwf]. apply andb_true_iff in Hwf as [Hwf _].
    apply andb_true_iff in Hkeys as [Hkeys Hk]. cbn [forallb] in Hk.
    rewrite andb_true_r in Hk. now repeat split.
Qed.

(** [parseTokens] on an object reaches the iteration of the key [k]. *)
Lemma parseTokens_reaches_member (members : list (bool * (string * Doc))) (c : bool)
      (k : string) (ts : list Token) :
  member_may_follow members c k = true ->
  exists n output,
    forall fuel, n <= fuel ->
      parseTokens (S (List.length members + fuel))
        (open_object members ++ sep_tokens c ++ tString k :: ts)
      = ('(t, o) <- parseObject_loop fuel output (tString k :: ts) ;; Ok (t, VObject o)).
Proof.
  intros H. unfold open_object. cbn [app].
  apply member_may_follow_inv in H
    as [[-> ->] | (k0 & v0 & members' & -> & Hwf0 & Hwf & Hkeys & Hk)].
  - exists 0, empty_object. intros fuel _. apply parseTokens_object.
  - destruct (parseObject_loop_reaches members' Hwf Hkeys k0 v0 empty_object c k ts Hwf0 Hk)
      as (n & output & Hloop).
    exists n, output. intros fuel Hfuel. rewrite parseTokens_object.
    cbn [flat_map member_tokens sep_tokens app List.length Nat.add].
    rewrite <- !app_assoc. now rewrite <- Hloop.
Qed.

(** X11. Where the key of a member stands, after any number of well-formed
    members: when the input ends after the key, or after the key and its
    name-separator, [parseTokens] ends with the [TypeError] of the run
    time; when the token after the key is anything but a name-separator it
    throws the name-separator error of [parseObject]. *)
Theorem object_key_errors (members : list (bool * (string * Doc))) (c : bool)
        (k : string) :
  member_may_follow members c k = true ->
  (exists fuel,
      parseTokens fuel (open_object members ++ sep_tokens c ++ [tString k])
      = Throw TypeError) /\
  (forall tok ts,
      value_is (value tok) SYNTAX_TOKENS.NAME_SEPARATOR = false ->
      exists fuel,
        parseTokens fuel (open_object members ++ sep_tokens c ++ tString k :: tok :: ts)
        = Throw ParserObjectExpectedNameSeparator) /\
  (exists fuel,
      parseTokens fuel
        (open_object members ++ sep_tokens c
           ++ [tString k; tSyntax SYNTAX_TOKENS.NAME_SEPARATOR])
      = Throw TypeError).
Proof.
  intros H. repeat split.
  - destruct (parseTokens_reaches_member members c k [] H) as (n & output & Hr).
    exists (S (List.length members + S n)). rewrite Hr by lia. reflexivity.
  - intros tok ts Htok.
    destruct (parseTokens_reaches_member members c k (tok :: ts) H) as (n & output & Hr).
    exists (S (List.length members + S n)). rewrite Hr by lia.
    parser_step. now rewrite Htok.
  - destruct (parseTokens_reaches_member members c k [tSyntax SYNTAX_TOKENS.NAME_SEPARATOR] H)
      as (n & output & Hr).
    exists (S (List.length members + S (S n))). rewrite Hr by lia. reflexivity.
Qed.

Lemma object_key_errors_witness :
  throws ("{" ++ quoted "a" ++ ":" ++ quoted "b" ++ "," ++ quoted "c" ++ "}")
         ParserObjectExpectedNameSeparator /\
  (exists fuel,
      parseTokens fuel [tSyntax "{"; tString "a"; tSyntax ":"; tString "b"; tSyntax ",";
                        tString "c"; tSyntax "}"]
      = Throw ParserObjectExpectedNameSeparator).
Proof.
  split; [exists 20; reflexivity|].
  apply (@object_key_errors [(false, ("a", DString "b"))]%string true "c" eq_refl).
  reflexivity.
Defined.

Lemma member_appended_wf (members : list (bool * (string * Doc))) (c : bool)
      (k : string) (d : Doc) :
  parser_wf (DObject (members ++ [(c, (k, d))])) = true ->
  member_may_follow members c k = true /\ parser_wf d = true.
Proof.
  unfold member_may_follow. cbn [parser_wf]. intros H.
  apply andb_true_iff in H as [H Hkeys]. apply andb_true_iff in H as [Hfirst Hwf].
  rewrite forallb_app in Hwf. apply andb_true_iff in Hwf as [Hwf Hd].
  cbn [forallb] in Hd. rewrite andb_true_r in Hd. split; [|exact Hd].
  rewrite forallb_app, Hwf. cbn [forallb parser_wf andb].
  destruct members as [|m members']; cbn [app tl first_unseparated] in *.
  - now rewrite Hfirst.
  - rewrite Hfirst. cbn [andb]. rewrite forallb_app in Hkeys |- *.
    exact Hkeys.
Qed.

(** [parseTokens] on an object reaches the iteration of the last member
    written, whose value is parsed and followed by [tail]. *)
Lemma parseTokens_reaches_value (members : list (bool * (string * Doc))) (c : bool)
      (k : string) (d : Doc) (tail : list Token) :
  parser_wf (DObject (members ++ [(c, (k, d))])) = true ->
  exists n output,
    forall fuel, n <= fuel ->
      parseTokens (S (List.length members + S fuel))
        (open_object (members ++ [(c, (k, d))]) ++ tail)
      = ('(t, o) <- parseObject_loop (S fuel) output
                      (tString k :: tSyntax SYNTAX_TOKENS.NAME_SEPARATOR
                         :: tokens_of d ++ tail) ;;
         Ok (t, VObject o))
      /\ parseTokens fuel (tokens_of d ++ tail) = Ok (tail, json_value (shape d)).
Proof.
  intros H. apply member_appended_wf in H as [Hm Hd].
  destruct (parseTokens_reaches_member members c k
              (tSyntax SYNTAX_TOKENS.NAME_SEPARATOR :: tokens_of d ++ tail) Hm)
    as (n & output & Hr).
  destruct (parser_rebuilds d Hd tail) as [f Hv].
  exists (Nat.max n f), output. intros fuel Hfuel. split.
  - rewrite <- Hr by lia. f_equal. unfold open_object.
    rewrite flat_map_app. cbn [flat_map member_tokens app].
    rewrite app_nil_r, <- !app_assoc. reflexivity.
  - eapply parseTokens_Ok_mono; [exact Hv | lia].
Qed.

(** X12. After the value of a member, which follows any number of
    well-formed members: when the input ends there, or after one more
    value-separator, [parseTokens] ends with the [TypeError] of the run
    time and not with an error of the parser; on a value-separator and a
    closing brace it throws the trailing-comma error; on a token that is
    neither a string, a value-separator nor a closing brace, standing there
    or after the value-separator, it throws the missing-end error. *)
Theorem object_value_errors (members : list (bool * (string * Doc))) (c : bool)
        (k : string) (d : Doc) :
  parser_wf (DObject (members ++ [(c, (k, d))])) = true ->
  (exists fuel,
      parseTokens fuel (open_object (members ++ [(c, (k, d))])) = Throw TypeError) /\
  (exists fuel,
      parseTokens fuel
        (open_object (members ++ [(c, (k, d))]) ++ [tSyntax SYNTAX_TOKENS.VALUE_SEPARATOR])
      = Throw TypeError) /\
  (forall ts, exists fuel,
      parseTokens fuel
        (open_object (members ++ [(c, (k, d))])
           ++ tSyntax SYNTAX_TOKENS.VALUE_SEPARATOR :: tSyntax SYNTAX_TOKENS.END_OBJECT :: ts)
      = Throw ParserObjectTrailingComma) /\
  (forall tok ts,
      type tok <> STRING ->
      value_is (value tok) SYNTAX_TOKENS.VALUE_SEPARATOR = false ->
      value_is (value tok) SYNTAX_TOKENS.END_OBJECT = false ->
      exists fuel,
        parseTokens fuel (open_object (members ++ [(c, (k, d))]) ++ tok :: ts)
        = Throw ParserObjectMissingEnd) /\
  (forall tok ts,
      type tok <> STRING ->
      value_is (value tok) SYNTAX_TOKENS.END_OBJECT = false ->
      exists fuel,
        parseTokens fuel
          (open_object (members ++ [(c, (k, d))])
             ++ tSyntax SYNTAX_TOKENS.VALUE_SEPARATOR :: tok :: ts)
        = Throw ParserObjectMissingEnd).
Proof.
  intros H.
  assert (Hty : forall tok, type tok <> STRING -> TokenType_eqb (type tok) STRING = false)
    by (intros tok Hne; destruct (type tok); try reflexivity; now elim Hne).
  repeat split.
  - destruct (parseTokens_reaches_value members c k d [] H) as (n & output & Hr).
    destruct (Hr n (Nat.le_refl n)) as [Hp Hv]. rewrite app_nil_r in Hp.
    exists (S (List.length members + S n)). rewrite Hp.
    parser_step. now rewrite Hv.
  - destruct (parseTokens_reaches_value members c k d
                [tSyntax SYNTAX_TOKENS.VALUE_SEPARATOR] H) as (n & output & Hr).
    destruct (Hr n (Nat.le_refl n)) as [Hp Hv].
    exists (S (List.length members + S n)). rewrite Hp.
    parser_step. rewrite Hv. reflexivity.
  - intros ts.
    destruct (parseTokens_reaches_value members c k d
                (tSyntax SYNTAX_TOKENS.VALUE_SEPARATOR
                   :: tSyntax SYNTAX_TOKENS.END_OBJECT :: ts) H) as (n & output & Hr).
    destruct (Hr n (Nat.le_refl n)) as [Hp Hv].
    exists (S (List.length members + S n)). rewrite Hp.
    parser_step. rewrite Hv. reflexivity.
  - intros tok ts Htok Hsep Hend.
    destruct (parseTokens_reaches_value members c k d (tok :: ts) H) as (n & output & Hr).
    destruct (Hr (S n) (Nat.le_succ_diag_r n)) as [Hp Hv].
    exists (S (List.length members + S (S n))). rewrite Hp.
    parser_step. rewrite Hv. parser_step. rewrite Hsep. parser_step. rewrite Hend.
    parser_step. now rewrite (Hty tok Htok).
  - intros tok ts Htok Hend.
    destruct (parseTokens_reaches_value members c k d
                (tSyntax SYNTAX_TOKENS.VALUE_SEPARATOR :: tok :: ts) H)
      as (n & output & Hr).
    destruct (Hr (S n) (Nat.le_succ_diag_r n)) as [Hp Hv].
    exists (S (List.length members + S (S n))). rewrite Hp.
    parser_step. rewrite Hv. parser_step. rewrite Hend. parser_step. rewrite Hend.
    parser_step. now rewrite (Hty tok Htok).
Qed.

Lemma object_value_errors_witness :
  parser_wf (DObject [(false, ("a", DString "x")); (true, ("b", DBoolean true))]%string)
  = true /\
  (exists fuel,
      parseTokens fuel [tSyntax "{"; tString "a"; tSyntax ":"; tString "x"; tSyntax ",";
                        tString "b"; tSyntax ":"; tBoolean true]
      = Throw TypeError) /\
  (exists fuel,
      parseTokens fuel [tSyntax "{"; tString "a"; tSyntax ":"; tString "x"; tSyntax ",";
                        tString "b"; tSyntax ":"; tBoolean true; tSyntax "]"]
      = Throw ParserObjectMissingEnd).
Proof.
  split; [reflexivity|].
  pose proof (@object_value_errors [(false, ("a", DString "x"))]%string true "b"
                (DBoolean true) eq_refl) as (H1 & _ & _ & H4 & _).
  split; [exact H1|].
  apply (H4 (tSyntax "]") []); [discriminate | reflexivity | reflexivity].
Defined.

(* ------------------------------------------------------------------ *)
(** ** Where the parser fails in an array *)

Lemma parseArray_loop_reaches (elems : list (bool * Doc)) :
  forallb (fun p => let '(_, e) := p in parser_wf e && element_ok e) elems = true ->
  forall e output c' e' tail,
    parser_wf e = true -> element_ok e = true -> element_ok e' = true ->
    exists n output',
      forall fuel, n <= fuel ->
        parseArray_loop (S (List.length elems) + fuel) output
          (tokens_of e ++ flat_map elem_tokens elems ++ sep_tokens c' ++ tokens_of e' ++ tail)
        = parseArray_loop fuel output' (tokens_of e' ++ tail).
Proof.
  induction elems as [|[c1 e1] elems IH];
    intros Hwf e output c' e' tail Hwfe Hoke Hoke'.
  - destruct (element_head e' Hoke') as (tok & ts & Htok & Hsep & Hend).
    destruct (parser_rebuilds e Hwfe (sep_tokens c' ++ tokens_of e' ++ tail)) as [f Hv].
    exists f, (output ++ [json_value (shape e)]). intros fuel Hfuel.
    cbn [flat_map app List.length Nat.add].
    rewrite Htok in Hv |- *. cbn [app] in Hv |- *.
    eapply parseArray_loop_more;
      [ eapply parseTokens_Ok_mono; [exact Hv | exact Hfuel]
      | now apply element_kept | exact Hsep | exact Hend ].
  - cbn [forallb] in Hwf. apply andb_true_iff in Hwf as [Hwf1 Hwf].
    apply andb_true_iff in Hwf1 as [Hwfe1 Hoke1].
    destruct (IH Hwf e1 (output ++ [json_value (shape e)]) c' e' tail Hwfe1 Hoke1 Hoke')
      as (n2 & output' & Hloop).
    destruct (element_head e1 Hoke1) as (tok & ts & Htok & Hsep & Hend).
    destruct (parser_rebuilds e Hwfe
                (sep_tokens c1 ++ tokens_of e1 ++ flat_map elem_tokens elems
                   ++ sep_tokens c' ++ tokens_of e' ++ tail)) as [f1 Hv].
    exists (Nat.max f1 n2), output'. intros fuel Hfuel.
    cbn [flat_map elem_tokens List.length Nat.add]. rewrite <- !app_assoc.
    specialize (Hloop fuel ltac:(lia)).
    rewrite Htok in Hv, Hloop |- *. cbn [app] in Hv, Hloop |- *.
    erewrite parseArray_loop_more;
      [ exact Hloop
      | eapply parseTokens_Ok_mono; [exact Hv | lia]
      | now apply element_kept | exact Hsep | exact Hend ].
Qed.

(** [parseTokens] on an array reaches the iteration of the last element
    written, which is parsed and followed by [tail]. *)
Lemma parseTokens_reaches_element (elems : list (bool * Doc)) (c : bool) (e : Doc)
      (tail : list Token) :
  parser_wf (DArray (elems ++ [(c, e)])) = true ->
  exists n output,
    forall fuel, n <= fuel ->
      parseTokens (S (List.length elems + S fuel)) (open_array (elems ++ [(c, e)]) ++ tail)
      = ('(t, o) <- parseArray_loop (S fuel) output (tokens_of e ++ tail) ;;
         Ok (t, VArray o))
      /\ parseTokens fuel (tokens_of e ++ tail) = Ok (tail, json_value (shape e))
      /\ kept (json_value (shape e)) = true.
Proof.
  cbn [parser_wf]. intros H. apply andb_true_iff in H as [Hfirst Hwf].
  rewrite forallb_app in Hwf. apply andb_true_iff in Hwf as [Hwf He].
  cbn [forallb] in He. rewrite andb_true_r in He. apply andb_true_iff in He as [Hwfe Hoke].
  destruct (parser_rebuilds e Hwfe tail) as [f Hv].
  unfold open_array. rewrite flat_map_app. cbn [flat_map elem_tokens].
  rewrite app_nil_r.
  destruct elems as [|[c0 e0] elems'].
  - cbn [app first_unseparated] in Hfirst. destruct c; [discriminate|].
    exists f, []. intros fuel Hfuel. cbn [flat_map app sep_tokens List.length Nat.add].
    rewrite parseTokens_array. repeat split.
    + eapply parseTokens_Ok_mono; [exact Hv | exact Hfuel].
    + now apply element_kept.
  - cbn [app first_unseparated] in Hfirst. destruct c0; [discriminate|].
    cbn [forallb] in Hwf. apply andb_true_iff in Hwf as [Hwf0 Hwf].
    apply andb_true_iff in Hwf0 as [Hwfe0 Hoke0].
    destruct (parseArray_loop_reaches elems' Hwf e0 [] c e tail Hwfe0 Hoke0 Hoke)
      as (n & output & Hloop).
    exists (Nat.max n f), output. intros fuel Hfuel.
    cbn [flat_map elem_tokens sep_tokens app List.length Nat.add].
    rewrite parseTokens_array, <- !app_assoc. repeat split.
    + rewrite <- (Hloop (S fuel)) by lia. reflexivity.
    + eapply parseTokens_Ok_mono; [exact Hv | lia].
    + now apply element_kept.
Qed.

(** X13. After an element of an array, which follows any number of
    well-formed elements: when the input ends there [parseTokens] throws
    the missing-end error of [parseArray], where an object left open ends
    with a [TypeError]; when it ends after one more value-separator the
    outcome is the [TypeError] of the run time; on a value-separator and a
    closing bracket it is the trailing-comma error; and a closing brace or
    a name-separator standing there is taken for the next element and
    makes the loop throw the missing-end error. *)
Theorem array_element_errors (elems : list (bool * Doc)) (c : bool) (e : Doc) :
  parser_wf (DArray (elems ++ [(c, e)])) = true ->
  (exists fuel,
      parseTokens fuel (open_array (elems ++ [(c, e)])) = Throw ParserArrayMissingEnd) /\
  (exists fuel,
      parseTokens fuel
        (open_array (elems ++ [(c, e)]) ++ [tSyntax SYNTAX_TOKENS.VALUE_SEPARATOR])
      = Throw TypeError) /\
  (forall ts, exists fuel,
      parseTokens fuel
        (open_array (elems ++ [(c, e)])
           ++ tSyntax SYNTAX_TOKENS.VALUE_SEPARATOR :: tSyntax SYNTAX_TOKENS.END_ARRAY :: ts)
      = Throw ParserArrayTrailingComma) /\
  (forall ch ts,
      In ch [SYNTAX_TOKENS.END_OBJECT; SYNTAX_TOKENS.NAME_SEPARATOR] ->
      exists fuel,
        parseTokens fuel (open_array (elems ++ [(c, e)]) ++ tSyntax ch :: ts)
        = Throw ParserArrayMissingEnd).
Proof.
  intros H. repeat split.
  - destruct (parseTokens_reaches_element elems c e [] H) as (n & output & Hr).
    destruct (Hr n (Nat.le_refl n)) as (Hp & Hv & Hk). rewrite app_nil_r in Hp.
    apply negb_true_iff in Hk.
    exists (S (List.length elems + S n)). rewrite Hp.
    parser_step. rewrite Hv. parser_step. now rewrite Hk.
  - destruct (parseTokens_reaches_element elems c e
                [tSyntax SYNTAX_TOKENS.VALUE_SEPARATOR] H) as (n & output & Hr).
    destruct (Hr n (Nat.le_refl n)) as (Hp & Hv & Hk). apply negb_true_iff in Hk.
    exists (S (List.length elems + S n)). rewrite Hp.
    parser_step. rewrite Hv. parser_step. now rewrite Hk.
  - intros ts.
    destruct (parseTokens_reaches_element elems c e
                (tSyntax SYNTAX_TOKENS.VALUE_SEPARATOR
                   :: tSyntax SYNTAX_TOKENS.END_ARRAY :: ts) H) as (n & output & Hr).
    destruct (Hr n (Nat.le_refl n)) as (Hp & Hv & Hk). apply negb_true_iff in Hk.
    exists (S (List.length elems + S n)). rewrite Hp.
    parser_step. rewrite Hv. parser_step. now rewrite Hk.
  - intros ch ts Hin.
    destruct (parseTokens_reaches_element elems c e (tSyntax ch :: ts) H)
      as (n & output & Hr).
    destruct (Hr (S (S n)) ltac:(lia)) as (Hp & Hv & Hk). apply negb_true_iff in Hk.
    exists (S (List.length elems + S (S (S n)))). rewrite Hp.
    parser_step. rewrite Hv. parser_step. rewrite Hk.
    cbn [In] in Hin. destruct Hin as [<- | [<- | []]]; reflexivity.
Qed.

Lemma array_element_errors_witness :
  parser_wf (DArray [(false, DString "a"); (true, DBoolean false)]) = true /\
  (exists fuel,
      parseTokens fuel [tSyntax "["; tString "a"; tSyntax ","; tBoolean false]
      = Throw ParserArrayMissingEnd) /\
  (exists fuel,
      parseTokens fuel [tSyntax "["; tString "a"; tSyntax ","; tBoolean false; tSyntax "}"]
      = Throw ParserArrayMissingEnd).
Proof.
  split; [reflexivity|].
  pose proof (@array_element_errors [(false, DString "a")] true (DBoolean false) eq_refl)
    as (H1 & _ & _ & H4).
  split; [exact H1|].
  apply (H4 "}"%char []). now left.
Defined.

(* ------------------------------------------------------------------ *)
(** ** The key [__proto__] *)

Lemma obj_assign_proto_absent (k : string) (v : Value) (o : OutputObject Value) :
  props_get "__proto__" (props o) = None ->
  props_get "__proto__" (props (obj_assign k v o)) = None.
Proof.
  intros H. unfold obj_assign. destruct (String.eqb k "__proto__") eqn:Hk.
  - now destruct (is_object v).
  - cbn [props]. now rewrite props_get_set, Hk.
Qed.

Lemma parseObject_loop_proto_absent (fuel : nat) :
  forall output t rest o,
    parseObject_loop fuel output t = Ok (rest, o) ->
    props_get "__proto__" (props output) = None ->
    props_get "__proto__" (props o) = None.
Proof.
  induction fuel as [|fuel IH]; intros output t rest o H Hout; [discriminate|].
  cbn [parseObject_loop] in H.
  inv_bind H as ty Ety. destruct (negb _); [discriminate|].
  inv_bind H as key Ekey. inv_bind H as sep Esep.
  destruct (negb _); [discriminate|].
  inv_bind H as [t3 v] Ev.
  inv_bind H as v3 E3. inv_bind H as t4 E4. inv_bind H as v4 E5.
  pose proof (@obj_assign_proto_absent (toString key) v output Hout) as Hnew.
  destruct (value_is _ SYNTAX_TOKENS.END_OBJECT).
  - now injection H as <- <-.
  - now apply IH in H.
Qed.

(** X14. A member named [__proto__] never becomes a property of the
    object: the assignment [output[key] = value] reaches the setter that
    every object literal inherits. No object that [parse] returns has an
    own property of that name; a member of that name whose value is an
    object or an array replaces the prototype of the result, and one whose
    value is a string or a boolean leaves no trace at all. *)
Theorem proto_member_not_stored :
  (forall input o, returns input (VObject o) -> own_get o "__proto__" = None) /\
  (forall fuel output t rest v,
     parseTokens fuel t = Ok (tSyntax SYNTAX_TOKENS.END_OBJECT :: rest, v) ->
     parseObject_loop (S fuel) output
       (tString "__proto__" :: tSyntax SYNTAX_TOKENS.NAME_SEPARATOR :: t)
     = Ok (rest, if is_object v then mkObject (Some v) (props output) else output)) /\
  returns ("{" ++ quoted "__proto__" ++ ":" ++ quoted "x" ++ "}") (VObject empty_object) /\
  returns ("{" ++ quoted "__proto__" ++ ":[" ++ quoted "x" ++ "]}")
          (VObject (mkObject (Some (VArray [VString "x"])) [])).
Proof.
  repeat split.
  - intros input o [fuel H]. unfold parse in H.
    inv_bind H as tokens E. inv_bind H as [rest v] Ep. cbn [snd] in H.
    injection H as ->. destruct fuel as [|fuel]; [discriminate|].
    cbn [parseTokens] in Ep. inv_bind Ep as v0 E0.
    destruct (value_is _ SYNTAX_TOKENS.BEGIN_OBJECT).
    + inv_bind Ep as [t o'] Eo. injection Ep as _ <-.
      now apply parseObject_loop_proto_absent in Eo.
    + destruct (value_is _ SYNTAX_TOKENS.BEGIN_ARRAY).
      * inv_bind Ep as [t o'] Ea. discriminate.
      * now destruct v0.
  - intros fuel output t rest v Hv.
    erewrite parseObject_loop_last; [|exact Hv]. reflexivity.
  - exists 30. reflexivity.
  - exists 30. reflexivity.
Qed.

(* ------------------------------------------------------------------ *)
(** ** A text that is one string literal *)

Lemma lex_literal (items : list StrItem) :
  forallb item_ok items = true ->
  lex (S (S (List.length items)))
      (string_of_list_ascii (QUOTATION_MARK :: literal_chars items ++ [QUOTATION_MARK]))
  = Ok [tString (literal_decoded items)].
Proof.
  intros H. unfold lex. rewrite list_ascii_of_string_of_list_ascii.
  rewrite (lex_loop_literal items H); [reflexivity | lia].
Qed.

(** X15. A text that is one string literal, with any escapes: [parse]
    returns the decoded string, unless that string is a lone opening brace
    or opening bracket; then [parseTokens] takes the string for the bracket
    it spells, enters the container and, no token being left, ends with the
    [TypeError] of the run time. *)
Theorem parse_string_literal (items : list StrItem) :
  forallb item_ok items = true ->
  let input :=
    string_of_list_ascii (QUOTATION_MARK :: literal_chars items ++ [QUOTATION_MARK]) in
  (string_value_ok (literal_decoded items) = true ->
   returns input (VString (literal_decoded items))) /\
  (string_value_ok (literal_decoded items) = false -> throws input TypeError).
Proof.
  intros H input. pose proof (lex_literal items H) as Hlex. fold input in Hlex.
  unfold string_value_ok. split; intros Hs.
  - exists (S (S (List.length items))). unfold parse. rewrite Hlex.
    apply andb_true_iff in Hs as [Ho Ha]. apply negb_true_iff in Ho, Ha.
    cbn [bind parseTokens tok_value nth_error tString value value_is].
    now rewrite Ho, Ha.
  - exists (S (S (S (List.length items)))). unfold parse.
    erewrite lex_mono; [| exact Hlex | fin | lia].
    cbn [bind parseTokens tok_value nth_error tString value value_is].
    destruct (String.eqb (literal_decoded items) (str1 SYNTAX_TOKENS.BEGIN_OBJECT)) eqn:Ho.
    + reflexivity.
    + cbn [negb andb] in Hs. apply negb_false_iff in Hs. rewrite Hs. reflexivity.
Qed.

Lemma parse_string_literal_witness :
  returns (quoted ("a" ++ bs ++ dq ++ "b")) (VString ("a" ++ dq ++ "b")) /\
  throws (quoted "[") TypeError.
Proof.
  split.
  - apply (@parse_string_literal
             [Plain "a"; Escape QUOTATION_MARK; Plain "b"] eq_refl). reflexivity.
  - apply (@parse_string_literal [Plain "["] eq_refl). reflexivity.
Defined.

(* ------------------------------------------------------------------ *)
(** ** The lexer of the draft *)

Lemma string_of_list_ascii_snoc (l : list ascii) (x : ascii) :
  string_of_list_ascii (l ++ [x]) = (string_of_list_ascii l ++ str1 x)%string.
Proof. induction l as [|y l IH]; cbn; [reflexivity | now rewrite IH]. Qed.

Lemma string_length_of_list (l : list ascii) :
  String.length (string_of_list_ascii l) = List.length l.
Proof. induction l as [|y l IH]; cbn; [reflexivity | now rewrite IH]. Qed.

Lemma forallb_skipn (A : Type) (f : A -> bool) (n : nat) (l : list A) :
  forallb f l = true -> forallb f (skipn n l) = true.
Proof.
  revert l. induction n as [|n IH]; intros [|x l] H; try exact H.
  cbn [forallb] in H. apply andb_true_iff in H as [_ H]. now apply IH.
Qed.

Lemma forallb_skipn_head (A : Type) (f : A -> bool) (n : nat) (l : list A) (x : A) :
  forallb f (skipn n l) = true -> nth_error l n = Some x -> f x = true.
Proof.
  revert l. induction n as [|n IH]; intros [|y l] H Hx; try discriminate.
  - cbn in H, Hx. injection Hx as ->. now apply andb_true_iff in H as [H _].
  - now apply (IH l).
Qed.

Lemma skipn_add (A : Type) (n k : nat) (l : list A) :
  skipn (n + k) l = skipn k (skipn n l).
Proof.
  revert l. induction n as [|n IH]; intros l; [reflexivity|].
  destruct l as [|x l]; [now destruct k | apply IH].
Qed.

(** The literal runs to the first quotation mark. *)
Lemma draft_lexString_loop_scan (post : list ascii) :
  no_quote post = true ->
  forall pre fuel rest,
    List.length post < fuel ->
    Draft.lexString_loop fuel (pre ++ post ++ QUOTATION_MARK :: rest)
      (string_of_list_ascii pre)
    = Ok (Draft.mkToken STRING (string_of_list_ascii (pre ++ post))
            (TVString (string_of_list_ascii (pre ++ post)))).
Proof.
  unfold no_quote.
  induction post as [|x post IH]; intros Hq pre fuel rest Hfuel;
    (destruct fuel as [|fuel]; [cbn in Hfuel; lia|]);
    cbn [Draft.lexString_loop]; rewrite string_length_of_list, nth_error_app2 by lia;
    rewrite Nat.sub_diag; cbn [app nth_error char_is].
  - rewrite Ascii.eqb_refl, app_nil_r. reflexivity.
  - cbn [forallb] in Hq. apply andb_true_iff in Hq as [Hx Hq].
    apply negb_true_iff in Hx. rewrite Hx. cbn [negb str_append char_str bind].
    rewrite <- string_of_list_ascii_snoc.
    replace (pre ++ x :: post ++ QUOTATION_MARK :: rest)
      with ((pre ++ [x]) ++ post ++ QUOTATION_MARK :: rest)
      by (now rewrite <- app_assoc).
    rewrite IH; [|exact Hq | cbn in Hfuel; lia].
    now rewrite <- app_assoc.
Qed.

(** Without a quotation mark at or after the position read, the loop
    never reaches its [break]: it does not return. *)
Lemma draft_lexString_loop_unclosed (fuel : nat) :
  forall chars str tok,
    no_quote (skipn (String.length str) chars) = true ->
    Draft.lexString_loop fuel chars str <> Ok tok.
Proof.
  unfold no_quote.
  induction fuel as [|fuel IH]; intros chars str tok Hq; [discriminate|].
  cbn [Draft.lexString_loop].
  destruct (nth_error chars (String.length str)) as [x|] eqn:Hx; cbn [char_is].
  - pose proof (forallb_skipn_head _ _ _ Hq Hx) as Hne. cbn beta in Hne.
    apply negb_true_iff in Hne. rewrite Hne. cbn [negb str_append char_str bind].
    apply IH. rewrite string_length_app, skipn_add. now apply forallb_skipn.
  - cbn [negb str_append char_str].
    destruct (too_long _); cbn [bind]; [discriminate|].
    apply IH. rewrite string_length_app, skipn_add. now apply forallb_skipn.
Qed.

(** Once the position read is past the end every iteration appends the
    name of [undefined]: the string grows until the engine refuses it. *)
Lemma draft_lexString_loop_exhausted (m : nat) :
  forall chars str,
    List.length chars <= String.length str ->
    N.to_nat MAX_STRING_LENGTH - String.length str <= m ->
    Draft.lexString_loop (S m) chars str = Throw RangeError.
Proof.
  induction m as [|m IH]; intros chars str Hlen Hm;
    cbn [Draft.lexString_loop];
    rewrite (proj2 (nth_error_None chars (String.length str)) Hlen);
    cbn [char_is negb str_append char_str];
    destruct (too_long (str ++ "undefined")) eqn:Ht; cbn [bind]; try reflexivity;
    apply too_long_false in Ht; rewrite string_length_app in Ht; cbn [String.length] in Ht.
  - lia.
  - apply IH; rewrite string_length_app; cbn [String.length]; lia.
Qed.

Lemma draft_lexString_loop_range_error (k : nat) :
  forall chars str fuel,
    no_quote (skipn (String.length str) chars) = true ->
    List.length chars - String.length str <= k ->
    k + N.to_nat MAX_STRING_LENGTH < fuel ->
    Draft.lexString_loop fuel chars str = Throw RangeError.
Proof.
  unfold no_quote.
  induction k as [|k IH]; intros chars str fuel Hq Hlen Hfuel;
    (destruct fuel as [|fuel]; [lia|]).
  - apply draft_lexString_loop_exhausted; lia.
  - destruct (nth_error chars (String.length str)) as [x|] eqn:Hx.
    + cbn [Draft.lexString_loop]. rewrite Hx. cbn [char_is].
      pose proof (forallb_skipn_head _ _ _ Hq Hx) as Hne. cbn beta in Hne.
      apply negb_true_iff in Hne. rewrite Hne. cbn [negb str_append char_str bind].
      apply IH.
      * rewrite string_length_app, skipn_add. now apply forallb_skipn.
      * rewrite string_length_app. cbn [String.length str1]. lia.
      * lia.
    + apply nth_error_None in Hx. apply draft_lexString_loop_exhausted; lia.
Qed.

(** X16. [lexString] of the draft returns the characters before
    the first quotation mark, a backslash being a character like any
    other, so that an escaped quotation mark ends the literal. When no
    quotation mark follows it does not return: past the end of the
    characters every iteration appends the name of [undefined], and the
    call ends with the [RangeError] of the engine. *)
Theorem draft_lexString_to_first_quote :
  (forall s rest,
     no_quote s = true ->
     Draft.lexString (S (List.length s)) (s ++ QUOTATION_MARK :: rest)
     = Ok (Draft.mkToken STRING (string_of_list_ascii s)
             (TVString (string_of_list_ascii s)))) /\
  (forall chars,
     no_quote chars = true ->
     (forall fuel tok, Draft.lexString fuel chars <> Ok tok) /\
     (exists fuel, Draft.lexString fuel chars = Throw RangeError)) /\
  Draft.lexString 10 (list_ascii_of_string ("x" ++ bs ++ dq ++ "y" ++ dq))
  = Ok (Draft.mkToken STRING ("x" ++ bs) (TVString ("x" ++ bs))).
Proof.
  refine (conj _ (conj _ _)).
  - intros s rest Hq. unfold Draft.lexString.
    apply (@draft_lexString_loop_scan s Hq [] (S (List.length s)) rest). lia.
  - intros chars Hq. split.
    + intros fuel tok. now apply draft_lexString_loop_unclosed.
    + eexists. unfold Draft.lexString.
      apply (@draft_lexString_loop_range_error (List.length chars));
        [exact Hq | cbn [String.length]; lia | apply Nat.lt_succ_diag_r].
  - reflexivity.
Qed.

Lemma true_false_prefix (chars : list ascii) :
  String.eqb (string_of_list_ascii (firstn 4 chars)) "true" = true ->
  String.eqb (string_of_list_ascii (firstn 5 chars)) "false" = true -> False.
Proof.
  destruct chars as [|c chars]; [discriminate|].
  intros H1 H2. apply String.eqb_eq in H1, H2.
  cbn [firstn string_of_list_ascii] in H1, H2.
  injection H1 as -> _. discriminate H2.
Qed.

Lemma draft_lexBoolean_Ok (chars : list ascii) (tok : Draft.Token) :
  Draft.lexBoolean chars = Ok tok ->
  lexBoolean chars = Ok (without_text tok) /\
  Draft.text tok = toString (Draft.value tok) /\
  tok = with_text (without_text tok).
Proof.
  unfold Draft.lexBoolean, lexBoolean.
  change Draft.JSON_syntax.VALUE_SEPARATOR with SYNTAX_TOKENS.VALUE_SEPARATOR.
  destruct (String.eqb (string_of_list_ascii (firstn 4 chars)) "true") eqn:Ht;
    cbn [andb].
  - destruct (char_is (nth_error chars 4) SYNTAX_TOKENS.VALUE_SEPARATOR); cbn [orb].
    + intros [= <-]. now repeat split.
    + destruct (String.eqb (string_of_list_ascii (firstn 5 chars)) "false") eqn:Hf;
        [|discriminate].
      now elim (true_false_prefix chars).
  - destruct (String.eqb (string_of_list_ascii (firstn 5 chars)) "false"); cbn [andb];
      [|discriminate].
    destruct (char_is (nth_error chars 5) SYNTAX_TOKENS.VALUE_SEPARATOR); [|discriminate].
    intros [= <-]. now repeat split.
Qed.

(** X17. [lexBoolean] of the draft, which is that of the revision, accepts
    [true] and [false] only when a value-separator follows, so that a
    boolean which ends an array or an object is rejected; whenever it
    returns a token, [lexBoolean] of the module returns the same boolean,
    and the text of the token is the text of its value. *)
Theorem draft_lexBoolean_needs_separator :
  (forall rest,
     Draft.lexBoolean (list_ascii_of_string "true" ++ rest)
     = if char_is (nth_error rest 0) SYNTAX_TOKENS.VALUE_SEPARATOR
       then Ok (with_text (tBoolean true)) else Throw LexerUnknownBoolean) /\
  (forall rest,
     Draft.lexBoolean (list_ascii_of_string "false" ++ rest)
     = if char_is (nth_error rest 0) SYNTAX_TOKENS.VALUE_SEPARATOR
       then Ok (with_text (tBoolean false)) else Throw LexerUnknownBoolean) /\
  (forall chars tok,
     Draft.lexBoolean chars = Ok tok ->
     lexBoolean chars = Ok (without_text tok) /\
     Draft.text tok = toString (Draft.value tok)) /\
  (exists fuel, Draft.lex fuel ("[" ++ quoted "a" ++ ",true]") = Throw LexerUnknownBoolean) /\
  (exists fuel, lex fuel ("[" ++ quoted "a" ++ ",true]")
                = Ok [tSyntax "["; tString "a"; tSyntax ","; tBoolean true; tSyntax "]"]).
Proof.
  split; [|split; [|split; [|split]]].
  - intros rest. unfold Draft.lexBoolean.
    cbn [list_ascii_of_string app firstn string_of_list_ascii nth_error].
    rewrite String.eqb_refl. cbn [andb].
    change Draft.JSON_syntax.VALUE_SEPARATOR with SYNTAX_TOKENS.VALUE_SEPARATOR.
    destruct (char_is (nth_error rest 0) SYNTAX_TOKENS.VALUE_SEPARATOR); reflexivity.
  - intros rest. unfold Draft.lexBoolean.
    cbn [list_ascii_of_string app firstn string_of_list_ascii nth_error].
    replace (String.eqb _ "true") with false by reflexivity.
    rewrite String.eqb_refl. cbn [andb].
    change Draft.JSON_syntax.VALUE_SEPARATOR with SYNTAX_TOKENS.VALUE_SEPARATOR.
    destruct (char_is (nth_error rest 0) SYNTAX_TOKENS.VALUE_SEPARATOR); reflexivity.
  - intros chars tok H. now apply draft_lexBoolean_Ok in H.
  - exists 20. reflexivity.
  - exists 20. reflexivity.
Qed.

(* ------------------------------------------------------------------ *)
(** ** The three lexers compared *)

Lemma revision_lexString_loop_eq (fuel : nat) :
  forall c n str,
    lexString_loop fuel c n str
    = (r <- Revision.lexString_loop fuel c n str ;; Ok (fst r, without_text (snd r))).
Proof.
  induction fuel as [|fuel IH]; intros c n str; [reflexivity|].
  cbn [lexString_loop Revision.lexString_loop].
  destruct (negb _ && negb _);
    [destruct (str_append _ _); cbn [bind]; [apply IH | reflexivity..]|].
  destruct (negb _); [reflexivity|].
  destruct (str_append _ _); cbn [bind]; [apply IH | reflexivity..].
Qed.

Lemma revision_lex_loop_refined (fuel : nat) :
  forall tokens chars toks,
    Revision.lex_loop fuel tokens chars = Ok toks ->
    lex_loop fuel (map without_text tokens) chars = Ok (map without_text toks).
Proof.
  induction fuel as [|fuel IH]; intros tokens chars toks H; [discriminate|].
  cbn [Revision.lex_loop lex_loop] in H |- *.
  destruct chars as [|ch rest]; [now injection H as <-|].
  change Revision.JSON_whitespace.values with WHITESPACE_TOKENS.values in H.
  change Revision.JSON_syntax.values with SYNTAX_TOKENS.values in H.
  destruct (includes WHITESPACE_TOKENS.values (Some ch)); [now apply IH|].
  destruct (includes SYNTAX_TOKENS.values (Some ch)).
  { apply IH in H. now rewrite map_app in H. }
  destruct (Ascii.eqb ch QUOTATION_MARK).
  { inv_bind H as [len tok] E. unfold lexString. unfold Revision.lexString in E.
    rewrite revision_lexString_loop_eq, E. cbn [bind fst snd].
    apply IH in H. now rewrite map_app in H. }
  destruct (Ascii.eqb ch "t" || Ascii.eqb ch "f"); [|discriminate].
  inv_bind H as tok E. unfold Revision.lexBoolean in E.
  apply draft_lexBoolean_Ok in E as (E & Htext & _). rewrite E. cbn [bind].
  apply IH in H. rewrite map_app in H. cbn [without_text value] in H |- *.
  now rewrite <- Htext.
Qed.

(** X18. Whatever the lexer of the revision accepts, the lexer of the
    module accepts, with the same tokens but for their [text] field:
    [lexBoolean] of the module returns whenever that of the revision
    does. *)
Theorem revision_lex_refined (fuel : nat) (input : string) (toks : list Draft.Token) :
  Revision.lex fuel input = Ok toks ->
  lex fuel input = Ok (map without_text toks).
Proof. apply (revision_lex_loop_refined fuel []). Qed.

Lemma revision_lex_refined_witness :
  Revision.lex 20 input_array_commas
  = Ok (map with_text [tSyntax "["; tString "a"; tSyntax ","; tString "b"; tSyntax "]"]) /\
  lex 20 input_array_commas
  = Ok [tSyntax "["; tString "a"; tSyntax ","; tString "b"; tSyntax "]"].
Proof.
  split; [reflexivity|].
  apply (@revision_lex_refined 20 input_array_commas
           (map with_text [tSyntax "["; tString "a"; tSyntax ","; tString "b"; tSyntax "]"])).
  reflexivity.
Defined.

(** Once the position read is past the end, the draft's loop goes on
    for ever. *)
Lemma draft_lexString_loop_past_end (fuel : nat) :
  forall chars str,
    List.length chars <= String.length str ->
    forall tok, Draft.lexString_loop fuel chars str <> Ok tok.
Proof.
  intros chars str Hlen tok. apply draft_lexString_loop_unclosed.
  now rewrite skipn_all2.
Qed.

Lemma nth_error_skipn_0 (A : Type) (n : nat) (l : list A) :
  nth_error (skipn n l) 0 = nth_error l n.
Proof.
  revert l. induction n as [|n IH]; intros [|x l]; try reflexivity. apply IH.
Qed.

Lemma draft_lexString_loop_refined (fuel : nat) :
  forall chars str tok,
    no_backslash (skipn (String.length str) chars) = true ->
    Draft.lexString_loop fuel chars str = Ok tok ->
    Revision.lexString_loop fuel (skipn (String.length str) chars) (String.length str) str
    = Ok (String.length (Draft.text tok), tok).
Proof.
  unfold no_backslash.
  induction fuel as [|fuel IH]; intros chars str tok Hb H; [discriminate|].
  cbn [Draft.lexString_loop Revision.lexString_loop] in H |- *.
  rewrite nth_error_skipn_0.
  destruct (nth_error chars (String.length str)) as [x|] eqn:Hx; cbn [char_is char_str] in *.
  - pose proof (forallb_skipn_head _ _ _ Hb Hx) as Hne. cbn beta in Hne.
    apply negb_true_iff in Hne. rewrite Hne.
    destruct (Ascii.eqb x QUOTATION_MARK); cbn [negb andb str_append char_str bind] in *.
    + now injection H as <-.
    + apply IH in H.
      * rewrite string_length_app, skipn_add in H. exact H.
      * rewrite string_length_app, skipn_add. now apply forallb_skipn.
  - cbn [negb str_append char_str] in H.
    destruct (too_long _); cbn [bind] in H; [discriminate|].
    exfalso. revert H. apply draft_lexString_loop_past_end.
    apply nth_error_None in Hx. rewrite string_length_app. lia.
Qed.

Lemma draft_lex_loop_refined (fuel : nat) :
  forall tokens chars toks,
    no_backslash chars = true ->
    Draft.lex_loop fuel tokens chars = Ok toks ->
    Revision.lex_loop fuel tokens chars = Ok toks.
Proof.
  induction fuel as [|fuel IH]; intros tokens chars toks Hb H; [discriminate|].
  cbn [Revision.lex_loop Draft.lex_loop] in H |- *.
  destruct chars as [|ch rest]; [exact H|].
  assert (Hrest : no_backslash rest = true)
    by (exact (forallb_skipn _ 1 (ch :: rest) Hb)).
  change Revision.JSON_whitespace.values with WHITESPACE_TOKENS.values.
  change Revision.JSON_syntax.values with SYNTAX_TOKENS.values.
  change Draft.JSON_whitespace.values with WHITESPACE_TOKENS.values in H.
  change Draft.JSON_syntax.values with SYNTAX_TOKENS.values in H.
  destruct (includes WHITESPACE_TOKENS.values (Some ch)); [now apply IH|].
  destruct (includes SYNTAX_TOKENS.values (Some ch)); [now apply IH|].
  destruct (Ascii.eqb ch QUOTATION_MARK).
  { inv_bind H as tok E. unfold Draft.lexString in E. unfold Revision.lexString.
    apply draft_lexString_loop_refined in E; [|exact Hrest].
    cbn [String.length skipn] in E. rewrite E. cbn [bind].
    apply IH; [|exact H]. now apply forallb_skipn. }
  destruct (Ascii.eqb ch "t" || Ascii.eqb ch "f"); [|discriminate].
  unfold Revision.lexBoolean. inv_bind H as tok E.
  apply IH; [|exact H]. now apply forallb_skipn.
Qed.

(** X19. On a text without a backslash, whatever the lexer of the draft
    accepts the lexer of the revision accepts with the same tokens: the two
    [lexString] differ in the reading of escapes only. *)
Theorem draft_lex_refined (fuel : nat) (input : string) (toks : list Draft.Token) :
  no_backslash (list_ascii_of_string input) = true ->
  Draft.lex fuel input = Ok toks ->
  Revision.lex fuel input = Ok toks.
Proof. intros Hb. now apply draft_lex_loop_refined. Qed.

Lemma draft_lex_refined_witness :
  Draft.lex 20 input_array_commas
  = Ok (map with_text [tSyntax "["; tString "a"; tSyntax ","; tString "b"; tSyntax "]"]) /\
  Revision.lex 20 input_array_commas
  = Ok (map with_text [tSyntax "["; tString "a"; tSyntax ","; tString "b"; tSyntax "]"]).
Proof.
  split; [reflexivity|].
  now apply (@draft_lex_refined 20 input_array_commas).
Defined.

(* ------------------------------------------------------------------ *)
(** ** The parser of the draft *)

Ltac draft_step :=
  cbn [Draft.parseObject_loop Draft.parseArray_loop Draft.tok_text Draft.tok_value
         nth_error Draft.text Draft.value Draft.type with_text tString tSyntax tBoolean
         type value toString negb bind skipn sep_tokens map app List.length Nat.ltb Nat.leb].

Lemma draft_tok_text_final (t : list Draft.Token) (i : nat) : final (Draft.tok_text t i).
Proof. unfold Draft.tok_text. destruct (nth_error t i); fin. Qed.

Lemma draft_tok_value_Ok (t : list Draft.Token) (v : TokenValue) :
  Draft.tok_value t 0 = Ok v -> exists tok t', t = tok :: t' /\ v = Draft.value tok.
Proof.
  destruct t as [|tok t']; cbn; [discriminate|].
  intros [= <-]. now exists tok, t'.
Qed.

Lemma draft_tok_value_final (t : list Draft.Token) (i : nat) : final (Draft.tok_value t i).
Proof. unfold Draft.tok_value. destruct (nth_error t i); fin. Qed.

(** X20. The test after the loop of the draft's [parseObject] compares
    with the closing square bracket: when one token is left the call
    returns the object, and that token, if it is a closing square bracket,
    and throws the missing-end error on anything else, the closing brace
    included. So [parse] of the draft and of the revision returns the empty
    object on an opening brace followed by a closing square bracket, and
    throws on the text of the empty object. *)
Theorem draft_object_end_test :
  (forall fuel output tok,
     Draft.parseObject_loop (S fuel) output [tok]
     = if Draft.text_is (Draft.text tok) Draft.JSON_syntax.RIGHT_SQUARE_BRACKET
       then Ok ([tok], output) else Throw ParserObjectMissingEnd) /\
  (exists fuel, Draft.parse fuel "{]" = Ok (VObject empty_object)) /\
  (exists fuel, Draft.parse fuel "{}" = Throw ParserObjectMissingEnd) /\
  (exists fuel, Revision.parse fuel "{]" = Ok (VObject empty_object)) /\
  (exists fuel, Revision.parse fuel "{}" = Throw ParserObjectMissingEnd).
Proof.
  split; [|repeat split; exists 5; reflexivity].
  intros fuel output tok. draft_step.
  now destruct (Draft.text_is _ _).
Qed.

Lemma bind_Throw (A B : Type) (m : Outcome A) (k : A -> Outcome B) (e : Error) :
  bind m k = Throw e -> m = Throw e \/ exists a, m = Ok a /\ k a = Throw e.
Proof.
  destruct m as [a | e' | ]; cbn [bind]; intros H;
    [right; now exists a | left; now injection H as -> | discriminate].
Qed.

Lemma draft_tok_text_Throw (t : list Draft.Token) (i : nat) (e : Error) :
  Draft.tok_text t i = Throw e -> e = TypeError.
Proof. unfold Draft.tok_text. destruct (nth_error t i); [discriminate | now intros [= <-]]. Qed.

Lemma draft_tok_value_Throw (t : list Draft.Token) (i : nat) (e : Error) :
  Draft.tok_value t i = Throw e -> e = TypeError.
Proof. unfold Draft.tok_value. destruct (nth_error t i); [discriminate | now intros [= <-]]. Qed.

Lemma draft_no_array_missing_end (fuel : nat) :
  (forall tokens, Draft.parseTokens fuel tokens <> Throw ParserArrayMissingEnd) /\
  (forall output t, Draft.parseObject_loop fuel output t <> Throw ParserArrayMissingEnd) /\
  (forall output t, Draft.parseArray_loop fuel output t <> Throw ParserArrayMissingEnd).
Proof.
  induction fuel as [|fuel (IHt & IHo & IHa)]; [repeat split; discriminate|].
  repeat split.
  - intros tokens H. cbn [Draft.parseTokens] in H.
    apply bind_Throw in H as [H | (v0 & _ & H)];
      [apply draft_tok_value_Throw in H; discriminate|].
    destruct (value_is _ Draft.JSON_syntax.LEFT_CURLY_BRACKET).
    { apply bind_Throw in H as [H | ([t o] & _ & H)]; [now apply IHo in H | discriminate]. }
    destruct (value_is _ Draft.JSON_syntax.LEFT_SQUARE_BRACKET); [|discriminate].
    apply bind_Throw in H as [H | ([t o] & _ & H)]; [now apply IHa in H | discriminate].
  - intros output t H. cbn [Draft.parseObject_loop] in H.
    destruct (Nat.ltb 1 (List.length t)).
    + destruct t as [|objectKey t]; [discriminate|].
      apply bind_Throw in H as [H | (sep & _ & H)];
        [apply draft_tok_value_Throw in H; discriminate|].
      destruct (negb _); [discriminate|].
      apply bind_Throw in H as [H | ([t3 v] & _ & H)]; [now apply IHt in H|].
      apply bind_Throw in H as [H | (x & _ & H)];
        [apply draft_tok_text_Throw in H; discriminate|].
      apply bind_Throw in H as [H | (y & _ & H)];
        [apply draft_tok_text_Throw in H; discriminate|].
      destruct (Draft.text_is y _); [discriminate | now apply IHo in H].
    + apply bind_Throw in H as [H | (x & _ & H)];
        [apply draft_tok_text_Throw in H; discriminate|].
      destruct (negb _); discriminate.
  - intros output t H. cbn [Draft.parseArray_loop] in H.
    destruct (Nat.ltb 0 (List.length t)) eqn:Hlen.
    + apply bind_Throw in H as [H | ([t3 v] & _ & H)]; [now apply IHt in H|].
      apply bind_Throw in H as [H | (x & _ & H)];
        [apply draft_tok_text_Throw in H; discriminate|].
      apply bind_Throw in H as [H | (y & _ & H)];
        [apply draft_tok_text_Throw in H; discriminate|].
      destruct (Draft.text_is y _); [discriminate | now apply IHa in H].
    + destruct t as [|tok t]; [discriminate | discriminate Hlen].
Qed.

(** X21. The missing-end error of the draft's [parseArray] is dead code:
    its loop is left only when no token remains, and the test after the
    loop then reads the text of a token that is not there. No call of
    [parseTokens], [parseObject] or [parseArray] ends with that error; an
    array left open ends with the [TypeError] of the run time. *)
Theorem draft_array_missing_end_never_thrown :
  (forall fuel tokens, Draft.parseTokens fuel tokens <> Throw ParserArrayMissingEnd) /\
  (forall fuel tokens, Draft.parseObject fuel tokens <> Throw ParserArrayMissingEnd) /\
  (forall fuel tokens, Draft.parseArray fuel tokens <> Throw ParserArrayMissingEnd) /\
  (forall fuel input, Draft.parse fuel input <> Throw ParserArrayMissingEnd) /\
  (exists fuel, Draft.parse fuel input_unclosed_array = Throw TypeError).
Proof.
  split; [|split; [|split; [|split]]].
  - intros fuel. apply draft_no_array_missing_end.
  - intros fuel. apply draft_no_array_missing_end.
  - intros fuel. apply draft_no_array_missing_end.
  - intros fuel input H. unfold Draft.parse in H.
    destruct (Draft.lex fuel input) as [tokens | e | ] eqn:E; cbn [bind] in H;
      [| | discriminate].
    + apply bind_Throw in H as [H | (r & _ & H)]; [|discriminate].
      now apply (proj1 (draft_no_array_missing_end fuel)) in H.
    + injection H as ->. revert E. unfold Draft.lex.
      generalize (@nil Draft.Token) as tokens, (list_ascii_of_string input) as chars.
      induction fuel as [|fuel IH]; intros tokens chars H; [discriminate|].
      cbn [Draft.lex_loop] in H. destruct chars as [|ch rest]; [discriminate|].
      destruct (includes _ (Some ch)); [now apply IH in H|].
      destruct (includes _ (Some ch)); [now apply IH in H|].
      destruct (Ascii.eqb ch QUOTATION_MARK).
      { apply bind_Throw in H as [H | (tok & _ & H)]; [|now apply IH in H].
        revert H. unfold Draft.lexString. generalize ""%string as str.
        clear IH. induction fuel as [|fuel IH]; intros str H; [discriminate|].
        cbn [Draft.lexString_loop] in H.
        destruct (negb _); [|discriminate].
        apply bind_Throw in H as [H | (s & _ & H)]; [|now apply IH in H].
        unfold str_append in H. destruct (nth_error _ _); [discriminate|].
        destruct (too_long _); discriminate. }
      destruct (_ || _); [|discriminate].
      apply bind_Throw in H as [H | (tok & _ & H)]; [|now apply IH in H].
      unfold Draft.lexBoolean in H.
      destruct (_ && _); [discriminate|]. destruct (_ && _); discriminate.
  - exists 10. reflexivity.
Qed.

(** X22. The parser of the draft accepts what the module rejects after a
    value: a value-separator before the closing bracket is skipped, in an
    object and in an array, and the key of a member may be any token, the
    property being named by its text. *)
Theorem draft_accepts_trailing_separator :
  (forall fuel output key t rest v,
     Draft.parseTokens fuel t
     = Ok (with_text (tSyntax ",") :: with_text (tSyntax "}") :: rest, v) ->
     Draft.parseObject_loop (S fuel) output (key :: with_text (tSyntax ":") :: t)
     = Ok (rest, obj_assign (Draft.text key) v output)) /\
  (forall fuel output t rest v,
     Draft.parseTokens fuel t
     = Ok (with_text (tSyntax ",") :: with_text (tSyntax "]") :: rest, v) ->
     Draft.parseArray_loop (S fuel) output t = Ok (rest, output ++ [v])) /\
  (exists fuel, Draft.parse fuel input_trailing_comma
                = Ok (VObject (mkObject None [("a", VString "b")]%string))) /\
  (exists fuel, Draft.parse fuel input_array_trailing_comma = Ok (VArray [VString "a"])) /\
  (exists fuel, Draft.parse fuel ("{[:" ++ quoted "a" ++ "}")
                = Ok (VObject (mkObject None [("[", VString "a")]%string))).
Proof.
  split; [|split; [|repeat split; exists 20; reflexivity]].
  - intros fuel output key t rest v Hv. draft_step. now rewrite Hv.
  - intros fuel output t rest v Hv.
    assert (Ht : exists tok t', t = tok :: t').
    { destruct fuel as [|fuel]; [discriminate|]. cbn [Draft.parseTokens] in Hv.
      destruct (Draft.tok_value t 0) as [v0 | | ] eqn:E; [|discriminate..].
      apply draft_tok_value_Ok in E as (tok & t' & -> & _). now exists tok, t'. }
    destruct Ht as (tok & t' & ->). draft_step. now rewrite Hv.
Qed.

Lemma draft_parser_approx (fuel : nat) :
  (forall fuel' tokens, fuel <= fuel' ->
     approx (Draft.parseTokens fuel tokens) (Draft.parseTokens fuel' tokens)) /\
  (forall fuel' output t, fuel <= fuel' ->
     approx (Draft.parseObject_loop fuel output t) (Draft.parseObject_loop fuel' output t)) /\
  (forall fuel' output t, fuel <= fuel' ->
     approx (Draft.parseArray_loop fuel output t) (Draft.parseArray_loop fuel' output t)).
Proof.
  induction fuel as [|fuel (IHt & IHo & IHa)];
    [repeat split; intros; apply approx_bot|].
  repeat split; intros fuel'; (destruct fuel' as [|fuel']; intros; [lia|]); simpl.
  - repeat first [ approx_step IHo | approx_step IHa ].
  - destruct (List.length t) as [|[|n]]; cbn [Nat.leb]; try apply approx_refl.
    destruct t as [|objectKey t]; [apply approx_refl|].
    repeat first [ approx_step IHo | approx_step IHt ].
  - destruct (List.length t) as [|n]; cbn [Nat.leb]; try apply approx_refl.
    repeat first [ approx_step IHa | approx_step IHt ].
Qed.

(* ------------------------------------------------------------------ *)
(** ** The parser of the draft terminates *)

(** A call of [parseTokens] that returns has consumed a token; a loop
    that returns has not added any. *)
Lemma draft_parser_consumes (fuel : nat) :
  (forall tokens rest v,
     Draft.parseTokens fuel tokens = Ok (rest, v) ->
     List.length rest < List.length tokens) /\
  (forall output t rest o,
     Draft.parseObject_loop fuel output t = Ok (rest, o) ->
     List.length rest <= List.length t) /\
  (forall output t rest o,
     Draft.parseArray_loop fuel output t = Ok (rest, o) ->
     List.length rest <= List.length t).
Proof.
  induction fuel as [|fuel (IHt & IHo & IHa)]; [repeat split; discriminate|].
  repeat split.
  - intros tokens rest v H. cbn [Draft.parseTokens] in H.
    inv_bind H as v0 E0. apply draft_tok_value_Ok in E0 as (tok & t' & -> & ->).
    cbn [skipn] in H.
    destruct (value_is _ Draft.JSON_syntax.LEFT_CURLY_BRACKET).
    { inv_bind H as [t o] E. injection H as <- <-. apply IHo in E. cbn. lia. }
    destruct (value_is _ Draft.JSON_syntax.LEFT_SQUARE_BRACKET).
    { inv_bind H as [t o] E. injection H as <- <-. apply IHa in E. cbn. lia. }
    injection H as <- <-. cbn. lia.
  - intros output t rest o H. cbn [Draft.parseObject_loop] in H.
    destruct (Nat.ltb 1 (List.length t)).
    + destruct t as [|objectKey t1]; [discriminate|].
      inv_bind H as sep Esep. apply draft_tok_value_Ok in Esep as (stok & t2 & -> & ->).
      destruct (negb _); [discriminate|]. cbn [skipn] in H.
      inv_bind H as [t3 v] Ev. apply IHt in Ev.
      inv_bind H as x Ex. inv_bind H as y Ey. cbn [List.length].
      assert (Hlen : List.length
                       (if Draft.text_is x Draft.JSON_syntax.VALUE_SEPARATOR
                        then skipn 1 t3 else t3) <= List.length t3)
        by (destruct (Draft.text_is x _); [apply length_skipn_le | lia]).
      cbn [skipn] in Hlen.
      destruct (Draft.text_is y _).
      * injection H as <- <-.
        pose proof (length_skipn_le 1
                      (if Draft.text_is x Draft.JSON_syntax.VALUE_SEPARATOR
                       then skipn 1 t3 else t3)) as Hs.
        cbn [skipn] in *. lia.
      * apply IHo in H. cbn [skipn] in *. lia.
    + inv_bind H as x Ex. destruct (negb _); [discriminate|].
      injection H as <- <-. lia.
  - intros output t rest o H. cbn [Draft.parseArray_loop] in H.
    destruct (Nat.ltb 0 (List.length t)).
    + inv_bind H as [t3 v] Ev. apply IHt in Ev.
      inv_bind H as x Ex. inv_bind H as y Ey.
      assert (Hlen : List.length
                       (if Draft.text_is x Draft.JSON_syntax.VALUE_SEPARATOR
                        then skipn 1 t3 else t3) <= List.length t3)
        by (destruct (Draft.text_is x _); [apply length_skipn_le | lia]).
      cbn [skipn] in Hlen.
      destruct (Draft.text_is y _).
      * injection H as <- <-.
        pose proof (length_skipn_le 1
                      (if Draft.text_is x Draft.JSON_syntax.VALUE_SEPARATOR
                       then skipn 1 t3 else t3)) as Hs.
        cbn [skipn] in *. lia.
      * apply IHa in H. cbn [skipn] in *. lia.
    + inv_bind H as x Ex. destruct (negb _); [discriminate|].
      injection H as <- <-. lia.
Qed.

Lemma draft_parser_total (fuel : nat) :
  (forall tokens, 2 * List.length tokens < fuel -> final (Draft.parseTokens fuel tokens)) /\
  (forall output t, 2 * List.length t < fuel ->
     final (Draft.parseObject_loop fuel output t)) /\
  (forall output t, 2 * List.length t + 1 < fuel ->
     final (Draft.parseArray_loop fuel output t)).
Proof.
  induction fuel as [|fuel (IHt & IHo & IHa)]; [repeat split; intros; lia|].
  repeat split.
  - intros tokens Hfuel. cbn [Draft.parseTokens].
    step_final (@draft_tok_value_final tokens 0) v0 E.
    apply draft_tok_value_Ok in E as (tok & t' & -> & ->).
    cbn [skipn List.length] in *.
    destruct (value_is _ Draft.JSON_syntax.LEFT_CURLY_BRACKET).
    { step_final (IHo empty_object t' ltac:(lia)) r E. destruct r. fin. }
    destruct (value_is _ Draft.JSON_syntax.LEFT_SQUARE_BRACKET); fin.
    step_final (IHa [] t' ltac:(lia)) r E. destruct r. fin.
  - intros output t Hfuel. cbn [Draft.parseObject_loop].
    destruct (Nat.ltb 1 (List.length t)).
    + destruct t as [|objectKey t1]; fin. cbn [List.length] in Hfuel.
      step_final (@draft_tok_value_final t1 0) sep E.
      apply draft_tok_value_Ok in E as (stok & t2 & -> & ->).
      cbn [skipn List.length] in *.
      destruct (negb _); fin.
      step_final (IHt t2 ltac:(lia)) r E. destruct r as [t3 v].
      apply draft_parser_consumes in E.
      step_final (@draft_tok_text_final t3 0) x Ex.
      assert (Hlen : List.length
                       (if Draft.text_is x Draft.JSON_syntax.VALUE_SEPARATOR
                        then skipn 1 t3 else t3) <= List.length t3)
        by (destruct (Draft.text_is x _); [apply length_skipn_le | lia]).
      cbn [skipn] in Hlen.
      step_final (@draft_tok_text_final
                    (if Draft.text_is x Draft.JSON_syntax.VALUE_SEPARATOR
                     then skipn 1 t3 else t3) 0) y Ey.
      destruct (Draft.text_is y _); fin. apply IHo. cbn [skipn] in *. lia.
    + step_final (@draft_tok_text_final t 0) x Ex. destruct (negb _); fin.
  - intros output t Hfuel. cbn [Draft.parseArray_loop].
    destruct (Nat.ltb 0 (List.length t)).
    + step_final (IHt t ltac:(lia)) r E. destruct r as [t3 v].
      apply draft_parser_consumes in E.
      step_final (@draft_tok_text_final t3 0) x Ex.
      assert (Hlen : List.length
                       (if Draft.text_is x Draft.JSON_syntax.VALUE_SEPARATOR
                        then skipn 1 t3 else t3) <= List.length t3)
        by (destruct (Draft.text_is x _); [apply length_skipn_le | lia]).
      cbn [skipn] in Hlen.
      step_final (@draft_tok_text_final
                    (if Draft.text_is x Draft.JSON_syntax.VALUE_SEPARATOR
                     then skipn 1 t3 else t3) 0) y Ey.
      destruct (Draft.text_is y _); fin. apply IHa. cbn [skipn] in *. lia.
    + step_final (@draft_tok_text_final t 0) x Ex. destruct (negb _); fin.
Qed.

(** X23. The parser of the draft terminates as well: on every token
    list [parseTokens], [parseObject] and [parseArray] complete within a
    budget of twice the number of tokens plus two, every iteration of
    their loops consuming at least one token. *)
Theorem draft_parser_terminates (tokens : list Draft.Token) :
  final (Draft.parseTokens (2 * List.length tokens + 1) tokens) /\
  final (Draft.parseObject (2 * List.length tokens + 1) tokens) /\
  final (Draft.parseArray (2 * List.length tokens + 2) tokens) /\
  (forall fuel, 2 * List.length tokens < fuel ->
     Draft.parseTokens fuel tokens
     = Draft.parseTokens (2 * List.length tokens + 1) tokens).
Proof.
  repeat split.
  - apply draft_parser_total. lia.
  - apply draft_parser_total. lia.
  - apply draft_parser_total. lia.
  - intros fuel Hfuel. apply approx_final.
    + apply draft_parser_approx. lia.
    + apply draft_parser_total. lia.
Qed.

(* ------------------------------------------------------------------ *)
(** ** What the parser of the module accepts, that of the draft accepts *)

Lemma text_is_toString (v : TokenValue) (ch : ascii) :
  Draft.text_is (toString v) ch = value_is v ch.
Proof.
  destruct v as [s | [|]]; cbn [value_is toString]; [reflexivity | |];
    unfold Draft.text_is, str1; cbn [String.eqb];
    now destruct (Ascii.eqb _ ch).
Qed.

Lemma with_text_tok_value (t : list Token) (i : nat) :
  Draft.tok_value (map with_text t) i = tok_value t i.
Proof.
  unfold Draft.tok_value, tok_value. rewrite nth_error_map.
  now destruct (nth_error t i).
Qed.

Lemma with_text_tok_text (t : list Token) (i : nat) (v : TokenValue) :
  tok_value t i = Ok v -> Draft.tok_text (map with_text t) i = Ok (toString v).
Proof.
  unfold Draft.tok_text, tok_value. rewrite nth_error_map.
  destruct (nth_error t i); [now intros [= <-] | discriminate].
Qed.

(** After a value the draft drops a value-separator where the module
    does. *)
Lemma with_text_separator (t t' : list Token) (v : TokenValue) (closing : ascii)
      (e : Error) :
  (if value_is v SYNTAX_TOKENS.VALUE_SEPARATOR then
     v1 <- tok_value t 1 ;;
     if value_is v1 closing then Throw e else Ok (skipn 1 t)
   else Ok t) = Ok t' ->
  (if Draft.text_is (toString v) Draft.JSON_syntax.VALUE_SEPARATOR
   then skipn 1 (map with_text t) else map with_text t) = map with_text t'.
Proof.
  change Draft.JSON_syntax.VALUE_SEPARATOR with SYNTAX_TOKENS.VALUE_SEPARATOR.
  rewrite text_is_toString. destruct (value_is v _).
  - intros H. inv_bind H as v1 E1. destruct (value_is v1 closing); [discriminate|].
    injection H as <-. apply skipn_map.
  - now intros [= <-].
Qed.

Lemma parser_refines_draft (fuel : nat) :
  (forall tokens rest v,
     parseTokens fuel tokens = Ok (rest, v) ->
     Draft.parseTokens fuel (map with_text tokens) = Ok (map with_text rest, v)) /\
  (forall output t rest o,
     parseObject_loop fuel output t = Ok (rest, o) ->
     Draft.parseObject_loop fuel output (map with_text t) = Ok (map with_text rest, o)) /\
  (forall output t rest o,
     parseArray_loop fuel output t = Ok (rest, o) ->
     Draft.parseArray_loop fuel output (map with_text t) = Ok (map with_text rest, o)).
Proof.
  induction fuel as [|fuel (IHt & IHo & IHa)]; [repeat split; discriminate|].
  repeat split.
  - intros tokens rest v H. cbn [parseTokens Draft.parseTokens] in H |- *.
    rewrite with_text_tok_value, skipn_map.
    inv_bind H as v0 E0. cbn [bind].
    change Draft.JSON_syntax.LEFT_CURLY_BRACKET with SYNTAX_TOKENS.BEGIN_OBJECT.
    change Draft.JSON_syntax.LEFT_SQUARE_BRACKET with SYNTAX_TOKENS.BEGIN_ARRAY.
    destruct (value_is v0 SYNTAX_TOKENS.BEGIN_OBJECT).
    { inv_bind H as [t o] E. injection H as <- <-.
      now rewrite (IHo _ _ _ _ E). }
    destruct (value_is v0 SYNTAX_TOKENS.BEGIN_ARRAY).
    { inv_bind H as [t o] E. injection H as <- <-.
      now rewrite (IHa _ _ _ _ E). }
    now injection H as <- <-.
  - intros output t rest o H. cbn [parseObject_loop] in H.
    inv_bind H as ty Ety. destruct (negb _); [discriminate|].
    inv_bind H as key Ekey. apply tok_value_Ok in Ekey as (ktok & t1 & -> & ->).
    cbn [skipn] in H. inv_bind H as sep Esep.
    pose proof Esep as Esep'. apply tok_value_Ok in Esep' as (stok & t2 & -> & ->).
    destruct (negb (value_is _ _)) eqn:Hsep; [discriminate|]. cbn [skipn] in H.
    inv_bind H as [t3 v] Ev. apply IHt in Ev.
    inv_bind H as v3 E3. inv_bind H as t4 E4. inv_bind H as v4 E5.
    cbn [map Draft.parseObject_loop List.length Nat.ltb Nat.leb
           Draft.tok_value nth_error with_text Draft.value Draft.text bind skipn].
    change Draft.JSON_syntax.NAME_SEPARATOR with SYNTAX_TOKENS.NAME_SEPARATOR.
    rewrite Hsep, Ev. cbn [bind].
    rewrite (with_text_tok_text _ _ E3). cbn [bind].
    pose proof (with_text_separator _ _ _ _ E4) as Hs. cbn [skipn] in Hs. rewrite Hs.
    rewrite (with_text_tok_text _ _ E5). cbn [bind].
    change Draft.JSON_syntax.RIGHT_CURLY_BRACKET with SYNTAX_TOKENS.END_OBJECT.
    rewrite text_is_toString.
    destruct (value_is v4 SYNTAX_TOKENS.END_OBJECT).
    + injection H as <- <-.
      exact (f_equal (fun l => Ok (l, obj_assign (toString (value ktok)) v output))
               (skipn_map with_text 1 t4)).
    + now apply IHo.
  - intros output t rest o H. cbn [parseArray_loop] in H.
    inv_bind H as [t1 v] Ev.
    assert (Ht : exists tok t', t = tok :: t').
    { destruct fuel as [|fuel']; [discriminate|]. cbn [parseTokens] in Ev.
      inv_bind Ev as v0 E0. apply tok_value_Ok in E0 as (tok & t' & -> & _).
      now exists tok, t'. }
    apply IHt in Ev. destruct Ht as (tok & t' & ->).
    destruct (negb (isArray v) && _); [discriminate|].
    destruct (Nat.eqb _ 0); [discriminate|].
    inv_bind H as v1 E1. inv_bind H as t2 E2. inv_bind H as v2 E3.
    cbn [Draft.parseArray_loop]. cbn [map List.length Nat.ltb Nat.leb].
    cbn [map] in Ev. rewrite Ev. cbn [bind].
    rewrite (with_text_tok_text _ _ E1). cbn [bind].
    rewrite (with_text_separator _ _ _ _ E2).
    rewrite (with_text_tok_text _ _ E3). cbn [bind].
    change Draft.JSON_syntax.RIGHT_SQUARE_BRACKET with SYNTAX_TOKENS.END_ARRAY.
    rewrite text_is_toString.
    destruct (value_is v2 SYNTAX_TOKENS.END_ARRAY).
    + injection H as <- <-.
      exact (f_equal (fun l => Ok (l, output ++ [v])) (skipn_map with_text 1 t2)).
    + now apply IHa.
Qed.

(** X24. Whatever tokens the parser of the module accepts, the parser of
    the draft accepts: whenever [parseTokens] of the module returns, on any
    tokens, [parseTokens] of the draft returns the same value and leaves
    the same tokens, within the same budget. The tests the module has and
    the draft lacks, for a key that is no string, for a trailing separator
    and for a structural string in an array, throw where the draft goes
    on. *)
Theorem module_parser_refines_draft (fuel : nat) (tokens rest : list Token) (v : Value) :
  parseTokens fuel tokens = Ok (rest, v) ->
  Draft.parseTokens fuel (map with_text tokens) = Ok (map with_text rest, v).
Proof. apply parser_refines_draft. Qed.

Lemma module_parser_refines_draft_witness :
  parseTokens 10 (tokens_of doc_mixed) = Ok ([], json_value (shape doc_mixed)) /\
  Draft.parseTokens 10 (map with_text (tokens_of doc_mixed))
  = Ok (map with_text [], json_value (shape doc_mixed)).
Proof.
  split; [reflexivity|].
  apply (@module_parser_refines_draft 10 (tokens_of doc_mixed) []). reflexivity.
Defined.

Lemma revision_lexString_loop_text (fuel : nat) :
  forall c n str len tok,
    Revision.lexString_loop fuel c n str = Ok (len, tok) -> text_of_value tok.
Proof.
  induction fuel as [|fuel IH]; intros c n str len tok H; [discriminate|].
  cbn [Revision.lexString_loop] in H.
  destruct (negb _ && negb _); [inv_bind H as s E; now apply IH in H|].
  destruct (negb _); [|inv_bind H as s E; now apply IH in H].
  now injection H as <- <-.
Qed.

Lemma Forall_snoc (A : Type) (P : A -> Prop) (l : list A) (x : A) :
  Forall P l -> P x -> Forall P (l ++ [x]).
Proof. intros Hl Hx. apply Forall_app. split; [exact Hl | now constructor]. Qed.

Lemma revision_lex_loop_text (fuel : nat) :
  forall tokens chars toks,
    Forall text_of_value tokens ->
    Revision.lex_loop fuel tokens chars = Ok toks ->
    Forall text_of_value toks.
Proof.
  induction fuel as [|fuel IH]; intros tokens chars toks Hacc H; [discriminate|].
  cbn [Revision.lex_loop] in H. destruct chars as [|ch rest]; [now injection H as <-|].
  destruct (includes _ (Some ch)); [now apply IH in H|].
  destruct (includes _ (Some ch)).
  { apply IH in H; [exact H|]. now apply Forall_snoc. }
  destruct (Ascii.eqb ch QUOTATION_MARK).
  { inv_bind H as [len tok] E. apply revision_lexString_loop_text in E.
    apply IH in H; [exact H|]. now apply Forall_snoc. }
  destruct (Ascii.eqb ch "t" || Ascii.eqb ch "f"); [|discriminate].
  inv_bind H as tok E. unfold Revision.lexBoolean in E.
  apply draft_lexBoolean_Ok in E as (_ & Htext & _).
  apply IH in H; [exact H|]. now apply Forall_snoc.
Qed.

Lemma with_text_without_text (toks : list Draft.Token) :
  Forall text_of_value toks -> map with_text (map without_text toks) = toks.
Proof.
  induction 1 as [|tok toks Htok _ IH]; [reflexivity|].
  cbn [map]. rewrite IH. f_equal. destruct tok as [ty tx v].
  unfold text_of_value in Htok. cbn in Htok |- *. now rewrite Htok.
Qed.

Lemma revision_parse_of_parse (fuel : nat) (input : string) (toks : list Draft.Token)
      (v : Value) :
  Revision.lex fuel input = Ok toks -> parse fuel input = Ok v ->
  Revision.parse fuel input = Ok v.
Proof.
  intros Hlex Hp. unfold Revision.parse, Revision.parseTokens. rewrite Hlex. cbn [bind].
  pose proof (@revision_lex_loop_text fuel [] _ toks (Forall_nil _) Hlex) as Htext.
  apply (revision_lex_loop_refined fuel []) in Hlex.
  unfold parse, lex in Hp. cbn [map] in Hlex. rewrite Hlex in Hp. cbn [bind] in Hp.
  inv_bind Hp as [rest v'] E. cbn [snd] in Hp. injection Hp as ->.
  apply parser_refines_draft in E. rewrite with_text_without_text in E by exact Htext.
  now rewrite E.
Qed.

(** X25. End to end: on a text that the lexer of the revision accepts,
    or the lexer of the draft when the text has no backslash, whenever
    [parse] of the module returns a value, [parse] of that version returns
    the same value. *)
Theorem older_parse_agrees (fuel : nat) (input : string) (v : Value) :
  parse fuel input = Ok v ->
  (forall toks, Revision.lex fuel input = Ok toks -> Revision.parse fuel input = Ok v) /\
  (forall toks,
     no_backslash (list_ascii_of_string input) = true ->
     Draft.lex fuel input = Ok toks -> Draft.parse fuel input = Ok v).
Proof.
  intros Hp. split.
  - intros toks Hlex. now apply revision_parse_of_parse with (toks := toks).
  - intros toks Hb Hlex.
    pose proof (draft_lex_loop_refined fuel [] _ Hb Hlex) as Hrev.
    pose proof (@revision_parse_of_parse fuel input toks v Hrev Hp) as Hr.
    unfold Revision.parse, Revision.parseTokens in Hr.
    unfold Revision.lex in Hr. rewrite Hrev in Hr.
    unfold Draft.parse. now rewrite Hlex.
Qed.

Lemma older_parse_agrees_witness :
  parse 20 input_object_commas
  = Ok (VObject (mkObject None [("a", VString "x"); ("b", VString "y")]%string)) /\
  Revision.parse 20 input_object_commas
  = Ok (VObject (mkObject None [("a", VString "x"); ("b", VString "y")]%string)) /\
  Draft.parse 20 input_object_commas
  = Ok (VObject (mkObject None [("a", VString "x"); ("b", VString "y")]%string)).
Proof.
  split; [reflexivity|].
  destruct (@older_parse_agrees 20 input_object_commas _ eq_refl) as [Hr Hd].
  split.
  - apply (Hr (map with_text (tokens_of (DObject [(false, ("a", DString "x"));
                                                   (true, ("b", DString "y"))]%string)))).
    reflexivity.
  - apply (Hd (map with_text (tokens_of (DObject [(false, ("a", DString "x"));
                                                   (true, ("b", DString "y"))]%string))));
      reflexivity.
Defined.
